(** * quickbase-spec tooling: a shallow embedding of the validator, patch,
      convert, validate and fixture-generation passes, with the properties
      the specification states about them.

    The tools read JSON documents and walk them by duck-typed property
    access, so the embedding keeps that shape: one type of JavaScript
    values, the handful of language operations the tools rely on
    (truthiness, [typeof], [in], property read/write/delete, template
    string conversion) and then each tool function written over them. *)

From Stdlib Require Import Ascii.
From stdpp Require Import prelude strings pretty gmap.

(** ** JavaScript values and the operations the tools use *)
Module JS.

(** A JavaScript value as the tools see it: whatever [JSON.parse] yields,
    plus [undefined] (what a missing property reads as).  Numbers are kept
    as integers: the tools only ever ask for their [typeof], their
    truthiness and their decimal rendering.  Strings are byte strings.
    An object is the list of its own properties in enumeration order;
    inherited [Object.prototype] members are not part of the model. *)
#[warnings="-register-all"]
Inductive value : Type :=
| JUndef
| JNull
| JBool (b : bool)
| JNum (n : Z)
| JStr (s : string)
| JArr (l : list value)
| JObj (kv : list (string * value)).

(** The two exceptions that matter: a [TypeError] from using a value in a
    way its kind does not support, and the engine's [RangeError] when the
    call stack is exhausted. *)
Inductive js_error : Type := TypeError | RangeError.

Inductive outcome (A : Type) : Type :=
| Return (a : A)
| Throw (e : js_error).
Arguments Return {A} a.
Arguments Throw {A} e.

Definition bind {A B} (c : outcome A) (k : A → outcome B) : outcome B :=
  match c with
  | Return a => k a
  | Throw e => Throw e
  end.

Notation "'let*' x := c 'in' k" := (bind c (λ x, k))
  (at level 10, x pattern, c at level 100, k at level 200, only parsing).

(** [for (const x of xs) body], threading the state the body mutates. *)
Fixpoint forEachM {A S} (body : A → S → outcome S) (xs : list A) (st : S)
  : outcome S :=
  match xs with
  | [] => Return st
  | x :: rest => let* st' := body x st in forEachM body rest st'
  end.

(** [xs.some(p)]: stops at the first element for which [p] holds. *)
Fixpoint someM {A} (p : A → outcome bool) (xs : list A) : outcome bool :=
  match xs with
  | [] => Return false
  | x :: rest => let* b := p x in if b then Return true else someM p rest
  end.

(** [xs.map(f)] for an [f] that may throw. *)
Fixpoint mapM {A B} (f : A → outcome B) (xs : list A) : outcome (list B) :=
  match xs with
  | [] => Return []
  | x :: rest => let* y := f x in let* ys := mapM f rest in Return (y :: ys)
  end.

(** *** Strings *)

Fixpoint str_strip_prefix (pat s : string) : option string :=
  match pat with
  | "" => Some s
  | String p pat' =>
      match s with
      | String c s' => if Ascii.eqb p c then str_strip_prefix pat' s' else None
      | "" => None
      end
  end.

(** [s.startsWith(pat)] *)
Definition startsWith (pat s : string) : bool :=
  match str_strip_prefix pat s with Some _ => true | None => false end.

(** [s.replace(pat, rep)] for a string pattern: the first occurrence only. *)
Fixpoint str_replace (pat rep s : string) : string :=
  match str_strip_prefix pat s with
  | Some rest => rep +:+ rest
  | None =>
      match s with
      | "" => ""
      | String c s' => String c (str_replace pat rep s')
      end
  end.

(** [s.split(sep)] for a one-character separator. *)
Fixpoint str_split (sep : ascii) (s : string) : list string :=
  match s with
  | "" => [""]
  | String c s' =>
      if Ascii.eqb c sep then "" :: str_split sep s'
      else match str_split sep s' with
           | h :: t => String c h :: t
           | [] => [String c ""]
           end
  end.

(** [parts.join('')] *)
Definition str_concat (parts : list string) : string :=
  foldr String.append "" parts.

Definition is_upper (c : ascii) : bool :=
  let n := nat_of_ascii c in (65 <=? n)%nat && (n <=? 90)%nat.
Definition is_lower (c : ascii) : bool :=
  let n := nat_of_ascii c in (97 <=? n)%nat && (n <=? 122)%nat.
Definition is_digit (c : ascii) : bool :=
  let n := nat_of_ascii c in (48 <=? n)%nat && (n <=? 57)%nat.
Definition upper_char (c : ascii) : ascii :=
  if is_lower c then ascii_of_nat (nat_of_ascii c - 32) else c.
Definition lower_char (c : ascii) : ascii :=
  if is_upper c then ascii_of_nat (nat_of_ascii c + 32) else c.

Fixpoint str_map (f : ascii → ascii) (s : string) : string :=
  match s with
  | "" => ""
  | String c s' => String (f c) (str_map f s')
  end.

(** [s.toLowerCase()] on the ASCII letters; it is the method itself on
    strings written in ASCII. *)
Definition toLowerCase : string → string := str_map lower_char.

(** The one-character strings of [s], as [for ... of] and indexing see it. *)
Fixpoint str_chars (s : string) : list string :=
  match s with
  | "" => []
  | String c s' => String c "" :: str_chars s'
  end.

(** *** Property keys *)

Fixpoint parse_digits (acc : N) (s : string) : option N :=
  match s with
  | "" => Some acc
  | String c s' =>
      if is_digit c
      then parse_digits (acc * 10 + (N.of_nat (nat_of_ascii c) - 48)) s'
      else None
  end.

(** A key is an array index when it is the canonical decimal form of an
    integer below 2^32 - 1; such keys enumerate first, in numeric order. *)
Definition array_index (k : string) : option N :=
  match k with
  | "" => None
  | _ =>
      match parse_digits 0 k with
      | Some n =>
          if String.eqb (pretty n) k && (n <? 4294967295)%N then Some n
          else None
      | None => None
      end
  end.

(** *** Own properties, in enumeration order *)
Section Properties.
Context {A : Type}.

Fixpoint obj_get (k : string) (kv : list (string * A)) : option A :=
  match kv with
  | [] => None
  | (k', v) :: rest => if String.eqb k' k then Some v else obj_get k rest
  end.

Definition obj_has (k : string) (kv : list (string * A)) : bool :=
  match obj_get k kv with Some _ => true | None => false end.

Fixpoint obj_replace (k : string) (v : A) (kv : list (string * A))
  : list (string * A) :=
  match kv with
  | [] => []
  | (k', v') :: rest =>
      if String.eqb k' k then (k', v) :: rest
      else (k', v') :: obj_replace k v rest
  end.

Fixpoint obj_insert_index (n : N) (k : string) (v : A)
    (kv : list (string * A)) : list (string * A) :=
  match kv with
  | [] => [(k, v)]
  | (k', v') :: rest =>
      match array_index k' with
      | Some m =>
          if (m <? n)%N then (k', v') :: obj_insert_index n k v rest
          else (k, v) :: kv
      | None => (k, v) :: kv
      end
  end.

(** [o[k] = v]: an existing property keeps its place; a new array-index
    key goes among the index keys, any other new key goes last. *)
Definition obj_set (k : string) (v : A) (kv : list (string * A))
  : list (string * A) :=
  if obj_has k kv then obj_replace k v kv
  else match array_index k with
       | Some n => obj_insert_index n k v kv
       | None => kv ++ [(k, v)]
       end.

(** [delete o[k]] *)
Definition obj_delete (k : string) (kv : list (string * A))
  : list (string * A) :=
  List.filter (λ p, negb (String.eqb (fst p) k)) kv.

(** [Object.keys(o)] *)
Definition obj_keys (kv : list (string * A)) : list string := map fst kv.
End Properties.

(** [xs.entries()] of an array-like: index keys paired with the elements. *)
Fixpoint indexed {A} (i : N) (xs : list A) : list (string * A) :=
  match xs with
  | [] => []
  | x :: rest => (pretty i, x) :: indexed (N.succ i) rest
  end.

(** Truthiness, as [if (v)], [!v], [a || b] and [filter(Boolean)] test it. *)
Definition truthy (v : value) : bool :=
  match v with
  | JUndef | JNull => false
  | JBool b => b
  | JNum n => negb (n =? 0)%Z
  | JStr s => negb (String.eqb s "")
  | JArr _ | JObj _ => true
  end.

(** [a || b] *)
Definition js_or (a b : value) : value := if truthy a then a else b.

(** [typeof v] *)
Definition js_typeof (v : value) : string :=
  match v with
  | JUndef => "undefined"
  | JNull => "object"
  | JBool _ => "boolean"
  | JNum _ => "number"
  | JStr _ => "string"
  | JArr _ | JObj _ => "object"
  end.

(** [v === 's'] for a string literal. *)
Definition is_str (s : string) (v : value) : bool :=
  match v with JStr t => String.eqb t s | _ => false end.

(** [`${v}`]: string conversion as template literals and property keys
    perform it.  An object prints as [[object Object]]; this is what the
    engine gives unless the object has an entry [toString] of its own,
    which, not being callable, makes the conversion a [TypeError].  The
    statements that depend on a conversion keep to values that have one
    ([typeNames], [isString], [identifierShape]). *)
Fixpoint js_to_string (v : value) : string :=
  match v with
  | JUndef => "undefined"
  | JNull => "null"
  | JBool true => "true"
  | JBool false => "false"
  | JNum n => pretty n
  | JStr s => s
  | JArr l =>
      let elem x :=
        match x with JUndef | JNull => "" | _ => js_to_string x end in
      (fix join (xs : list value) : string :=
         match xs with
         | [] => ""
         | [x] => elem x
         | x :: rest => elem x +:+ "," +:+ join rest
         end) l
  | JObj _ => "[object Object]"
  end.

(** [Object.entries(v)] for a value that is not null or undefined. *)
Definition js_entries (v : value) : list (string * value) :=
  match v with
  | JObj kv => kv
  | JArr l => indexed 0 l
  | JStr s => indexed 0 (JStr <$> str_chars s)
  | _ => []
  end.

(** [Object.keys(v)] and [Object.values(v)] *)
Definition js_keys (v : value) : list string := (js_entries v).*1.
Definition js_values (v : value) : list value := (js_entries v).*2.

(** [v[k]] for a value that is not null or undefined: own properties of
    objects, elements and [length] of arrays and strings; anything absent
    reads as [undefined].  Members inherited from the prototypes are not
    read: [js_get] is [v[k]] whenever [v] has [k] as its own or [k] names
    no inherited member. *)
Definition js_get (v : value) (k : string) : value :=
  match v with
  | JObj kv => default JUndef (obj_get k kv)
  | JArr l =>
      if String.eqb k "length" then JNum (Z.of_nat (length l))
      else match array_index k with
           | Some i => default JUndef (l !! N.to_nat i)
           | None => JUndef
           end
  | JStr s =>
      if String.eqb k "length" then JNum (Z.of_nat (String.length s))
      else match array_index k with
           | Some i => default JUndef ((JStr <$> str_chars s) !! N.to_nat i)
           | None => JUndef
           end
  | _ => JUndef
  end.

(** [v.k] where [v] may be null or undefined: that access throws. *)
Definition js_field (v : value) (k : string) : outcome value :=
  match v with
  | JUndef | JNull => Throw TypeError
  | _ => Return (js_get v k)
  end.

(** [v?.k] *)
Definition js_opt (v : value) (k : string) : value :=
  match v with
  | JUndef | JNull => JUndef
  | _ => js_get v k
  end.

(** [k in v] for an object or an array, by own properties (see
    [js_get]). *)
Definition js_has (v : value) (k : string) : bool :=
  match v with
  | JObj kv => obj_has k kv
  | JArr l =>
      String.eqb k "length"
      || match array_index k with
         | Some i => (N.to_nat i <? length l)%nat
         | None => false
         end
  | _ => false
  end.

(** [k in v] in general: a primitive on the right is a [TypeError]. *)
Definition js_in (k : string) (v : value) : outcome bool :=
  match v with
  | JObj _ | JArr _ => Return (js_has v k)
  | _ => Throw TypeError
  end.

(** [for (const x of v)]: arrays and strings are iterable, the other
    values a JSON document holds are not. *)
Definition js_iter (v : value) : outcome (list value) :=
  match v with
  | JArr l => Return l
  | JStr s => Return (JStr <$> str_chars s)
  | _ => Throw TypeError
  end.

(** [o.k = v] on a plain object; named properties of other values are not
    part of the JSON state and are left alone. *)
Definition js_set (o : value) (k : string) (v : value) : value :=
  match o with
  | JObj kv => JObj (obj_set k v kv)
  | _ => o
  end.

(** [delete o[k]] on a plain object. *)
Definition js_delete (o : value) (k : string) : value :=
  match o with
  | JObj kv => JObj (obj_delete k kv)
  | _ => o
  end.

(** [o.k = v] as a statement of a module (strict mode): assigning to a
    property of a primitive throws. *)
Definition js_assign (o : value) (k : string) (v : value) : outcome value :=
  match o with
  | JObj _ | JArr _ => Return (js_set o k v)
  | _ => Throw TypeError
  end.

(** [{...v}]: a fresh object receiving the own properties of [v] in
    their enumeration order. *)
Definition js_spread (v : value) : list (string * value) :=
  foldl (λ acc '(k, x), obj_set k x acc) [] (js_entries v).

(** [a ?? b] *)
Definition js_nullish (a b : value) : value :=
  match a with JUndef | JNull => b | _ => a end.

(** [xs.includes(v)] for a list of string literals. *)
Definition str_includes (xs : list string) (v : value) : bool :=
  existsb (λ s, is_str s v) xs.

End JS.
Export JS.

(** ** tools/health-check.ts: fixtures against the schemas of the spec *)
Module HealthCheck.

(** [resolveRef]: the loop over the pointer's parts. *)
Fixpoint resolveRef_walk (parts : list string) (current : value) : value :=
  match parts with
  | [] => current
  | part :: rest =>
      if truthy current && String.eqb (js_typeof current) "object"
         && js_has current part
      then resolveRef_walk rest (js_get current part)
      else JNull
  end.

(** [resolveRef(ref, spec)]; [null] is the absence signal.  [ref] is
    whatever the schema holds under [$ref]: calling [replace] on anything
    but a string is a [TypeError]. *)
Definition resolveRef (ref spec : value) : outcome value :=
  match ref with
  | JStr r => Return (resolveRef_walk (str_split "/"%char (str_replace "#/" "" r)) spec)
  | _ => Throw TypeError
  end.

Definition getTypeOf (v : value) : string :=
  match v with
  | JNull => "null"
  | JArr _ => "array"
  | _ => js_typeof v
  end.

(** The two collectors the validator pushes to. *)
Definition collectors : Type := list string * list string.

(** [expectedTypes.map(t => t === 'integer' || t === 'int' ? 'number' : t)] *)
Definition normalizeExpected (expectedTypes : list value) : list value :=
  (λ t, if is_str "integer" t || is_str "int" t then JStr "number" else t)
    <$> expectedTypes.

(** [normalizedExpected.includes(actualType)] *)
Definition includes (xs : list value) (s : string) : bool :=
  existsb (is_str s) xs.

Definition validator : Type :=
  value → value → value → string → list string → list string
  → outcome collectors.

(** The body of [validateValueAgainstSchema]; [recurse] stands for the
    function itself at its recursive calls.  The two collectors are
    threaded through and returned. *)
Definition validateBody (recurse : validator)
    (value schema spec : value) (path : string) (errors warnings : list string)
  : outcome collectors :=
    let* ref := js_field schema "$ref" in
    (* Handle $ref *)
    if truthy ref then
      let* resolved := resolveRef ref spec in
      if truthy resolved
      then recurse value resolved spec path errors warnings
      else Return (errors, warnings)
    (* Handle oneOf/anyOf/allOf *)
    else if truthy (js_get schema "oneOf") || truthy (js_get schema "anyOf") then
      match js_or (js_get schema "oneOf") (js_or (js_get schema "anyOf") (JArr [])) with
      | JArr schemas =>
          let* matches :=
            someM (λ s,
              let* temp := recurse value s spec path [] [] in
              Return (Nat.eqb (length temp.1) 0)) schemas in
          if negb matches && (0 <? length schemas)%nat
          then Return (errors,
                 warnings ++ [path +:+ ": value doesn't match any of the expected schemas"])
          else Return (errors, warnings)
      | _ => Throw TypeError
      end
    else if truthy (js_get schema "allOf") then
      let* subs := js_iter (js_get schema "allOf") in
      forEachM (λ s (c : collectors), recurse value s spec path c.1 c.2)
        subs (errors, warnings)
    else
      let actualType := getTypeOf value in
      let ty := js_get schema "type" in
      let mismatch :=
        truthy ty &&
        negb (includes
                (normalizeExpected (match ty with JArr l => l | _ => [ty] end))
                actualType) in
      (* Type checking *)
      if mismatch then
        (* Allow null for optional fields *)
        if negb (String.eqb actualType "null")
        then Return (errors ++ [path +:+ ": expected " +:+ js_to_string ty
                                  +:+ ", got " +:+ actualType], warnings)
        else Return (errors, warnings)
      else
        (* Array items *)
        let* c1 :=
          match value with
          | JArr elems =>
              if is_str "array" ty && truthy (js_get schema "items")
              then forEachM (λ '(index, item) (c : collectors),
                     recurse item (js_get schema "items") spec
                       (path +:+ "[" +:+ index +:+ "]") c.1 c.2)
                     (indexed 0 elems) (errors, warnings)
              else Return (errors, warnings)
          | _ => Return (errors, warnings)
          end in
        (* Object properties *)
        if is_str "object" ty && String.eqb (js_typeof value) "object"
           && negb (match value with JNull => true | _ => false end)
           && truthy (js_get schema "properties")
        then
          let properties := js_get schema "properties" in
          (* Check required fields *)
          let* c2 :=
            if truthy (js_get schema "required") then
              let* reqs := js_iter (js_get schema "required") in
              forEachM (λ req (c : collectors),
                if negb (js_has value (js_to_string req))
                then Return (c.1 ++ [path +:+ ": missing required field '"
                                       +:+ js_to_string req +:+ "'"], c.2)
                else Return c) reqs c1
            else Return c1 in
          (* Validate each property *)
          let* c3 :=
            forEachM (λ '(key, propSchema) (c : collectors),
              if js_has value key
              then recurse (js_get value key) propSchema spec
                     (path +:+ "." +:+ key) c.1 c.2
              else Return c) (js_entries properties) c2 in
          (* Check for unknown fields (warning only) *)
          if negb (truthy (js_get schema "additionalProperties")) then
            forEachM (λ key (c : collectors),
              let* declared := js_in key properties in
              if negb declared
              then Return (c.1, c.2 ++ [path +:+ "." +:+ key
                     +:+ ": field not defined in schema (may be undocumented)"])
              else Return c) (js_keys value) c3
          else Return c3
        else Return c1.

(** [validateValueAgainstSchema].  [stack] is the number of nested
    activations the engine still has room for: every call takes one, and a
    call with none left is the engine's [RangeError]. *)
Fixpoint validateValueAgainstSchema (stack : nat) : validator :=
  match stack with
  | O => λ _ _ _ _ _ _, Throw RangeError
  | S stack' => validateBody (validateValueAgainstSchema stack')
  end.

End HealthCheck.

(** ** tools/patch.ts: corrections applied to each operation *)
Module Patch.

(** Headers that should be removed (handled by SDK internally) *)
Definition INTERNAL_HEADERS : list string :=
  ["QB-Realm-Hostname"; "Authorization"; "User-Agent"; "Content-Type"].

(** Operations that require a request body *)
Definition REQUIRED_BODY_OPERATIONS : list string :=
  ["upsert"; "deleteRecords"; "runQuery"; "runFormula"; "createApp";
   "deleteApp"; "copyApp"; "createTable"; "createField"; "deleteFields";
   "createRelationship"; "audit"; "exchangeSsoToken"; "cloneUserToken";
   "transferUserToken"; "denyUsers"; "denyUsersAndGroups"; "undenyUsers";
   "addMembersToGroup"; "removeMembersFromGroup"; "addManagersToGroup";
   "removeManagersFromGroup"; "addSubgroupsToGroup";
   "removeSubgroupsFromGroup"; "createSolution"; "changesetSolution"].

(** [operation.parameters.filter(...)]: the predicate reads [p.in] and
    [p.name], so a null element throws. *)
Fixpoint filterParameters (ps : list value) : outcome (list value) :=
  match ps with
  | [] => Return []
  | p :: rest =>
      let* loc := js_field p "in" in
      let keep :=
        negb (is_str "header" loc)
        || negb (str_includes INTERNAL_HEADERS (js_get p "name")) in
      let* rest' := filterParameters rest in
      Return (if keep then p :: rest' else rest')
  end.

Definition removeInternalHeaders (operation : value) : outcome value :=
  if truthy (js_get operation "parameters") then
    match js_get operation "parameters" with
    | JArr ps =>
        let* ps' := filterParameters ps in
        js_assign operation "parameters" (JArr ps')
    | _ => Throw TypeError
    end
  else Return operation.

(** The first loop of [normalizeResponseCodes]: which keys to rename. *)
Definition renameTarget (code : string) : option (string * string) :=
  if String.eqb code "401/403" then Some (code, "401")
  else if String.eqb code "4xx/5xx" || String.eqb code "4xx"
          || String.eqb code "5xx"
  then Some (code, "default")
  else None.

Definition keysToRename (responses : value) : list (string * string) :=
  omap renameTarget (js_keys responses).

(** The body of the second loop: one rename. *)
Definition renameKey (responses : value) (r : string * string) : value :=
  let '(old, newKey) := r in
  let responses1 :=
    if negb (truthy (js_get responses newKey))
    then js_set responses newKey (js_get responses old)
    else responses in
  js_delete responses1 old.

(** [normalizeResponseCodes(operation)].  The responses object is mutated
    in place, so the operation comes back holding the renamed object under
    the same key. *)
Definition normalizeResponseCodes (operation : value) : value :=
  let responses := js_get operation "responses" in
  if negb (truthy responses) then operation
  else js_set operation "responses"
         (foldl renameKey responses (keysToRename responses)).

(** [path.split('/').filter(Boolean)] *)
Definition pathParts (path : string) : list string :=
  filter (λ p, p ≠ "") (str_split "/"%char path).

(** The name [patchOperation] derives from the path. *)
Definition baseName (path : string) : string :=
  str_concat
    (filter (λ p, p ≠ "")
       ((λ p, if startsWith "{" p then "" else p) <$> pathParts path)).

Definition methodPrefix (method : string) : string :=
  if String.eqb method "get" then "get"
  else if String.eqb method "post" then "create"
  else method.

(** [s.charAt(0).toUpperCase() + s.slice(1)], upper-casing the ASCII
    letters; it is the expression itself when the first character is in
    ASCII. *)
Definition capitalize (s : string) : string :=
  match s with
  | "" => ""
  | String c rest => String (upper_char c) rest
  end.

Definition generatedOperationId (path method : string) : string :=
  methodPrefix method +:+ capitalize (baseName path).

(** [patchOperation(operation, path, method)] *)
Definition patchOperation (operation : value) (path method : string)
  : outcome value :=
  let* op1 := removeInternalHeaders operation in
  let op2 := normalizeResponseCodes op1 in
  (* Ensure operationId is set *)
  let* op3 :=
    if negb (truthy (js_get op2 "operationId"))
    then js_assign op2 "operationId" (JStr (generatedOperationId path method))
    else Return op2 in
  (* Fix incorrectly optional request bodies *)
  if truthy (js_get op3 "requestBody")
     && str_includes REQUIRED_BODY_OPERATIONS (js_get op3 "operationId")
  then
    let* body := js_assign (js_get op3 "requestBody") "required" (JBool true) in
    Return (js_set op3 "requestBody" body)
  else Return op3.

(** The five methods every pass looks under. *)
Definition METHODS : list string := ["get"; "post"; "put"; "delete"; "patch"].

(** The loop of [patch] that applies [patchOperation] to every operation
    of one path item; each operation is patched in place. *)
Definition patchPathItem (path : string) (pathItem : value) : outcome value :=
  forEachM (λ method item,
    let* operation := js_field item method in
    if truthy operation then
      let* operation' := patchOperation operation path method in
      Return (js_set item method operation')
    else Return item) METHODS pathItem.

(** ... and to every path of the document. *)
Definition patchOperations (spec : value) : outcome value :=
  let* paths := js_field spec "paths" in
  match paths with
  | JUndef | JNull => Throw TypeError
  | _ =>
      let* entries :=
        mapM (λ '(path, pathItem),
          let* pathItem' := patchPathItem path pathItem in
          Return (path, pathItem')) (js_entries paths) in
      Return (match paths with
              | JObj _ => js_set spec "paths" (JObj entries)
              | JArr _ => js_set spec "paths" (JArr entries.*2)
              | _ => spec
              end)
  end.

End Patch.

(** ** tools/validate.ts: structural checks on the patched spec *)
Module Validate.

Record Stats : Type := mkStats {
  stat_paths : nat;
  stat_operations : nat;
  stat_schemas : nat;
  stat_parameters : nat;
}.

Record ValidationResult : Type := mkResult {
  valid : bool;
  errors : list string;
  warnings : list string;
  stats : Stats;
}.

(** [refs.add(r)] on a [Set<string>], kept in insertion order. *)
Definition refs_add (r : string) (refs : list string) : list string :=
  if existsb (String.eqb r) refs then refs else refs ++ [r].

(** [collectRefs(obj)] with the set it fills passed along. *)
Fixpoint collectRefs (obj : value) (refs : list string) : list string :=
  match obj with
  | JObj kv =>
      let refs1 :=
        match obj_get "$ref" kv with
        | Some (JStr r) => refs_add r refs
        | _ => refs
        end in
      (fix each (kv : list (string * value)) (refs : list string) :=
         match kv with
         | [] => refs
         | (_, v) :: rest => each rest (collectRefs v refs)
         end) kv refs1
  | JArr l =>
      (fix each (l : list value) (refs : list string) :=
         match l with
         | [] => refs
         | v :: rest => each rest (collectRefs v refs)
         end) l refs
  | _ => refs
  end.

Definition unresolved (ref : string) : string := "Unresolved $ref: " +:+ ref.

(** The body of the loop over the collected pointers. *)
Definition checkRef (schemas parameters : value) (result : ValidationResult)
    (ref : string) : ValidationResult :=
  if startsWith "#/components/schemas/" ref then
    let schemaName := str_replace "#/components/schemas/" "" ref in
    if negb (truthy (js_get schemas schemaName))
    then mkResult false (errors result ++ [unresolved ref])
           (warnings result) (stats result)
    else result
  else if startsWith "#/components/parameters/" ref then
    let paramName := str_replace "#/components/parameters/" "" ref in
    if negb (truthy (js_get parameters paramName))
    then mkResult false (errors result ++ [unresolved ref])
           (warnings result) (stats result)
    else result
  else if negb (startsWith "#/" ref) then
    mkResult (valid result) (errors result)
      (warnings result ++ ["External $ref (not validated): " +:+ ref])
      (stats result)
  else result.

(** [validateRefs(spec, result)]; the result object is updated in place. *)
Definition validateRefs (spec : value) (result : ValidationResult)
  : outcome ValidationResult :=
  let* components := js_field spec "components" in
  let schemas := js_or (js_opt components "schemas") (JObj []) in
  let parameters := js_or (js_opt components "parameters") (JObj []) in
  let result1 :=
    mkResult (valid result) (errors result) (warnings result)
      (mkStats (stat_paths (stats result)) (stat_operations (stats result))
         (length (js_keys schemas)) (length (js_keys parameters))) in
  let refs := collectRefs components (collectRefs (js_get spec "paths") []) in
  Return (foldl (checkRef schemas parameters) result1 refs).

End Validate.

(** ** tools/convert.ts: Swagger 2.0 to OpenAPI 3.0 *)
Module Convert.

(** The body of [convertSchemaRef]; [recurse] stands for the function
    itself at its recursive calls. *)
Definition convertSchemaRefBody (recurse : value → outcome value)
    (schema : value) : outcome value :=
    let* ref := js_field schema "$ref" in
    match ref with
    | JStr (String _ _ as r) =>
        (* Convert #/definitions/Foo to #/components/schemas/Foo *)
        Return (JObj [("$ref",
          JStr (str_replace "#/definitions/" "#/components/schemas/" r))])
    | _ =>
      (* Handle array items *)
      if is_str "array" (js_get schema "type") && truthy (js_get schema "items")
      then
        let* items := recurse (js_get schema "items") in
        Return (JObj (obj_set "items" items (js_spread schema)))
      (* Handle object properties *)
      else if truthy (js_get schema "properties") then
        let* properties :=
          forEachM (λ '(key, v) props,
            let* v' := recurse v in
            Return (obj_set key v' props))
            (js_entries (js_get schema "properties")) [] in
        Return (JObj (obj_set "properties" (JObj properties) (js_spread schema)))
      else
        (* Handle allOf, oneOf, anyOf *)
        (fix keys (ks : list string) : outcome value :=
           match ks with
           | [] => Return schema
           | key :: rest =>
               match js_get schema key with
               | JArr subs =>
                   let* subs' := mapM recurse subs in
                   Return (JObj (obj_set key (JArr subs') (js_spread schema)))
               | _ => keys rest
               end
           end) ["allOf"; "oneOf"; "anyOf"]
    end.

(** [convertSchemaRef(schema)].  As in the validator, [stack] bounds the
    depth of nested activations. *)
Fixpoint convertSchemaRef (stack : nat) (schema : value) : outcome value :=
  match stack with
  | O => Throw RangeError
  | S stack' => convertSchemaRefBody (convertSchemaRef stack') schema
  end.

(** [convertParameter(param)] *)
Definition convertParameter (stack : nat) (param : value) : outcome value :=
  let* loc := js_field param "in" in
  (* Body parameters become requestBody in OpenAPI 3.0 *)
  if is_str "body" loc then Return param
  else
    let converted : list (string * value) :=
      [("name", js_get param "name");
       ("in", loc);
       ("description", js_get param "description");
       ("required", js_nullish (js_get param "required") (JBool false))] in
    (* Convert type to schema *)
    let converted1 :=
      if truthy (js_get param "type") then
        let schema0 := [("type", js_get param "type")] in
        let schema1 :=
          if truthy (js_get param "format")
          then obj_set "format" (js_get param "format") schema0 else schema0 in
        let schema2 :=
          if truthy (js_get param "enum")
          then obj_set "enum" (js_get param "enum") schema1 else schema1 in
        let schema3 :=
          match js_get param "default" with
          | JUndef => schema2
          | d => obj_set "default" d schema2
          end in
        obj_set "schema" (JObj schema3) converted
      else converted in
    (* Handle schema reference *)
    if truthy (js_get param "schema") then
      let* schema := convertSchemaRef stack (js_get param "schema") in
      Return (JObj (obj_set "schema" schema converted1))
    else Return (JObj converted1).

(** [parameters.filter((p) => p.in !== 'body')] *)
Fixpoint nonBodyParams (ps : list value) : outcome (list value) :=
  match ps with
  | [] => Return []
  | p :: rest =>
      let* loc := js_field p "in" in
      let* rest' := nonBodyParams rest in
      Return (if is_str "body" loc then rest' else p :: rest')
  end.

(** [parameters.find((p) => p.in === 'body')] *)
Fixpoint bodyParam (ps : list value) : outcome value :=
  match ps with
  | [] => Return JUndef
  | p :: rest =>
      let* loc := js_field p "in" in
      if is_str "body" loc then Return p else bodyParam rest
  end.

(** [convertOperation(operation, path, method)] *)
Definition convertOperation (stack : nat) (operation : value)
    (path method : string) : outcome value :=
  let converted : list (string * value) :=
    [("operationId", js_get operation "operationId");
     ("summary", js_get operation "summary");
     ("description", js_get operation "description");
     ("tags", js_get operation "tags")] in
  (* Convert parameters *)
  let* converted1 :=
    if truthy (js_get operation "parameters") then
      match js_get operation "parameters" with
      | JArr parameters =>
          let* nonBody := nonBodyParams parameters in
          let* body := bodyParam parameters in
          let* c1 :=
            if (0 <? length nonBody)%nat then
              let* ps := mapM (convertParameter stack) nonBody in
              Return (obj_set "parameters" (JArr ps) converted)
            else Return converted in
          (* Convert body parameter to requestBody *)
          if truthy body then
            let* schema := convertSchemaRef stack (js_get body "schema") in
            Return (obj_set "requestBody"
              (JObj [("description", js_get body "description");
                     ("required", js_nullish (js_get body "required") (JBool false));
                     ("content",
                       JObj [("application/json", JObj [("schema", schema)])])])
              c1)
          else Return c1
      | _ => Throw TypeError
      end
    else Return converted in
  (* Convert responses *)
  if truthy (js_get operation "responses") then
    let* responses :=
      forEachM (λ '(statusCode, response) acc,
        let* description := js_field response "description" in
        let convertedResponse :=
          [("description", js_or description (JStr "Response"))] in
        let* convertedResponse1 :=
          if truthy (js_get response "schema") then
            let* schema := convertSchemaRef stack (js_get response "schema") in
            Return (obj_set "content"
              (JObj [("application/json", JObj [("schema", schema)])])
              convertedResponse)
          else Return convertedResponse in
        Return (obj_set statusCode (JObj convertedResponse1) acc))
        (js_entries (js_get operation "responses")) [] in
    Return (JObj (obj_set "responses" (JObj responses) converted1))
  else Return (JObj converted1).

(** The loop over the five methods of one path item. *)
Definition convertPathItem (stack : nat) (path : string) (pathItem : value)
  : outcome (list (string * value)) :=
  forEachM (λ method convertedPath,
    let* operation := js_field pathItem method in
    if truthy operation then
      let* op' := convertOperation stack operation path method in
      Return (obj_set method op' convertedPath)
    else Return convertedPath) Patch.METHODS [].

Definition securitySchemes : value :=
  JObj [("userToken",
          JObj [("type", JStr "apiKey"); ("name", JStr "Authorization");
                ("in", JStr "header");
                ("description", JStr "User token: QB-USER-TOKEN {token}")]);
        ("tempToken",
          JObj [("type", JStr "apiKey"); ("name", JStr "Authorization");
                ("in", JStr "header");
                ("description", JStr "Temporary token: QB-TEMP-TOKEN {token}")])].

(** [convertSwaggerToOpenAPI(swagger)] *)
Definition convertSwaggerToOpenAPI (stack : nat) (swagger : value)
  : outcome value :=
  let* schemes := js_field swagger "schemes" in
  let scheme := js_or (js_opt schemes "0") (JStr "https") in
  let baseUrl :=
    js_to_string scheme +:+ "://" +:+ js_to_string (js_get swagger "host")
      +:+ js_to_string (js_get swagger "basePath") in
  let* title := js_field (js_get swagger "info") "title" in
  let info :=
    JObj [("title", title);
          ("version", js_get (js_get swagger "info") "version");
          ("description", JStr "QuickBase JSON RESTful API")] in
  let servers :=
    JArr [JObj [("url", JStr (str_replace ":/" "://" (str_replace "//" "/" baseUrl)));
                ("description", JStr "QuickBase API")]] in
  (* Convert paths *)
  let* paths :=
    match js_get swagger "paths" with
    | JUndef | JNull => Throw TypeError
    | swaggerPaths =>
        forEachM (λ '(path, pathItem) acc,
          let* convertedPath := convertPathItem stack path pathItem in
          Return (obj_set path (JObj convertedPath) acc))
          (js_entries swaggerPaths) []
    end in
  (* Convert definitions to components/schemas *)
  let* schemas :=
    if truthy (js_get swagger "definitions") then
      forEachM (λ '(name, schema) acc,
        let* schema' := convertSchemaRef stack schema in
        Return (obj_set name schema' acc))
        (js_entries (js_get swagger "definitions")) []
    else Return [] in
  Return (JObj [("openapi", JStr "3.0.3");
                ("info", info);
                ("servers", servers);
                ("paths", JObj paths);
                ("components",
                  JObj [("schemas", JObj schemas);
                        ("securitySchemes", securitySchemes)]);
                ("security", JArr [JObj [("userToken", JArr [])]])]).

End Convert.

(** ** tools/generate.ts: fixtures from the examples embedded in the spec *)
Module Generate.

(** [str.replace(/([a-z])([A-Z])/g, '$1-$2')] *)
Fixpoint kebabLowerUpper (s : string) : string :=
  match s with
  | "" => ""
  | String a s' =>
      match s' with
      | String b rest =>
          if is_lower a && is_upper b
          then String a (String "-" (String b (kebabLowerUpper rest)))
          else String a (kebabLowerUpper s')
      | "" => String a ""
      end
  end.

(** [str.replace(/([A-Z])([A-Z][a-z])/g, '$1-$2')] *)
Fixpoint kebabUpperRun (s : string) : string :=
  match s with
  | "" => ""
  | String a s' =>
      match s' with
      | String b (String c rest) =>
          if is_upper a && is_upper b && is_lower c
          then String a (String "-" (String b (String c (kebabUpperRun rest))))
          else String a (kebabUpperRun s')
      | _ => String a (kebabUpperRun s')
      end
  end.

(** [toKebabCase(str)]; anything but a string has no [replace]. *)
Definition toKebabCase (str : value) : outcome string :=
  match str with
  | JStr s => Return (toLowerCase (kebabUpperRun (kebabLowerUpper s)))
  | _ => Throw TypeError
  end.

(** [extractExampleValue(example)] *)
Definition extractExampleValue (example : value) : value :=
  if truthy example && String.eqb (js_typeof example) "object"
     && js_has example "value"
  then js_get example "value"
  else example.

Definition is_space (c : ascii) : bool :=
  let n := nat_of_ascii c in
  ((9 <=? n)%nat && (n <=? 13)%nat) || (n =? 32)%nat.

Fixpoint skip_spaces (s : string) : string :=
  match s with
  | String c s' => if is_space c then skip_spaces s' else s
  | "" => ""
  end.

Fixpoint leading_digits (acc : option N) (s : string) : option N :=
  match s with
  | String c s' =>
      if is_digit c
      then leading_digits
             (Some (default 0%N acc * 10 + (N.of_nat (nat_of_ascii c) - 48))%N) s'
      else acc
  | "" => acc
  end.

(** [parseInt(s, 10)]; [None] is [NaN].  The result is the exact integer
    the digits spell, which is the number the engine gives below 2^53. *)
Definition parseInt (s : string) : option Z :=
  match skip_spaces s with
  | String "-" rest => (λ n, (- Z.of_N n)%Z) <$> leading_digits None rest
  | String "+" rest => Z.of_N <$> leading_digits None rest
  | rest => Z.of_N <$> leading_digits None rest
  end.

Definition is_alnum_lower (c : ascii) : bool := is_lower c || is_digit c.

(** [s.replace(/[^a-z0-9]+/g, '-')] *)
Fixpoint dashRuns (inRun : bool) (s : string) : string :=
  match s with
  | "" => ""
  | String c s' =>
      if is_alnum_lower c then String c (dashRuns false s')
      else if inRun then dashRuns true s'
      else String "-" (dashRuns true s')
  end.

Fixpoint dropTrailingDash (s : string) : string :=
  match s with
  | "" => ""
  | String c s' =>
      match s' with
      | "" => if Ascii.eqb c "-" then "" else s
      | _ => String c (dropTrailingDash s')
      end
  end.

(** [s.replace(/^-|-$/g, '')] *)
Definition trimDashes (s : string) : string :=
  dropTrailingDash
    (match s with
     | String "-" s' => s'
     | _ => s
     end).

Definition safeName (name : string) : string :=
  trimDashes (dashRuns false (toLowerCase name)).

(** [join(a, b)] of two path pieces; normalisation of [..], [.] and
    doubled separators is left out, so this is [join] when [b] is a
    segment that is not empty, [.] or [..] and holds no separator. *)
Definition path_join (a b : string) : string := a +:+ "/" +:+ b.

(** A fixture to write: its path [join(baseDir, fileName)], kept as the
    directory and the file name, and its content. *)
Record FixtureFile : Type := mkFixture {
  fx_dir : string;
  fx_file : string;
  fx_content : value;
}.

Definition responseFixture (description : value) (status : Z) (body : value)
  : value :=
  JObj [("_meta",
          JObj [("description", description);
                ("status", JNum status);
                ("headers", JObj [("Content-Type", JStr "application/json")])]);
        ("body", body)].

(** The files on disk: directory, then file name, to content. *)
Abbreviation filesystem := (gmap string (gmap string value)).

Section WithPaths.
(** [PATHS.fixtures] of tools/common.ts *)
Variable fixturesRoot : string.

(** [getExistingFixtures(fixtureDir)] *)
Definition getExistingFixtures (fs : filesystem) (fixtureDir : string)
  : gset string :=
  match fs !! fixtureDir with
  | Some files => dom files
  | None => ∅
  end.

(** [mkdirSync(dir, { recursive: true })] when needed, then
    [writeJson(fixturePath, content)]. *)
Definition writeJson (fs : filesystem) (f : FixtureFile) : filesystem :=
  <[fx_dir f := <[fx_file f := fx_content f]> (default ∅ (fs !! fx_dir f))]> fs.

(** What [generateOperationFixtures] accumulates. *)
Definition pending : Type := list FixtureFile * nat.

(** The recurring step: push the fixture unless its file name exists. *)
Definition emit (existingFixtures : gset string) (baseDir fileName : string)
    (content : value) (acc : pending) : pending :=
  if bool_decide (fileName ∈ existingFixtures)
  then (acc.1, S acc.2)
  else (acc.1 ++ [mkFixture baseDir fileName content], acc.2).

(** The body of the loop over [Object.entries(operation.responses)]. *)
Definition responseFixtures (operationId : value)
    (existingFixtures : gset string) (baseDir : string)
    (entry : string * value) (acc : pending) : outcome pending :=
  let '(statusCode, response) := entry in
  (* Skip non-numeric status codes like "default" *)
  match parseInt statusCode with
  | None => Return acc
  | Some status =>
    let* content := js_field response "content" in
    let schema := js_opt (js_opt content "application/json") "schema" in
    if negb (truthy schema) then Return acc
    (* Check for x-amf-examples (named examples) *)
    else if truthy (js_get schema "x-amf-examples") then
      let exampleEntries := js_entries (js_get schema "x-amf-examples") in
      match exampleEntries with
      | [(name, example)] =>
          (* Single example: use response.{status}.json *)
          Return (emit existingFixtures baseDir
                    ("response." +:+ pretty status +:+ ".json")
                    (responseFixture (JStr name) status
                       (extractExampleValue example)) acc)
      | _ =>
          (* Multiple examples: use response.{status}.{name}.json *)
          Return (foldl (λ acc '(name, example),
                    emit existingFixtures baseDir
                      ("response." +:+ pretty status +:+ "."
                         +:+ safeName name +:+ ".json")
                      (responseFixture (JStr name) status
                         (extractExampleValue example)) acc)
                    acc exampleEntries)
      end
    else if truthy (js_get schema "example") then
      (* Single example property *)
      Return (emit existingFixtures baseDir
                ("response." +:+ pretty status +:+ ".json")
                (responseFixture
                   (js_or (js_get response "description")
                      (JStr (pretty status +:+ " response for "
                               +:+ js_to_string operationId)))
                   status (extractExampleValue (js_get schema "example"))) acc)
    else Return acc
  end.

(** [generateOperationFixtures(operation, tag, existingFixtures)] *)
Definition generateOperationFixtures (operation tag : value)
    (existingFixtures : gset string) : outcome pending :=
  let* operationDir := toKebabCase (js_get operation "operationId") in
  let* tagLower :=
    match tag with
    | JStr t => Return (toLowerCase t)
    | _ => Throw TypeError
    end in
  let baseDir := path_join (path_join fixturesRoot tagLower) operationDir in
  (* Generate request fixture from requestBody example *)
  let example :=
    js_opt (js_opt (js_opt (js_opt (js_get operation "requestBody")
      "content") "application/json") "schema") "example" in
  let acc1 : pending :=
    if truthy example then
      emit existingFixtures baseDir "request.json"
        (JObj [("_meta",
                 JObj [("description",
                        JStr ("Request body for "
                                +:+ js_to_string (js_get operation "operationId")))]);
               ("body", extractExampleValue example)])
        ([], 0)
    else ([], 0) in
  (* Generate response fixtures from x-amf-examples *)
  if truthy (js_get operation "responses") then
    forEachM (responseFixtures (js_get operation "operationId")
                existingFixtures baseDir)
      (js_entries (js_get operation "responses")) acc1
  else Return acc1.

Record GenerateResult : Type := mkGenerated {
  generated : nat;
  skipped : nat;
  operations : list value;
}.

(** The body of [generate]'s loop for one operation. *)
Definition generateOperation (operation : value)
    (st : filesystem * GenerateResult)
  : outcome (filesystem * GenerateResult) :=
  let '(fs, result) := st in
  let tag := js_or (js_opt (js_get operation "tags") "0") (JStr "misc") in
  let* operationDir := toKebabCase (js_get operation "operationId") in
  let* tagLower :=
    match tag with
    | JStr t => Return (toLowerCase t)
    | _ => Throw TypeError
    end in
  let fixtureDir := path_join (path_join fixturesRoot tagLower) operationDir in
  (* Get existing fixtures to avoid overwriting *)
  let existingFixtures := getExistingFixtures fs fixtureDir in
  (* Generate fixtures for this operation *)
  let* produced :=
    generateOperationFixtures operation tag existingFixtures in
  let '(fixtures, skipped1) := produced in
  Return (foldl writeJson fs fixtures,
          mkGenerated (generated result + length fixtures)
            (skipped result + skipped1)
            (if (0 <? length fixtures)%nat
             then operations result ++ [js_get operation "operationId"]
             else operations result)).

(** [generate]: every operation of every path, in order. *)
Definition generatePathItem (pathItem : value)
    (st : filesystem * GenerateResult)
  : outcome (filesystem * GenerateResult) :=
  forEachM (λ method st,
    let* operation := js_field pathItem method in
    if truthy operation then generateOperation operation st
    else Return st) Patch.METHODS st.

Definition generate (spec : value) (fs : filesystem)
  : outcome (filesystem * GenerateResult) :=
  let* paths := js_field spec "paths" in
  match paths with
  | JUndef | JNull => Throw TypeError
  | _ =>
      forEachM generatePathItem (js_values paths) (fs, mkGenerated 0 0 [])
  end.
End WithPaths.

End Generate.

(** ** [Map] and [Set] of the engine, keyed by JavaScript values *)
Module Collections.

(** SameValueZero, the equality of [Map] and [Set] keys.  Objects and
    arrays are keys by identity: every object of a parsed document is a
    distinct one, so two of them are never the same key. *)
Definition sameValueZero (a b : value) : bool :=
  match a, b with
  | JUndef, JUndef => true
  | JNull, JNull => true
  | JBool x, JBool y => Bool.eqb x y
  | JNum x, JNum y => (x =? y)%Z
  | JStr x, JStr y => String.eqb x y
  | _, _ => false
  end.

(** [set.has(v)] and [set.add(v)], the set kept in insertion order. *)
Definition set_has (s : list value) (v : value) : bool :=
  existsb (sameValueZero v) s.
Definition set_add (v : value) (s : list value) : list value :=
  if set_has s v then s else s ++ [v].

(** [map.set(k, x)]: a key that is there keeps its place. *)
Fixpoint map_set {A} (k : value) (x : A) (m : list (value * A))
  : list (value * A) :=
  match m with
  | [] => [(k, x)]
  | (k', x') :: rest =>
      if sameValueZero k' k then (k', x) :: rest
      else (k', x') :: map_set k x rest
  end.

End Collections.

(** ** tools/validate.ts: the structural checks and the pipeline *)
Module ValidateDocument.
Import Validate Collections.

(** [result.errors.push(msg); result.valid = false] *)
Definition pushError (msg : string) (result : ValidationResult)
  : ValidationResult :=
  mkResult false (errors result ++ [msg]) (warnings result) (stats result).

(** [result.warnings.push(msg)] *)
Definition pushWarning (msg : string) (result : ValidationResult)
  : ValidationResult :=
  mkResult (valid result) (errors result) (warnings result ++ [msg])
    (stats result).

(** [validateStructure(spec)] *)
Definition validateStructure (spec : value) : outcome ValidationResult :=
  let result := mkResult true [] [] (mkStats 0 0 0 0) in
  (* Check required fields *)
  let* openapi := js_field spec "openapi" in
  let* result1 :=
    if negb (truthy openapi)
    then Return (pushError "Missing required field: openapi" result)
    else match openapi with
         | JStr version =>
             if negb (startsWith "3." version)
             then Return (pushError ("Expected OpenAPI 3.x, got: " +:+ version)
                            result)
             else Return result
         | _ => Throw TypeError
         end in
  let result2 :=
    if negb (truthy (js_opt (js_get spec "info") "title"))
    then pushError "Missing required field: info.title" result1
    else result1 in
  let result3 :=
    if negb (truthy (js_opt (js_get spec "info") "version"))
    then pushError "Missing required field: info.version" result2
    else result2 in
  Return (if negb (truthy (js_get spec "paths"))
             || Nat.eqb (length (js_keys (js_get spec "paths"))) 0
          then pushError "No paths defined" result3
          else result3).

(** [s.toUpperCase()] on the ASCII letters. *)
Definition toUpperCase : string → string := str_map upper_char.

(** The body of the loop over the methods of one path item; the result
    and the set of identifiers seen so far are threaded through. *)
Definition checkOperation (path : string) (pathItem : value) (method : string)
    (st : ValidationResult * list value)
  : outcome (ValidationResult * list value) :=
  let* operation := js_field pathItem method in
  if negb (truthy operation) then Return st
  else
    let result1 :=
      mkResult (valid st.1) (errors st.1) (warnings st.1)
        (mkStats (stat_paths (stats st.1))
           (S (stat_operations (stats st.1)))
           (stat_schemas (stats st.1)) (stat_parameters (stats st.1))) in
    let operationId := js_get operation "operationId" in
    (* Check operationId *)
    let st2 :=
      if negb (truthy operationId)
      then (pushWarning ("Missing operationId: " +:+ toUpperCase method
                           +:+ " " +:+ path) result1, st.2)
      else
        (* Check for duplicate operationIds *)
        (if set_has st.2 operationId
         then pushError ("Duplicate operationId: " +:+ js_to_string operationId)
                result1
         else result1,
         set_add operationId st.2) in
    (* Check responses *)
    Return
      (if negb (truthy (js_get operation "responses"))
          || Nat.eqb (length (js_keys (js_get operation "responses"))) 0
       then pushWarning ("No responses defined: " +:+ toUpperCase method
                           +:+ " " +:+ path) st2.1
       else st2.1,
       st2.2).

(** The body of the loop over the paths. *)
Definition checkPath (entry : string * value)
    (st : ValidationResult * list value)
  : outcome (ValidationResult * list value) :=
  let '(path, pathItem) := entry in
  let result1 :=
    mkResult (valid st.1) (errors st.1) (warnings st.1)
      (mkStats (S (stat_paths (stats st.1)))
         (stat_operations (stats st.1))
         (stat_schemas (stats st.1)) (stat_parameters (stats st.1))) in
  (* Check path format *)
  let result2 :=
    if negb (startsWith "/" path)
    then pushError ("Invalid path (must start with /): " +:+ path) result1
    else result1 in
  (* Validate operations *)
  forEachM (checkOperation path pathItem) Patch.METHODS (result2, st.2).

(** [validatePaths(spec, result)] *)
Definition validatePaths (spec : value) (result : ValidationResult)
  : outcome ValidationResult :=
  let* paths := js_field spec "paths" in
  let* st := forEachM checkPath (js_entries (js_or paths (JObj []))) (result, []) in
  Return st.1.

(** [validate], from the document it has read: the three passes over one
    result object. *)
Definition validate (spec : value) : outcome ValidationResult :=
  let* result := validateStructure spec in
  let* result1 := validatePaths spec result in
  validateRefs spec result1.

End ValidateDocument.

(** ** tools/patch.ts: the passes over schemas *)
Module PatchSchemas.

Definition FieldValue : value :=
  JObj [("type", JStr "object");
        ("description",
          JStr "A field value in a QuickBase record. The value type depends on the field type.");
        ("properties",
          JObj [("value",
                  JObj [("description",
                          JStr "The field value. Type depends on field type: string (text, email, URL, date), number (numeric fields), boolean (checkbox), string[] (multi-select), or object[] (file attachments).");
                        ("oneOf",
                          JArr [JObj [("type", JStr "string")];
                                JObj [("type", JStr "number")];
                                JObj [("type", JStr "boolean")];
                                JObj [("type", JStr "array");
                                      ("items", JObj [("type", JStr "string")])];
                                JObj [("type", JStr "array");
                                      ("items",
                                        JObj [("type", JStr "object");
                                              ("properties",
                                                JObj [("id",
                                                        JObj [("type", JStr "string");
                                                              ("description",
                                                                JStr "File attachment ID")])])])]])])]);
        ("required", JArr [JStr "value"])].

Definition QuickbaseRecord : value :=
  JObj [("type", JStr "object");
        ("description",
          JStr "A QuickBase record where keys are field IDs (as strings) and values are FieldValue objects.");
        ("additionalProperties",
          JObj [("$ref", JStr "#/components/schemas/FieldValue")])].

Definition SortField : value :=
  JObj [("type", JStr "object");
        ("description", JStr "A field to sort by in a query.");
        ("properties",
          JObj [("fieldId",
                  JObj [("type", JStr "integer");
                        ("description",
                          JStr "The unique identifier of a field in a table.")]);
                ("order",
                  JObj [("type", JStr "string");
                        ("enum", JArr [JStr "ASC"; JStr "DESC"; JStr "equal-values"]);
                        ("description",
                          JStr "Sort based on ascending order (ASC), descending order (DESC) or equal values (equal-values).")])]);
        ("required", JArr [JStr "fieldId"; JStr "order"])].

Definition SortByUnion : value :=
  JObj [("description",
          JStr "An array of field IDs and sort directions. Set to false to disable sorting for better performance.");
        ("oneOf",
          JArr [JObj [("type", JStr "array");
                      ("items", JObj [("$ref", JStr "#/components/schemas/SortField")])];
                JObj [("type", JStr "boolean");
                      ("enum", JArr [JBool false])]])].

(** [if (!spec.components.schemas) spec.components.schemas = {}] *)
Definition ensureSchemas (spec : value) : outcome value :=
  let* components := js_field spec "components" in
  let* schemas := js_field components "schemas" in
  if negb (truthy schemas) then
    let* components' := js_assign components "schemas" (JObj []) in
    Return (js_set spec "components" components')
  else Return spec.

(** [spec.components.schemas[name] = schema]; the document comes back
    holding the updated objects. *)
Definition setSchema (name : string) (schema : value) (spec : value)
  : outcome value :=
  let* components := js_field spec "components" in
  let* schemas := js_field components "schemas" in
  let* schemas' := js_assign schemas name schema in
  Return (js_set spec "components" (js_set components "schemas" schemas')).

(** [addRecordSchemas(spec)] *)
Definition addRecordSchemas (spec : value) : outcome value :=
  let* spec1 := ensureSchemas spec in
  let* spec2 := setSchema "FieldValue" FieldValue spec1 in
  setSchema "QuickbaseRecord" QuickbaseRecord spec2.

(** [addSortFieldSchema(spec)] *)
Definition addSortFieldSchema (spec : value) : outcome value :=
  let* spec1 := ensureSchemas spec in
  let* spec2 := setSchema "SortField" SortField spec1 in
  setSchema "SortByUnion" SortByUnion spec2.

(** [value && typeof value === 'object'] *)
Definition isObject (v : value) : bool :=
  truthy v && String.eqb (js_typeof v) "object".

(** The body of [fixInvalidTypes]; [recurse] stands for the function
    itself.  Every nested object is fixed in place, so the holder comes
    back with the fixed objects where the old ones were.  The [path]
    argument only feeds the log and is left out. *)
Definition fixInvalidTypesBody (recurse : value → outcome value) (obj : value)
  : outcome value :=
  if negb (truthy obj) || negb (String.eqb (js_typeof obj) "object")
  then Return obj
  else
    (* Fix "type": "int" -> "type": "integer" *)
    let record :=
      if is_str "int" (js_get obj "type")
      then js_set obj "type" (JStr "integer")
      else obj in
    (* Recurse into nested objects *)
    let visit (v : value) : outcome value :=
      if isObject v then recurse v else Return v in
    match record with
    | JObj kv =>
        let* kv' := mapM (λ '(key, v), let* v' := visit v in Return (key, v')) kv in
        Return (JObj kv')
    | JArr l =>
        let* l' := mapM visit l in
        Return (JArr l')
    | _ => Return record
    end.

(** [fixInvalidTypes(obj)]; [stack] bounds the nested activations. *)
Fixpoint fixInvalidTypes (stack : nat) (obj : value) : outcome value :=
  match stack with
  | O => Throw RangeError
  | S stack' => fixInvalidTypesBody (fixInvalidTypes stack') obj
  end.

(** The body of the loop of [patchSchemas]: one component schema. *)
Definition describeSchema (entry : string * value) : outcome (string * value) :=
  let '(name, schema) := entry in
  let* additional := js_field schema "additionalProperties" in
  (* Ensure all schemas have descriptions *)
  if negb (truthy (js_get schema "description"))
     && is_str "object" (js_get schema "type")
  then
    let* schema' := js_assign schema "description" (JStr (name +:+ " object")) in
    Return (name, schema')
  else Return (name, schema).

(** [patchSchemas(spec)] *)
Definition patchSchemas (spec : value) : outcome value :=
  let* components := js_field spec "components" in
  let* schemas := js_field components "schemas" in
  let* entries := mapM describeSchema (js_entries (js_or schemas (JObj []))) in
  match schemas with
  | JObj _ =>
      Return (js_set spec "components"
                (js_set components "schemas" (JObj entries)))
  | JArr _ =>
      Return (js_set spec "components"
                (js_set components "schemas" (JArr entries.*2)))
  | _ => Return spec
  end.

(** [{ ...a, ...b }] *)
Definition spreadBoth (a b : value) : list (string * value) :=
  foldl (λ acc '(k, x), obj_set k x acc) (js_spread a) (js_entries b).

(** One of the two merges of [mergeOverrides]: the section [name] of
    [components]. *)
Definition mergeSection (name : string) (overrides spec : value)
  : outcome value :=
  let* section := js_field overrides name in
  if truthy section then
    let* components := js_field spec "components" in
    let* current := js_field components name in
    let* components' :=
      js_assign components name (JObj (spreadBoth current section)) in
    Return (js_set spec "components" components')
  else Return spec.

(** [mergeOverrides(spec, overrides)] *)
Definition mergeOverrides (spec overrides : value) : outcome value :=
  let* spec1 := mergeSection "schemas" overrides spec in
  mergeSection "parameters" overrides spec1.

End PatchSchemas.

(** ** tools/health-check.ts: fixtures matched to operations, and coverage *)
Module Coverage.
Import Collections HealthCheck.

(** The operation map: identifier to [{ tag, operation }], in insertion
    order. *)
Definition operationMap : Type := list (value * (value * value)).

(** The body of the inner loop of [buildOperationMap]. *)
Definition addOperation (map : operationMap) (entry : string * value)
  : operationMap :=
  let '(method, operation) := entry in
  (* Skip path-level parameters *)
  if String.eqb method "parameters" then map
  else if truthy (js_opt operation "operationId") then
    let tag := js_or (js_opt (js_get operation "tags") "0") (JStr "misc") in
    map_set (js_get operation "operationId") (tag, operation) map
  else map.

(** [buildOperationMap(spec)] *)
Definition buildOperationMap (spec : value) : outcome operationMap :=
  let* paths := js_field spec "paths" in
  match paths with
  | JUndef | JNull => Throw TypeError
  | _ =>
      forEachM (λ methods map,
        match methods with
        | JUndef | JNull => Throw TypeError
        | _ => Return (foldl addOperation map (js_entries methods))
        end) (js_values paths) []
  end.

Inductive fixtureType : Type := request | response.

Record FixtureInfo : Type := mkInfo {
  fi_tag : string;
  fi_operationFolder : string;
  fi_type : fixtureType;
  fi_status : option Z;
  fi_isManual : bool;
}.

(** [parseFixturePath], from the path relative to the fixtures directory;
    [None] is [null], and an absent [fi_status] is [undefined]. *)
Definition parseFixturePath (rel : string) : option FixtureInfo :=
  let parts := str_split "/" rel in
  if (length parts <? 3)%nat then None
  else
    let isManual := String.eqb (nth 0 parts "") "_manual" in
    let tagIndex := if isManual then 1%nat else 0%nat in
    let opIndex := if isManual then 2%nat else 1%nat in
    let fileIndex := if isManual then 3%nat else 2%nat in
    if (length parts <? fileIndex + 1)%nat then None
    else
      let tag := nth tagIndex parts "" in
      let operationFolder := nth opIndex parts "" in
      let fileName := nth fileIndex parts "" in
      (* Parse filename *)
      if startsWith "request" fileName
      then Some (mkInfo tag operationFolder request None isManual)
      else
        match str_strip_prefix "response." fileName with
        | Some rest =>
            Some (mkInfo tag operationFolder response
                    (Z.of_N <$> Generate.leading_digits None rest) isManual)
        | None => None
        end.

(** [for (const x of xs) if (p(x)) return x], for a [p] that may throw. *)
Fixpoint findM {A} (p : A → outcome bool) (xs : list A) : outcome (option A) :=
  match xs with
  | [] => Return None
  | x :: rest => let* b := p x in if b then Return (Some x) else findM p rest
  end.

(** [s.toLowerCase()] of a value: anything but a string has no such
    method. *)
Definition lowerCaseOf (v : value) : outcome string :=
  match v with
  | JStr s => Return (toLowerCase s)
  | _ => Throw TypeError
  end.

(** [findOperation(tag, operationFolder, operationMap)] *)
Definition findOperation (tag operationFolder : string) (map : operationMap)
  : outcome (option (value * value)) :=
  let* byTag :=
    findM (λ '(opId, (opTag, operation)),
      let* expectedFolder := Generate.toKebabCase opId in
      let* opTagLower := lowerCaseOf opTag in
      Return (String.eqb opTagLower (toLowerCase tag)
              && String.eqb expectedFolder operationFolder)) map in
  match byTag with
  | Some (opId, (_, operation)) => Return (Some (opId, operation))
  | None =>
      (* Try matching just by operationFolder *)
      let* byFolder :=
        findM (λ '(opId, (opTag, operation)),
          let* expectedFolder := Generate.toKebabCase opId in
          Return (String.eqb expectedFolder operationFolder)) map in
      Return ((λ '(opId, (_, operation)), (opId, operation)) <$> byFolder)
  end.

(** [x?.content?.['application/json']?.schema] *)
Definition jsonSchemaOf (x : value) : value :=
  js_opt (js_opt (js_opt x "content") "application/json") "schema".

(** [validateFixture], from the relative path and the fixture as loaded
    ([null] when the file is not there).  The returned flag is the
    function's result; the collectors are handed back as the validator
    leaves them. *)
Definition validateFixture (stack : nat) (relativePath : string)
    (fixture operation operationId : value) (fixtureInfo : FixtureInfo)
    (spec : value) (errors warnings : list string)
  : outcome (bool * collectors) :=
  if negb (truthy fixture) then Return (false, (errors, warnings))
  else
    match fi_type fixtureInfo with
    | request =>
        (* Validate request body *)
        let* requestBody := js_field operation "requestBody" in
        let requestSchema := jsonSchemaOf requestBody in
        if negb (truthy requestSchema)
        then Return (true,
               (errors,
                warnings ++ [relativePath +:+ ": no request schema found for '"
                               +:+ js_to_string operationId +:+ "'"]))
        else
          let* c := validateValueAgainstSchema stack (js_get fixture "body")
                      requestSchema spec relativePath errors warnings in
          Return (true, c)
    | response =>
        let status :=
          match fi_status fixtureInfo with
          | Some n => JNum n
          | None => JUndef
          end in
        (* Skip validation for error responses (4xx/5xx) *)
        if truthy status
           && match fi_status fixtureInfo with
              | Some n => (400 <=? n)%Z
              | None => false
              end
        then Return (true, (errors, warnings))
        else
          let* chosen :=
            if truthy status then Return status
            else
              let* metaStatus := js_field (js_get fixture "_meta") "status" in
              Return (js_or metaStatus (JNum 200)) in
          let statusCode := js_to_string chosen in
          let* responses := js_field operation "responses" in
          let response :=
            js_or (js_opt responses statusCode) (js_opt responses "200") in
          let responseSchema := jsonSchemaOf response in
          if negb (truthy responseSchema)
          then Return (true,
                 (errors,
                  warnings ++ [relativePath +:+ ": no response schema found for '"
                                 +:+ js_to_string operationId +:+ "' status "
                                 +:+ statusCode]))
          else
            let* c := validateValueAgainstSchema stack (js_get fixture "body")
                        responseSchema spec relativePath errors warnings in
            Return (true, c)
    end.

Record CoverageResult : Type := mkCoverage {
  total : nat;
  covered : nat;
  missing : list string;
}.

(** [checkCoverage(operationMap, coveredOperations)] *)
Definition checkCoverage (map : operationMap) (coveredOperations : list value)
  : outcome CoverageResult :=
  let* missing :=
    forEachM (λ '(opId, (tag, _)) missing,
      if negb (set_has coveredOperations opId) then
        let* tagLower := lowerCaseOf tag in
        let* folder := Generate.toKebabCase opId in
        Return (missing ++ [js_to_string opId +:+ " (expected at "
                              +:+ tagLower +:+ "/" +:+ folder
                              +:+ "/response.200.json)"])
      else Return missing) map [] in
  Return (mkCoverage (length map) (length coveredOperations) missing).

(** What the loop of [healthCheck] updates. *)
Record Progress : Type := mkProgress {
  pr_errors : list string;
  pr_warnings : list string;
  pr_covered : list value;
  pr_validated : nat;
}.

(** The body of the loop over the fixture files: the path relative to
    the fixtures directory and the content of the file. *)
Definition checkFixture (stack : nat) (spec : value) (map : operationMap)
    (file : string * value) (st : Progress) : outcome Progress :=
  let '(rel, fixture) := file in
  match parseFixturePath rel with
  | None => Return st
  | Some fixtureInfo =>
      (* Skip _manual/errors *)
      if fi_isManual fixtureInfo && String.eqb (fi_tag fixtureInfo) "errors"
      then Return (mkProgress (pr_errors st) (pr_warnings st) (pr_covered st)
                     (S (pr_validated st)))
      else
        let* found :=
          findOperation (fi_tag fixtureInfo) (fi_operationFolder fixtureInfo)
            map in
        match found with
        | None =>
            Return (mkProgress (pr_errors st)
                      (pr_warnings st ++ [rel +:+ ": no matching operation found"])
                      (pr_covered st) (pr_validated st))
        | Some (operationId, operation) =>
            let coveredOperations := set_add operationId (pr_covered st) in
            let* checked :=
              validateFixture stack rel fixture operation operationId
                fixtureInfo spec (pr_errors st) (pr_warnings st) in
            Return (mkProgress checked.2.1 checked.2.2 coveredOperations
                      (if checked.1 then S (pr_validated st)
                       else pr_validated st))
        end
  end.

Record HealthResult : Type := mkHealth {
  valid : bool;
  errors : list string;
  warnings : list string;
  coverage : CoverageResult;
  validated : nat;
}.

(** [healthCheck], from the document and the fixture files it has found. *)
Definition healthCheck (stack : nat) (spec : value)
    (files : list (string * value)) : outcome HealthResult :=
  let* map := buildOperationMap spec in
  let* st := forEachM (checkFixture stack spec map) files
               (mkProgress [] [] [] 0) in
  let* coverage := checkCoverage map (pr_covered st) in
  Return (mkHealth (Nat.eqb (length (pr_errors st)) 0) (pr_errors st)
            (pr_warnings st) coverage (pr_validated st)).

End Coverage.

(** ** tools/summarize.ts: the fields of a request body *)
Module Summarize.
Import Collections.

(** [ref.split('/').pop()]: the last part, [undefined] when there is
    none. *)
Definition lastPart (ref : string) : value :=
  match last (str_split "/" ref) with
  | Some part => JStr part
  | None => JUndef
  end.

(** The body of [getSchemaName]; [recurse] stands for the function
    itself. *)
Definition getSchemaNameBody (recurse : value → outcome value) (schema : value)
  : outcome value :=
  if negb (truthy schema) then Return (JStr "unknown")
  else if truthy (js_get schema "$ref") then
    match js_get schema "$ref" with
    | JStr ref => Return (js_or (lastPart ref) (JStr "unknown"))
    | _ => Throw TypeError
    end
  else if is_str "array" (js_get schema "type") && truthy (js_get schema "items")
  then
    let* inner := recurse (js_get schema "items") in
    Return (JStr ("[]" +:+ js_to_string inner))
  else Return (js_or (js_get schema "type") (JStr "object")).

(** [getSchemaName(schema)]; [stack] bounds the nested activations. *)
Fixpoint getSchemaName (stack : nat) (schema : value) : outcome value :=
  match stack with
  | O => Throw RangeError
  | S stack' => getSchemaNameBody (getSchemaName stack') schema
  end.

Record FieldInfo : Type := mkField {
  fieldName : string;
  fieldType : value;
  fieldRequired : bool;
  fieldDescription : value;
}.

(** The body of [extractFields]; [recurse] stands for the function
    itself, called with the next depth. *)
Definition extractFieldsBody (stack : nat)
    (recurse : value → value → nat → outcome (list FieldInfo))
    (schema spec : value) (depth : nat) : outcome (list FieldInfo) :=
  if negb (truthy schema) || (2 <? depth)%nat then Return []
  (* Resolve $ref *)
  else if truthy (js_get schema "$ref") then
    match js_get schema "$ref" with
    | JStr ref =>
        let refName := lastPart ref in
        if truthy refName then
          let* components := js_field spec "components" in
          let target :=
            js_opt (js_opt components "schemas") (js_to_string refName) in
          if truthy target then recurse target spec (S depth) else Return []
        else Return []
    | _ => Throw TypeError
    end
  else if negb (truthy (js_get schema "properties")) then Return []
  else
    let* required := js_iter (js_or (js_get schema "required") (JArr [])) in
    mapM (λ '(name, prop),
      let* type := getSchemaName stack prop in
      let* description := js_field prop "description" in
      Return (mkField name type (set_has required (JStr name)) description))
      (js_entries (js_get schema "properties")).

(** [extractFields(schema, spec, depth)]; every activation, of this
    function or of [getSchemaName], takes one of the [stack]. *)
Fixpoint extractFields (stack : nat) (schema spec : value) (depth : nat)
  : outcome (list FieldInfo) :=
  match stack with
  | O => Throw RangeError
  | S stack' => extractFieldsBody stack' (extractFields stack') schema spec depth
  end.

End Summarize.

(** * Vocabulary of the statements *)

(** Whether alternative [s] of a union, checked on its own with fresh
    collectors, reports no error. *)
Definition alternativeAccepts (stack : nat) (value spec : value)
    (path : string) (s : JS.value) : bool :=
  match HealthCheck.validateValueAgainstSchema stack value s spec path [] [] with
  | Return (es, _) => Nat.eqb (length es) 0
  | Throw _ => false
  end.

Definition noBranchWarning (path : string) : string :=
  path +:+ ": value doesn't match any of the expected schemas".

(** A schema node with no [$ref] and no [oneOf]/[anyOf]/[allOf]. *)
Definition plainSchema (schema : value) : Prop :=
  truthy (js_get schema "$ref") = false ∧
  truthy (js_get schema "oneOf") = false ∧
  truthy (js_get schema "anyOf") = false ∧
  truthy (js_get schema "allOf") = false.

(** How much structure a value has: what the validator can still descend
    into. *)
Fixpoint vsize (v : value) : nat :=
  match v with
  | JArr l => S (foldr (λ x n, vsize x + n) 0 l)
  | JObj kv => S (foldr (λ p n, vsize p.2 + n) 0 kv)
  | _ => 0
  end.

Definition isString (v : value) : Prop := ∃ s, v = JStr s.

(** The member names every object inherits from [Object.prototype].  For
    these, [o[k]] and [k in o] find a member on an object that has no
    entry of that name.  The embedding reads own entries only, so the
    statements that depend on a lookup keep these names out of it. *)
Definition inheritedNames : list string :=
  ["constructor"; "hasOwnProperty"; "isPrototypeOf"; "propertyIsEnumerable";
   "toLocaleString"; "toString"; "valueOf"; "__proto__";
   "__defineGetter__"; "__defineSetter__";
   "__lookupGetter__"; "__lookupSetter__"].

(** The walk of [resolveRef] stays inside the document: every part is
    found among the own entries of the node reached so far, or the walk
    stops at a node that has no member of that name at all.  (A walk that
    leaves the document through an inherited member reaches the built-in
    functions, whose [caller] and [arguments] throw when read.) *)
Fixpoint walkInDocument (parts : list string) (current : value) : bool :=
  match parts with
  | [] => true
  | part :: rest =>
      if truthy current && String.eqb (js_typeof current) "object" then
        if js_has current part then walkInDocument rest (js_get current part)
        else match current with
             | JObj _ => negb (bool_decide (part ∈ inheritedNames))
             | _ => false
             end
      else true
  end.

Definition pointerInDocument (ref spec : value) : bool :=
  match ref with
  | JStr r => walkInDocument (str_split "/" (str_replace "#/" "" r)) spec
  | _ => false
  end.

(** What [type] holds according to the [Schema] interface: a type name,
    or (as the validator also accepts) a list of type names. *)
Definition typeNames (ty : value) : Prop :=
  isString ty ∨ ∃ l, ty = JArr l ∧ Forall isString l.

(** The schema nodes of a document, when every node has the shape the
    [Schema] interface declares and every step the validator takes without
    descending into the value ([$ref], [oneOf]/[anyOf], [allOf]) leads to a
    node of strictly smaller rank: no chain of such steps comes back to
    where it started.  The shape matters where the validator prints what
    it read: [type] in the message of a mismatch and each element of
    [required] as a property key, which is a [TypeError] for an object
    that cannot be converted to a string. *)
Section WellFoundedSchemas.
Variable spec : value.
Variable node : value → Prop.
Variable rank : value → nat.

Definition descends (s t : value) : Prop := node t ∧ rank t < rank s.

Record nodeOk (s : value) : Prop := {
  node_object : ∃ kv, s = JObj kv;
  node_ref :
    truthy (js_get s "$ref") = true →
    pointerInDocument (js_get s "$ref") spec = true ∧
    ∃ t, HealthCheck.resolveRef (js_get s "$ref") spec = Return t
         ∧ (truthy t = true → descends s t);
  node_union :
    truthy (js_get s "oneOf") || truthy (js_get s "anyOf") = true →
    ∃ alts, js_or (js_get s "oneOf") (js_get s "anyOf") = JArr alts
            ∧ Forall (descends s) alts;
  node_allOf :
    truthy (js_get s "allOf") = true →
    ∃ subs, js_get s "allOf" = JArr subs ∧ Forall (descends s) subs;
  node_items :
    truthy (js_get s "items") = true → node (js_get s "items");
  node_properties :
    truthy (js_get s "properties") = true →
    ∃ props, js_get s "properties" = JObj props
             ∧ Forall (λ p, node p.2) props;
  node_required :
    truthy (js_get s "required") = true →
    ∃ reqs, js_get s "required" = JArr reqs ∧ Forall isString reqs;
  node_type :
    truthy (js_get s "type") = true → typeNames (js_get s "type");
}.
End WellFoundedSchemas.

(** The schema nodes the validator moves to from [s] while staying on the
    same value. *)
Definition sameValueSteps (spec s : value) : list value :=
  if truthy (js_get s "$ref") then
    match HealthCheck.resolveRef (js_get s "$ref") spec with
    | Return t => if truthy t then [t] else []
    | Throw _ => []
    end
  else if truthy (js_get s "oneOf") || truthy (js_get s "anyOf") then
    match js_or (js_get s "oneOf") (js_get s "anyOf") with
    | JArr alts => alts
    | _ => []
    end
  else if truthy (js_get s "allOf") then
    match js_get s "allOf" with
    | JArr subs => subs
    | _ => []
    end
  else [].

(** The validator returns on this input with [stack] activations. *)
Definition validates (spec : value) (stack : nat) (value schema : value) : Prop :=
  ∀ path errors warnings, ∃ errors' warnings',
    HealthCheck.validateValueAgainstSchema stack value schema spec path
      errors warnings = Return (errors', warnings').

(** A document whose component [A] is a pointer to itself, and a schema
    node pointing at it. *)
Definition selfRefSchema : value := JObj [("$ref", JStr "#/components/schemas/A")].
Definition selfRefSpec : value :=
  JObj [("components", JObj [("schemas", JObj [("A", selfRefSchema)])])].

(** A document with one string component, and a schema node pointing at it. *)
Definition stringSchema : value := JObj [("type", JStr "string")].
Definition pointerSchema : value := JObj [("$ref", JStr "#/components/schemas/A")].
Definition pointerSpec : value :=
  JObj [("components", JObj [("schemas", JObj [("A", stringSchema)])])].
Definition pointerNode (s : value) : Prop := s = pointerSchema ∨ s = stringSchema.
Definition pointerRank (s : value) : nat :=
  match s with
  | JObj (("$ref", _) :: _) => 1
  | _ => 0
  end.

(** The status-code keys the normalization pass renames, and the keys it
    renames them to. *)
Definition compositeCodes : list string := ["401/403"; "4xx/5xx"; "4xx"; "5xx"].
Definition canonicalCodes : list string := ["401"; "default"].

Fixpoint all_digits (s : string) : bool :=
  match s with
  | "" => true
  | String c s' => is_digit c && all_digits s'
  end.

(** A rename pair as the first loop of the pass builds them. *)
Definition renamePair (r : string * string) : Prop :=
  r.1 ∈ compositeCodes ∧ r.2 ∈ canonicalCodes.


(** The passes of tools/patch.ts log the identifier of the operation with
    every change they make, and printing it is a [TypeError] for an object
    that cannot be converted to a string.  The statements about them take
    the identifier to be what the [Operation] interface declares: a
    string, when there is one. *)
Definition identifierShape (operation : value) : Prop :=
  truthy (js_get operation "operationId") = true →
  isString (js_get operation "operationId").

(** The operation identifier as the specification words it: the method
    prefix followed by the PascalCase concatenation of the path's
    non-parameter segments, every segment capitalised. *)
Definition nonParameterSegments (path : string) : list string :=
  filter (λ p, startsWith "{" p = false) (Patch.pathParts path).
Definition pascalCaseConcat (segments : list string) : string :=
  str_concat (Patch.capitalize <$> segments).
Definition specOperationId (path method : string) : string :=
  Patch.methodPrefix method +:+ pascalCaseConcat (nonParameterSegments path).

(** The first character of [s], if there is one, is an ASCII character.
    On these [toUpperCase] maps the letters a to z to A to Z and changes
    nothing else, which is what [Patch.capitalize] does; beyond ASCII the
    two differ. *)
Definition asciiHead (s : string) : Prop :=
  match s with
  | "" => True
  | String c _ => nat_of_ascii c < 128
  end.

(** An operation as the [Operation] interface of tools/patch.ts types the
    fields [patchOperation] writes through: [parameters], when present, is
    an array of parameter objects, and [requestBody], when present, is an
    object. *)
Definition operationShape (operation : value) : Prop :=
  (truthy (js_get operation "parameters") = true →
   ∃ ps, js_get operation "parameters" = JArr ps
         ∧ Forall (λ p, ∃ kv, p = JObj kv) ps) ∧
  (truthy (js_get operation "requestBody") = true →
   ∃ kv, js_get operation "requestBody" = JObj kv).

(** A pointer is reachable from a value when some object nested in it
    holds it as a string under [$ref]. *)
Inductive reachableRef : value → string → Prop :=
| reach_here kv r :
    obj_get "$ref" kv = Some (JStr r) → reachableRef (JObj kv) r
| reach_field kv k v r :
    (k, v) ∈ kv → reachableRef v r → reachableRef (JObj kv) r
| reach_elem l v r :
    v ∈ l → reachableRef v r → reachableRef (JArr l) r.

(** A pointer into [components.schemas] or [components.parameters] whose
    named entry is missing (or holds nothing truthy). *)
Definition componentPointerMissing (schemas parameters : value) (ref : string)
  : bool :=
  match str_strip_prefix "#/components/schemas/" ref with
  | Some name => negb (truthy (js_get schemas name))
  | None =>
      match str_strip_prefix "#/components/parameters/" ref with
      | Some name => negb (truthy (js_get parameters name))
      | None => false
      end
  end.

(** The lookup [section[name]] finds what the document holds: the section
    is a plain object, and [name] is one of its entries or, at least, not
    a name every object inherits (for which the lookup finds the inherited
    member, whatever the section holds). *)
Definition ownLookup (section : value) (name : string) : bool :=
  match section with
  | JObj kv => obj_has name kv || negb (bool_decide (name ∈ inheritedNames))
  | _ => false
  end.

(** A pointer whose check by [validateRefs], if it has one, is such a
    lookup. *)
Definition componentLookupOwn (schemas parameters : value) (ref : string)
  : bool :=
  match str_strip_prefix "#/components/schemas/" ref with
  | Some name => ownLookup schemas name
  | None =>
      match str_strip_prefix "#/components/parameters/" ref with
      | Some name => ownLookup parameters name
      | None => true
      end
  end.

(** A pointer that leaves the document. *)
Definition externalPointer (ref : string) : bool := negb (startsWith "#/" ref).

(** The specification's reading of "resolves": the pointer names an entry
    of some section of [components]. *)
Definition resolvesToComponent (spec : value) (ref : string) : bool :=
  match str_strip_prefix "#/components/" ref with
  | Some rest =>
      match str_split "/" rest with
      | [section; name] =>
          js_has (js_get (js_get spec "components") section) name
      | _ => false
      end
  | None => false
  end.

(** A document whose only pointer leaves the document. *)
Definition externalRefSpec : value :=
  JObj [("paths",
          JObj [("/apps",
                  JObj [("get",
                          JObj [("responses",
                                  JObj [("200",
                                          JObj [("$ref", JStr "common.yaml#/Ok")])])])])]);
        ("components", JObj [("schemas", JObj [])])].

(** A document with one pointer to a schema that is there and one to a
    schema that is not. *)
Definition danglingRefSpec : value :=
  JObj [("paths",
          JObj [("/apps",
                  JObj [("get", JObj [("$ref", JStr "#/components/schemas/App")]);
                        ("post", JObj [("$ref", JStr "#/components/schemas/Gone")])])]);
        ("components",
          JObj [("schemas", JObj [("App", JObj [("type", JStr "object")])])])].

Definition emptyResult : Validate.ValidationResult :=
  Validate.mkResult true [] [] (Validate.mkStats 0 0 0 0).

Definition externalWarning (ref : string) : string :=
  "External $ref (not validated): " +:+ ref.

(** Neither [null] nor [undefined]. *)
Definition present (v : value) : Prop := v ≠ JNull ∧ v ≠ JUndef.

(** The converter's rewrite of a pointer to a definition. *)
Definition rewrittenPointer (name : string) : value :=
  JStr (str_replace "#/definitions/" "#/components/schemas/"
          ("#/definitions/" +:+ name)).

(** A name without the pointer separator. *)
Fixpoint slashFree (s : string) : bool :=
  match s with
  | "" => true
  | String c s' => negb (Ascii.eqb c "/") && slashFree s'
  end.

(** A Swagger document with a plain definition and one whose name holds
    the pointer separator. *)
Definition slashSwagger : value :=
  JObj [("schemes", JArr [JStr "https"]);
        ("host", JStr "api.quickbase.com");
        ("basePath", JStr "/v1");
        ("info", JObj [("title", JStr "QuickBase"); ("version", JStr "1")]);
        ("paths", JObj []);
        ("definitions",
          JObj [("Foo", JObj [("type", JStr "object")]);
                ("a/b", JObj [("type", JStr "object")])])].

(** The fixtures among [cs] whose file is not there yet, and the number of
    those whose file is. *)
Definition keepNew (existing : gset string) (cs : list Generate.FixtureFile)
  : list Generate.FixtureFile :=
  List.filter (λ f, negb (bool_decide (Generate.fx_file f ∈ existing))) cs.
Definition countOld (existing : gset string) (cs : list Generate.FixtureFile)
  : nat :=
  length (List.filter (λ f, bool_decide (Generate.fx_file f ∈ existing)) cs).

(** Accumulating the candidates [cs] into what is pending. *)
Definition addCandidates (existing : gset string) (acc : Generate.pending)
    (cs : list Generate.FixtureFile) : Generate.pending :=
  (acc.1 ++ keepNew existing cs, acc.2 + countOld existing cs).

(** The content of file [name] of directory [dir], if it is there. *)
Definition fileAt (fs : Generate.filesystem) (dir name : string) : option value :=
  fs !! dir ≫= λ files, files !! name.

(** Every file of [fs] is in [fs'], with the same content. *)
Definition keepsFiles (fs fs' : Generate.filesystem) : Prop :=
  ∀ dir name content,
    fileAt fs dir name = Some content → fileAt fs' dir name = Some content.

(** A step of the generation loop that only adds files, and that writes
    nothing when run again on a file system holding what it has written. *)
Definition atMostOnce {X : Type}
    (step : X → Generate.filesystem * Generate.GenerateResult
              → outcome (Generate.filesystem * Generate.GenerateResult))
    (x : X) : Prop :=
  ∀ fs r fs1 r1,
    step x (fs, r) = Return (fs1, r1) →
    keepsFiles fs fs1 ∧
    ∀ fs2 r0, keepsFiles fs1 fs2 →
      ∃ r2, step x (fs2, r0) = Return (fs2, r2)
            ∧ Generate.generated r2 = Generate.generated r0
            ∧ Generate.operations r2 = Generate.operations r0.

(** The candidates of a step: fixtures of directory [baseDir] that do not
    depend on what exists, of which the step keeps the new ones. *)
Definition candidatesOf (baseDir : string)
    (step : gset string → Generate.pending → outcome Generate.pending) : Prop :=
  ∃ oc : outcome (list Generate.FixtureFile),
    (∀ cs, oc = Return cs → Forall (λ f, Generate.fx_dir f = baseDir) cs) ∧
    ∀ existing acc,
      step existing acc
      = let* cs := oc in Return (addCandidates existing acc cs).

(** A document with one operation carrying one example response. *)
Definition sampleOperation : value :=
  JObj [("operationId", JStr "getApp");
        ("tags", JArr [JStr "Apps"]);
        ("responses",
          JObj [("200",
                  JObj [("description", JStr "ok");
                        ("content",
                          JObj [("application/json",
                                  JObj [("schema",
                                          JObj [("example",
                                                  JObj [("id", JStr "bck7gp3q2")])])])])])])].
Definition sampleSpec : value :=
  JObj [("paths", JObj [("/apps/{appId}", JObj [("get", sampleOperation)])])].

(** A document with one operation whose response carries two examples,
    named so that their safe names coincide; and the two fixtures the
    examples give. *)
Definition clashOperation : value :=
  JObj [("operationId", JStr "getApp");
        ("tags", JArr [JStr "Apps"]);
        ("responses",
          JObj [("200",
                  JObj [("description", JStr "ok");
                        ("content",
                          JObj [("application/json",
                                  JObj [("schema",
                                          JObj [("x-amf-examples",
                                                  JObj [("A b", JObj [("id", JNum 1)]);
                                                        ("a-b", JObj [("id", JNum 2)])])])])])])])].
Definition clashSpec : value :=
  JObj [("paths", JObj [("/apps/{appId}", JObj [("get", clashOperation)])])].
Definition clashFirst : Generate.FixtureFile :=
  Generate.mkFixture "fixtures/apps/get-app" "response.200.a-b.json"
    (Generate.responseFixture (JStr "A b") 200 (JObj [("id", JNum 1)])).
Definition clashSecond : Generate.FixtureFile :=
  Generate.mkFixture "fixtures/apps/get-app" "response.200.a-b.json"
    (Generate.responseFixture (JStr "a-b") 200 (JObj [("id", JNum 2)])).

(** What a run of [generate] reports, and what it leaves in file [name] of
    directory [dir]. *)
Definition afterRun
    (run : outcome (Generate.filesystem * Generate.GenerateResult))
    (dir name : string) : option (Generate.GenerateResult * option value) :=
  match run with
  | Return (fs, result) => Some (result, fileAt fs dir name)
  | Throw _ => None
  end.


(** ** Vocabulary of the further properties *)

(** One outcome is at least as defined as another: whatever the first
    returns, the second returns too. *)
Definition returnsAtLeast {A} (o o' : outcome A) : Prop :=
  ∀ a, o = Return a → o' = Return a.

(** A step on the collectors that only appends, and appends the same
    messages whatever was collected before. *)
Definition accumulating (f : HealthCheck.collectors → outcome HealthCheck.collectors)
  : Prop :=
  ∀ c, f c = let* d := f ([], []) in Return (c.1 ++ d.1, c.2 ++ d.2).

(** The keywords of a schema node the validator reads. *)
Definition readKeywords : list string :=
  ["$ref"; "oneOf"; "anyOf"; "allOf"; "type"; "items"; "properties";
   "required"; "additionalProperties"].

(** The pointer to the schema component [name]. *)
Definition schemaPointer (name : string) : string :=
  "#/components/schemas/" +:+ name.

(** A header parameter the client library sets by itself. *)
Definition internalHeader (p : value) : bool :=
  is_str "header" (js_get p "in")
  && str_includes Patch.INTERNAL_HEADERS (js_get p "name").

(** The parameters the patch keeps. *)
Definition publicParameters (ps : list value) : list value :=
  List.filter (λ p, negb (internalHeader p)) ps.

(** The request body after the correction: marked required. *)
Definition requiredBody (body : value) : value :=
  js_set body "required" (JBool true).

(** The [parameters] field after [removeInternalHeaders]. *)
Definition publicField (parameters : value) : value :=
  match parameters with
  | JArr ps => JArr (publicParameters ps)
  | _ => parameters
  end.

(** The identifier an operation has after [patchOperation]. *)
Definition patchedOperationId (operation : value) (path method : string)
  : value :=
  if truthy (js_get operation "operationId")
  then js_get operation "operationId"
  else JStr (Patch.generatedOperationId path method).

(** The [requestBody] field after [patchOperation]. *)
Definition patchedRequestBody (operation : value) (path method : string)
  : value :=
  let body := js_get operation "requestBody" in
  if truthy body
     && str_includes Patch.REQUIRED_BODY_OPERATIONS
          (patchedOperationId operation path method)
  then requiredBody body
  else body.

(** The result says "valid" exactly when it holds no error. *)
Definition validityReflectsErrors (r : Validate.ValidationResult) : Prop :=
  Validate.valid r = true ↔ Validate.errors r = [].

(** The operations of a path item, in the order the tools visit them. *)
Definition operationsOf (pathItem : value) : list value :=
  List.filter truthy ((λ method, js_get pathItem method) <$> Patch.METHODS).

(** The identifiers the operations of a path item, and of a whole
    document, carry, in visiting order. *)
Definition identifiersIn (pathItem : value) : list value :=
  List.filter truthy
    ((λ operation, js_get operation "operationId") <$> operationsOf pathItem).
Definition identifiersOf (paths : value) : list value :=
  concat (identifiersIn <$> js_values paths).

(** What the loops of [validatePaths] have established after the
    identifiers [seen]: the set holds them, and an error has been added
    unless the paths are well formed ([Q]) and the identifiers are pairwise
    different. *)
Definition pathsChecked (errors0 : list string) (seen : list value) (Q : Prop)
    (st : Validate.ValidationResult * list value) : Prop :=
  (∀ v, v ∈ st.2 ↔ v ∈ seen) ∧
  ∃ added, Validate.errors st.1 = errors0 ++ added
           ∧ (added = [] ↔ Q ∧ NoDup seen).

(** A document in which two operations carry the same identifier. *)
Definition duplicateIdSpec : value :=
  JObj [("paths",
          JObj [("/apps",
                  JObj [("get", JObj [("operationId", JStr "getApp");
                                      ("responses", JObj [("200", JObj [])])]);
                        ("post", JObj [("operationId", JStr "getApp");
                                       ("responses", JObj [("200", JObj [])])])])])].

(** A record: an object whose keys are pairwise different (as every
    object of a parsed document is), or nothing at all. *)
Definition recordValue (v : value) : Prop :=
  match v with
  | JObj kv => NoDup (obj_keys kv)
  | JUndef => True
  | _ => False
  end.

(** How deep a value nests. *)
Fixpoint vdepth (v : value) : nat :=
  match v with
  | JArr l => S (foldr (λ x n, vdepth x `max` n) 0 l)
  | JObj kv => S (foldr (λ p n, vdepth p.2 `max` n) 0 kv)
  | _ => 0
  end.

(** Some object nested in the value declares the type ["int"]. *)
Fixpoint declaresInt (v : value) : bool :=
  match v with
  | JObj kv =>
      is_str "int" (default JUndef (obj_get "type" kv))
      || existsb (λ p, declaresInt p.2) kv
  | JArr l => existsb declaresInt l
  | _ => false
  end.

(** The schemas the patch adds to every document. *)
Definition injectedSchemas : list (string * value) :=
  [("FieldValue", PatchSchemas.FieldValue);
   ("QuickbaseRecord", PatchSchemas.QuickbaseRecord);
   ("SortField", PatchSchemas.SortField);
   ("SortByUnion", PatchSchemas.SortByUnion)].

(** [components.schemas] of a document. *)
Definition schemasOf (spec : value) : value :=
  js_get (js_get spec "components") "schemas".

(** What [fixInvalidTypes] makes of a value: nothing in it declares the
    type ["int"], and it is the string ["int"] only if the value was. *)
Definition intFree (v r : value) : Prop :=
  declaresInt r = false ∧ is_str "int" r = is_str "int" v.

(** An entry of the operation map lives in folder [folder], and under
    tag [tag] (compared without case). *)
Definition inFolder (folder : string) (entry : value * (value * value)) : Prop :=
  Generate.toKebabCase entry.1 = Return folder.
Definition underTag (tag : string) (entry : value * (value * value)) : Prop :=
  Coverage.lowerCaseOf entry.2.1 = Return (toLowerCase tag).

Definition isStr (v : value) : bool :=
  match v with JStr _ => true | _ => false end.

(** The keys of an operation map that are strings are pairwise
    different. *)
Definition distinctKeys (map : Coverage.operationMap) : Prop :=
  NoDup (List.filter isStr map.*1).

(** The covered set of the health check: distinct string identifiers, all
    of them keys of the map. *)
Definition coveredWithin (map : Coverage.operationMap) (st : Coverage.Progress)
  : Prop :=
  Forall (λ v, isStr v = true) (Coverage.pr_covered st)
  ∧ NoDup (Coverage.pr_covered st)
  ∧ ∀ v, v ∈ Coverage.pr_covered st → v ∈ map.*1.

(** Every character of a string passes a test. *)
Fixpoint str_forall (p : ascii → bool) (s : string) : bool :=
  match s with
  | "" => true
  | String c s' => p c && str_forall p s'
  end.

(** The characters of a safe name: lower-case letters, digits, dashes. *)
Definition safeChar (c : ascii) : bool :=
  Generate.is_alnum_lower c || Ascii.eqb c "-".

(** The first and the last character of a string. *)
Definition firstChar (s : string) : option ascii :=
  match s with
  | "" => None
  | String c _ => Some c
  end.
Fixpoint lastChar (s : string) : option ascii :=
  match s with
  | "" => None
  | String c "" => Some c
  | String _ s' => lastChar s'
  end.

(** No two dashes in a row. *)
Fixpoint singleDashes (s : string) : bool :=
  match s with
  | String a (String b _ as s') =>
      negb (Ascii.eqb a "-" && Ascii.eqb b "-") && singleDashes s'
  | _ => true
  end.

(** The candidates of a step, all of them with property [P]: fixtures that
    do not depend on what exists, of which the step keeps the new ones. *)
Definition candidatesWith (P : Generate.FixtureFile → Prop)
    (step : gset string → Generate.pending → outcome Generate.pending) : Prop :=
  ∃ oc : outcome (list Generate.FixtureFile),
    (∀ cs, oc = Return cs → Forall P cs) ∧
    ∀ existing acc,
      step existing acc
      = let* cs := oc in Return (addCandidates existing acc cs).

(** The two kinds of file name the generator gives: the request fixture,
    and a response fixture carrying in its name the status its [_meta]
    records, possibly followed by the safe name of the example. *)
Definition responseNamed (f : Generate.FixtureFile) : Prop :=
  ∃ (status : Z) (rest : string),
    Generate.fx_file f = "response." +:+ pretty status +:+ rest
    ∧ (rest = ".json"
       ∨ ∃ name, rest = "." +:+ Generate.safeName name +:+ ".json")
    ∧ js_get (js_get (Generate.fx_content f) "_meta") "status" = JNum status.
Definition wellNamed (f : Generate.FixtureFile) : Prop :=
  Generate.fx_file f = "request.json" ∨ responseNamed f.

(** A string written in ASCII: on these [toLowerCase] maps the letters A
    to Z to a to z and changes nothing else, which is what the embedding's
    [toLowerCase] does. *)
Definition asciiOnly (s : string) : bool :=
  str_forall (λ c, (nat_of_ascii c <? 128)%nat) s.

(** A path segment that [join] and [relative] leave as it is: not empty,
    neither [.] nor [..], and without a separator.  For such segments
    [join] is the concatenation [Generate.path_join] writes. *)
Definition plainSegment (s : string) : bool :=
  slashFree s && negb (String.eqb s "") && negb (String.eqb s ".")
  && negb (String.eqb s "..").

(** [relative(FIXTURES_DIR, fixturePath)] for a path written as the
    directory, a separator and plain segments: what follows the separator.
    ([None]: the path is not of that form; the library would then give a
    path through [..], which the statement below has no use for.) *)
Definition relativeTo (root path : string) : option string :=
  str_strip_prefix (root +:+ "/") path.

(** What the health check is expected to read off the path of a fixture
    the generator writes: from where the generator puts it (its directory
    and its file name), relative to the fixtures directory.  The status is
    compared below 2^53, where the number [parseInt] gives is the integer
    the key spells. *)
Definition parsesBack (fixturesRoot tag folder : string)
    (f : Generate.FixtureFile) : Prop :=
  ∃ rel,
    relativeTo fixturesRoot
      (Generate.path_join (Generate.fx_dir f) (Generate.fx_file f)) = Some rel
    ∧ ∃ info,
        Coverage.parseFixturePath rel = Some info
        ∧ Coverage.fi_tag info = tag
        ∧ Coverage.fi_operationFolder info = folder
        ∧ Coverage.fi_isManual info = false
        ∧ (Generate.fx_file f = "request.json"
           ∧ Coverage.fi_type info = Coverage.request
           ∨ Coverage.fi_type info = Coverage.response
             ∧ ∃ status,
                 js_get (js_get (Generate.fx_content f) "_meta") "status"
                 = JNum status
                 ∧ (0 ≤ status < 2 ^ 53 →
                    Coverage.fi_status info = Some status)%Z).

(** The keywords under which [convertSchemaRef] looks for nested
    schemas. *)
Definition visitedKeywords : list string :=
  ["items"; "properties"; "allOf"; "oneOf"; "anyOf"].

(** An outcome other than the exhaustion of the stack. *)
Definition noOverflow {A} (o : outcome A) : Prop := o ≠ Throw RangeError.

(** A Swagger operation with a body parameter and a path parameter. *)
Definition bodyOperation : value :=
  JObj [("operationId", JStr "createApp");
        ("parameters",
          JArr [JObj [("name", JStr "generated"); ("in", JStr "body");
                      ("schema", JObj [("$ref", JStr "#/definitions/App")])];
                JObj [("name", JStr "appId"); ("in", JStr "path");
                      ("type", JStr "string")]])].


(** * Properties *)

(** ** Own-property lemmas *)
Section PropertyFacts.
Context {A : Type}.
Implicit Types (k : string) (v : A) (kv : list (string * A)).

Lemma obj_has_get k kv : obj_has k kv = true ↔ is_Some (obj_get k kv).
Proof.
  unfold obj_has. destruct (obj_get k kv); split; intros H; eauto.
  - discriminate.
  - by destruct H.
Qed.

Lemma obj_has_keys k kv : obj_has k kv = true ↔ k ∈ obj_keys kv.
Proof.
  unfold obj_has, obj_keys. induction kv as [|[k' v'] kv IH]; simpl.
  - split; [discriminate | by intros ?%elem_of_nil].
  - destruct (String.eqb_spec k' k) as [->|Hne].
    + split; [intros _; by left | done].
    + rewrite IH. split; [by right|].
      intros [?|?]%elem_of_cons; [congruence | done].
Qed.

Lemma obj_get_replace_eq k v kv :
  obj_has k kv = true → obj_get k (obj_replace k v kv) = Some v.
Proof.
  unfold obj_has. induction kv as [|[k' v'] kv IH]; simpl; [done|].
  destruct (String.eqb_spec k' k) as [->|Hne]; simpl.
  - by rewrite String.eqb_refl.
  - intros H. destruct (String.eqb_spec k' k); [done | by apply IH].
Qed.

Lemma obj_get_replace_ne k k' v kv :
  k ≠ k' → obj_get k' (obj_replace k v kv) = obj_get k' kv.
Proof.
  intros Hne. induction kv as [|[k0 v0] kv IH]; simpl; [done|].
  destruct (String.eqb_spec k0 k) as [->|Hk]; simpl.
  - destruct (String.eqb_spec k k'); [done | done].
  - by rewrite IH.
Qed.

Lemma obj_get_insert_index_eq n k v kv :
  obj_has k kv = false → obj_get k (obj_insert_index n k v kv) = Some v.
Proof.
  unfold obj_has. induction kv as [|[k0 v0] kv IH]; simpl.
  - by rewrite String.eqb_refl.
  - destruct (String.eqb_spec k0 k) as [->|Hk]; [done|]. intros H.
    destruct (array_index k0) as [m|]; [destruct (m <? n)%N|]; simpl;
      rewrite ?String.eqb_refl; try done.
    destruct (String.eqb_spec k0 k); [done | by apply IH].
Qed.

Lemma obj_get_insert_index_ne n k k' v kv :
  k ≠ k' → obj_get k' (obj_insert_index n k v kv) = obj_get k' kv.
Proof.
  intros Hne. induction kv as [|[k0 v0] kv IH]; simpl.
  - by destruct (String.eqb_spec k k').
  - destruct (array_index k0) as [m|]; [destruct (m <? n)%N|]; simpl;
      try (destruct (String.eqb_spec k k'); [done | done]).
    by rewrite IH.
Qed.

Lemma obj_get_app k kv1 kv2 :
  obj_get k (kv1 ++ kv2) =
    match obj_get k kv1 with Some v => Some v | None => obj_get k kv2 end.
Proof.
  induction kv1 as [|[k0 v0] kv1 IH]; simpl; [done|].
  by destruct (String.eqb k0 k).
Qed.

(** Reading back what was just written. *)
Lemma obj_get_set_eq k v kv : obj_get k (obj_set k v kv) = Some v.
Proof.
  unfold obj_set. destruct (obj_has k kv) eqn:Hhas.
  - by apply obj_get_replace_eq.
  - destruct (array_index k).
    + by apply obj_get_insert_index_eq.
    + rewrite obj_get_app. unfold obj_has in Hhas.
      destruct (obj_get k kv); [done|]. simpl. by rewrite String.eqb_refl.
Qed.

(** Writing one key leaves every other key as it was. *)
Lemma obj_get_set_ne k k' v kv :
  k ≠ k' → obj_get k' (obj_set k v kv) = obj_get k' kv.
Proof.
  intros Hne. unfold obj_set. destruct (obj_has k kv).
  - by apply obj_get_replace_ne.
  - destruct (array_index k).
    + by apply obj_get_insert_index_ne.
    + rewrite obj_get_app. destruct (obj_get k' kv); [done|]. simpl.
      by destruct (String.eqb_spec k k').
Qed.

Lemma obj_get_delete_eq k kv : obj_get k (obj_delete k kv) = None.
Proof.
  unfold obj_delete. induction kv as [|[k0 v0] kv IH]; simpl; [done|].
  destruct (String.eqb_spec k0 k) as [->|Hk]; simpl; [done|].
  destruct (String.eqb_spec k0 k); [done | done].
Qed.

Lemma obj_delete_absent k kv : obj_has k kv = false → obj_delete k kv = kv.
Proof.
  unfold obj_has, obj_delete. induction kv as [|[k0 v0] kv IH]; simpl; [done|].
  destruct (String.eqb_spec k0 k) as [->|Hk]; simpl; [done|].
  intros H. by rewrite IH.
Qed.

Lemma obj_get_delete_ne k k' kv :
  k ≠ k' → obj_get k' (obj_delete k kv) = obj_get k' kv.
Proof.
  intros Hne. unfold obj_delete.
  induction kv as [|[k0 v0] kv IH]; simpl; [done|].
  destruct (String.eqb_spec k0 k) as [->|Hk]; simpl.
  - destruct (String.eqb_spec k k'); [done | done].
  - by rewrite IH.
Qed.

Lemma obj_keys_replace k v kv : obj_keys (obj_replace k v kv) = obj_keys kv.
Proof.
  unfold obj_keys. induction kv as [|[k0 v0] kv IH]; simpl; [done|].
  destruct (String.eqb k0 k); simpl; by rewrite ?IH.
Qed.
End PropertyFacts.

(** ** Iteration lemmas *)

Lemma forEachM_ext {A S} (f g : A → S → outcome S) xs st :
  (∀ x st, x ∈ xs → f x st = g x st) → forEachM f xs st = forEachM g xs st.
Proof.
  revert st. induction xs as [|x xs IH]; intros st H; simpl; [done|].
  rewrite (H x st) by left. destruct (g x st); simpl; [|done].
  apply IH. intros y st' Hy. apply H. by right.
Qed.

Lemma forEachM_returns {A S} (body : A → S → outcome S) xs st :
  (∀ x st, x ∈ xs → ∃ st', body x st = Return st') →
  ∃ st', forEachM body xs st = Return st'.
Proof.
  revert st. induction xs as [|x xs IH]; intros st H; simpl; [by eexists|].
  destruct (H x st) as [st1 ->]; [by left|]. simpl.
  apply IH. intros y st' Hy. apply H. by right.
Qed.

Lemma someM_existsb {A} (p : A → outcome bool) (q : A → bool) xs :
  Forall (λ x, p x = Return (q x)) xs → someM p xs = Return (existsb q xs).
Proof.
  induction 1 as [|x xs Hx _ IH]; simpl; [done|].
  rewrite Hx. simpl. by destruct (q x).
Qed.

(** ** The schema validator (tools/health-check.ts) *)
Section ValidatorFacts.
Import HealthCheck.

Lemma includes_object_type (ty : value) (actualType : string) :
  is_str "object" ty = true →
  includes (normalizeExpected (match ty with JArr l => l | _ => [ty] end))
    actualType = String.eqb "object" actualType.
Proof.
  destruct ty as [| | | |t| |]; simpl; try discriminate.
  intros ->%String.eqb_eq. simpl. by rewrite orb_false_r.
Qed.
End ValidatorFacts.

(** C2: validating [null] against a schema node that is neither a
    reference nor a union adds no error (and no warning), whatever type the
    node declares. *)
Theorem null_accepted_by_any_declared_type
    (stack : nat) (kv : list (string * value)) (spec : value) (path : string)
    (errors warnings : list string) :
  plainSchema (JObj kv) →
  HealthCheck.validateValueAgainstSchema (S stack) JNull (JObj kv) spec path
    errors warnings = Return (errors, warnings).
Proof.
  intros (Href & HoneOf & HanyOf & HallOf).
  cbn [HealthCheck.validateValueAgainstSchema].
  unfold HealthCheck.validateBody. cbn [js_field bind].
  rewrite Href, HoneOf, HanyOf, HallOf. cbn [orb HealthCheck.getTypeOf].
  destruct (truthy (js_get (JObj kv) "type") && _); [done|].
  cbn [bind js_typeof]. by rewrite !andb_false_r.
Qed.

Lemma null_accepted_by_any_declared_type_witness :
  plainSchema (JObj [("type", JStr "string")]) ∧
  HealthCheck.validateValueAgainstSchema 1 JNull (JObj [("type", JStr "string")])
    (JObj []) "body" [] [] = Return ([], []).
Proof.
  assert (H : plainSchema (JObj [("type", JStr "string")])) by (by repeat split).
  split; [exact H|].
  exact (null_accepted_by_any_declared_type 0 _ (JObj []) "body" [] [] H).
Defined.

(** C3: for a node declaring [oneOf] or [anyOf], every alternative is
    checked with fresh collectors of its own; the caller's error list comes
    back untouched, and its warning list gains exactly one entry when there
    is at least one alternative and none of them checks without error. *)
Theorem union_checked_leniently
    (stack : nat) (value : value) (kv : list (string * JS.value))
    (spec : JS.value) (path : string) (errors warnings : list string)
    (alts : list JS.value) :
  truthy (js_get (JObj kv) "$ref") = false →
  js_or (js_get (JObj kv) "oneOf") (js_get (JObj kv) "anyOf") = JArr alts →
  Forall (λ s, ∃ c, HealthCheck.validateValueAgainstSchema stack value s spec
                      path [] [] = Return c) alts →
  HealthCheck.validateValueAgainstSchema (S stack) value (JObj kv) spec path
    errors warnings =
  Return (errors,
          if existsb (alternativeAccepts stack value spec path) alts
             || Nat.eqb (length alts) 0
          then warnings
          else warnings ++ [noBranchWarning path]).
Proof.
  intros Href Halts Hret.
  cbn [HealthCheck.validateValueAgainstSchema].
  unfold HealthCheck.validateBody. cbn [js_field bind]. rewrite Href.
  assert (Hsel : truthy (js_get (JObj kv) "oneOf")
                 || truthy (js_get (JObj kv) "anyOf") = true
               ∧ js_or (js_get (JObj kv) "oneOf")
                   (js_or (js_get (JObj kv) "anyOf") (JArr [])) = JArr alts).
  { revert Halts. unfold js_or.
    destruct (truthy (js_get (JObj kv) "oneOf")); [done|].
    intros ->. done. }
  destruct Hsel as [-> ->].
  rewrite (someM_existsb _ (alternativeAccepts stack value spec path)).
  - cbn [bind]. destruct (existsb _ alts); simpl.
    + done.
    + destruct alts; done.
  - eapply Forall_impl; [exact Hret|]. intros s [[es ws] Hs].
    unfold alternativeAccepts. by rewrite Hs.
Qed.

Lemma union_checked_leniently_witness :
  HealthCheck.validateValueAgainstSchema 2 (JBool true)
    (JObj [("oneOf", JArr [JObj [("type", JStr "string")];
                           JObj [("type", JStr "number")]])])
    (JObj []) "body" [] [] =
  Return ([], ["body: value doesn't match any of the expected schemas"]).
Proof.
  refine (union_checked_leniently 1 (JBool true) _ (JObj []) "body" [] []
            [JObj [("type", JStr "string")]; JObj [("type", JStr "number")]]
            _ _ _).
  - reflexivity.
  - reflexivity.
  - repeat constructor; eexists; vm_compute; reflexivity.
Defined.

Lemma obj_has_same_keys {A} (k : string) (kv1 kv2 : list (string * A)) :
  obj_keys kv1 = obj_keys kv2 → obj_has k kv1 = obj_has k kv2.
Proof.
  intros Hkeys. apply eq_true_iff_eq. by rewrite !obj_has_keys, Hkeys.
Qed.

(** The validator reads a schema node only through its fields, and of
    [additionalProperties] only whether it is truthy. *)
Lemma validateBody_reads_fields recurse value (kv kv' : list (string * JS.value))
    spec path errors warnings :
  (∀ k, k ≠ "additionalProperties" → js_get (JObj kv) k = js_get (JObj kv') k) →
  truthy (js_get (JObj kv) "additionalProperties")
    = truthy (js_get (JObj kv') "additionalProperties") →
  HealthCheck.validateBody recurse value (JObj kv) spec path errors warnings
  = HealthCheck.validateBody recurse value (JObj kv') spec path errors warnings.
Proof.
  intros Hget Hap. unfold HealthCheck.validateBody. cbn [js_field].
  rewrite Hap.
  rewrite (Hget "$ref"), (Hget "oneOf"), (Hget "anyOf"), (Hget "allOf"),
    (Hget "type"), (Hget "items"), (Hget "properties"), (Hget "required")
    by done.
  reflexivity.
Qed.

(** On a plain schema node with a truthy [additionalProperties], an object
    value is read only through the keys the node declares or requires: two
    objects that have the same required keys and the same entries under
    the declared ones are validated alike. *)
Lemma validate_reads_declared_keys
    (stack : nat) (kv : list (string * value)) (spec : value) (path : string)
    (errors warnings : list string) (obj1 obj2 : list (string * value)) :
  truthy (js_get (JObj kv) "additionalProperties") = true →
  plainSchema (JObj kv) →
  (∀ reqs req, js_iter (js_get (JObj kv) "required") = Return reqs →
               req ∈ reqs →
               obj_has (js_to_string req) obj1 = obj_has (js_to_string req) obj2) →
  (∀ key, key ∈ js_keys (js_get (JObj kv) "properties") →
          obj_get key obj1 = obj_get key obj2) →
  HealthCheck.validateValueAgainstSchema stack (JObj obj1) (JObj kv) spec
    path errors warnings
  = HealthCheck.validateValueAgainstSchema stack (JObj obj2) (JObj kv) spec
      path errors warnings.
Proof.
  intros Hap (Href & HoneOf & HanyOf & HallOf) Hrequired Hdecl.
  destruct stack as [|stack]; [done|].
  cbn [HealthCheck.validateValueAgainstSchema].
  unfold HealthCheck.validateBody. cbn [js_field bind].
  rewrite Href, HoneOf, HanyOf, HallOf, Hap.
  cbn [orb HealthCheck.getTypeOf js_typeof negb bind].
  destruct (truthy (js_get (JObj kv) "type") && _); [done|].
  destruct (is_str "object" (js_get (JObj kv) "type") && _ && _ && _); [|done].
  assert (Hreq : ∀ c,
    (if truthy (js_get (JObj kv) "required")
     then let* reqs := js_iter (js_get (JObj kv) "required") in
          forEachM (λ req (c : HealthCheck.collectors),
            if negb (js_has (JObj obj1) (js_to_string req))
            then Return (c.1 ++ [path +:+ ": missing required field '"
                                   +:+ js_to_string req +:+ "'"], c.2)
            else Return c) reqs c
     else Return c)
    = (if truthy (js_get (JObj kv) "required")
       then let* reqs := js_iter (js_get (JObj kv) "required") in
            forEachM (λ req (c : HealthCheck.collectors),
              if negb (js_has (JObj obj2) (js_to_string req))
              then Return (c.1 ++ [path +:+ ": missing required field '"
                                     +:+ js_to_string req +:+ "'"], c.2)
              else Return c) reqs c
       else Return c)).
  { intros c. destruct (truthy (js_get (JObj kv) "required")); [|done].
    destruct (js_iter _) as [reqs|] eqn:Ereqs; [|done]. cbn [bind].
    apply forEachM_ext. intros req st Hin. cbn [js_has].
    by rewrite (Hrequired reqs req). }
  rewrite Hreq. destruct (if truthy (js_get (JObj kv) "required") then _ else _)
    as [c2|]; [|done].
  cbn [bind].
  rewrite (forEachM_ext _
    (λ '(key, propSchema) (c : HealthCheck.collectors),
       if js_has (JObj obj2) key
       then HealthCheck.validateValueAgainstSchema stack
              (js_get (JObj obj2) key) propSchema spec
              (path +:+ "." +:+ key) c.1 c.2
       else Return c)); [done|].
  intros [key propSchema] st Hin. cbn [js_has js_get]. unfold obj_has.
  rewrite (Hdecl key); [done|].
  unfold js_keys. apply list_elem_of_fmap. by exists (key, propSchema).
Qed.

(** C9: when [additionalProperties] is itself a schema node, it is never
    used as one.  (1) The validator's outcome is the one it has with
    [additionalProperties: true].  (2) On a plain schema node with a truthy
    [additionalProperties], two object values with the same keys that agree
    on every declared property are validated alike, whichever way the
    values under the undeclared keys differ: those values are not
    inspected.  (3) On such a node, an undeclared key (one that is not
    listed as required either) can be taken out of the object value
    without any change to the errors and warnings that come back: its
    presence contributes no error and no warning. *)
Theorem additionalProperties_schema_never_applied
    (stack : nat) (kv : list (string * value)) (spec : value) (path : string)
    (errors warnings : list string) :
  truthy (js_get (JObj kv) "additionalProperties") = true →
  (∀ value,
     HealthCheck.validateValueAgainstSchema stack value (JObj kv) spec path
       errors warnings
     = HealthCheck.validateValueAgainstSchema stack value
         (js_set (JObj kv) "additionalProperties" (JBool true)) spec path
         errors warnings) ∧
  (plainSchema (JObj kv) →
   ∀ obj1 obj2 : list (string * value),
     obj_keys obj1 = obj_keys obj2 →
     (∀ key, key ∈ js_keys (js_get (JObj kv) "properties") →
             obj_get key obj1 = obj_get key obj2) →
     HealthCheck.validateValueAgainstSchema stack (JObj obj1) (JObj kv) spec
       path errors warnings
     = HealthCheck.validateValueAgainstSchema stack (JObj obj2) (JObj kv) spec
         path errors warnings) ∧
  (plainSchema (JObj kv) →
   ∀ (obj : list (string * value)) (undeclared : string),
     undeclared ∉ js_keys (js_get (JObj kv) "properties") →
     (∀ reqs, js_iter (js_get (JObj kv) "required") = Return reqs →
              undeclared ∉ js_to_string <$> reqs) →
     HealthCheck.validateValueAgainstSchema stack (JObj obj) (JObj kv) spec
       path errors warnings
     = HealthCheck.validateValueAgainstSchema stack
         (JObj (obj_delete undeclared obj)) (JObj kv) spec path
         errors warnings).
Proof.
  intros Hap. split; [|split].
  - intros value. destruct stack as [|stack]; [done|].
    cbn [HealthCheck.validateValueAgainstSchema js_set].
    apply validateBody_reads_fields.
    + intros k Hk. cbn [js_get]. by rewrite obj_get_set_ne.
    + rewrite Hap. cbn [js_get]. by rewrite obj_get_set_eq.
  - intros Hplain obj1 obj2 Hkeys Hdecl.
    apply validate_reads_declared_keys; try done.
    intros reqs req _ _. by apply obj_has_same_keys.
  - intros Hplain obj undeclared Hundeclared Hrequired.
    apply validate_reads_declared_keys; try done.
    + intros reqs req Hreqs Hreq. unfold obj_has.
      rewrite obj_get_delete_ne; [done|].
      intros ->. apply (Hrequired reqs Hreqs).
      apply list_elem_of_fmap. by exists req.
    + intros key Hkey. rewrite obj_get_delete_ne; [done|].
      by intros ->.
Qed.

(** ** Termination of the validator *)

(** A depth that suffices for each element suffices, at their maximum, for
    all of them. *)
Lemma common_depth {A} (R : nat → A → Prop) (xs : list A) :
  (∀ x, x ∈ xs → ∃ d, ∀ n, d ≤ n → R n x) →
  ∃ d, ∀ n, d ≤ n → ∀ x, x ∈ xs → R n x.
Proof.
  induction xs as [|x xs IH]; intros H.
  - exists 0. intros n _ x Hx. by apply elem_of_nil in Hx.
  - destruct (H x) as [d1 Hd1]; [by left|].
    destruct IH as [d2 Hd2]; [intros y Hy; apply H; by right|].
    exists (d1 `max` d2). intros n Hn y [->|Hy]%elem_of_cons.
    + apply Hd1. lia.
    + apply Hd2; [lia | done].
Qed.

Lemma vsize_elem (x : value) (l : list value) :
  x ∈ l → vsize x < vsize (JArr l).
Proof.
  cbn [vsize]. induction 1 as [x l|x y l _ IH]; cbn [foldr]; lia.
Qed.

Lemma vsize_entry (k : string) (x : value) (kv : list (string * value)) :
  obj_get k kv = Some x → vsize x < vsize (JObj kv).
Proof.
  cbn [vsize]. induction kv as [|[k0 v0] kv IH]; cbn [obj_get foldr]; [done|].
  destruct (String.eqb k0 k).
  - intros [= ->]. simpl. lia.
  - intros H%IH. simpl. lia.
Qed.

Lemma indexed_values {A} (i : N) (xs : list A) (p : string * A) :
  p ∈ indexed i xs → p.2 ∈ xs.
Proof.
  revert i. induction xs as [|x xs IH]; intros i; cbn [indexed].
  - by intros ?%elem_of_nil.
  - intros [->|H]%elem_of_cons; [by left|]. right. by eapply IH.
Qed.

Lemma obj_get_elem {A} (k : string) (x : A) (kv : list (string * A)) :
  obj_get k kv = Some x → (k, x) ∈ kv.
Proof.
  induction kv as [|[k0 v0] kv IH]; cbn [obj_get]; [done|].
  destruct (String.eqb_spec k0 k) as [->|_].
  - intros [= ->]. by left.
  - intros H. right. by apply IH.
Qed.

(** Reading a property the value has yields a strictly smaller value. *)
Lemma vsize_get (v : value) (k : string) :
  js_has v k = true → vsize (js_get v k) < vsize v.
Proof.
  destruct v as [| | | | |l|kv]; cbn [js_has js_get]; try done.
  - intros _. destruct (String.eqb k "length"); [cbn; lia|].
    destruct (array_index k) as [i|]; [|cbn; lia].
    destruct (l !! N.to_nat i) as [x|] eqn:E; [|cbn; lia].
    apply list_elem_of_lookup_2 in E. by apply vsize_elem.
  - intros [x Hx]%obj_has_get. rewrite Hx. by eapply vsize_entry.
Qed.

Section ValidatorTermination.
Import HealthCheck.
Variable spec : value.
Variable node : value → Prop.
Variable rank : value → nat.
Hypothesis nodes_ok : ∀ s, node s → nodeOk spec node rank s.

Lemma sameValueSteps_descend (s : value) :
  node s → Forall (descends node rank s) (sameValueSteps spec s).
Proof.
  intros Hnode.
  destruct (nodes_ok s Hnode) as [_ Href Hunion HallOf _ _ _ _].
  unfold sameValueSteps.
  destruct (truthy (js_get s "$ref")).
  { destruct Href as (_ & t & -> & Ht); [done|].
    destruct (truthy t); [|done]. constructor; auto. }
  destruct (truthy (js_get s "oneOf") || truthy (js_get s "anyOf")).
  { destruct Hunion as (alts & -> & Hdown); done. }
  destruct (truthy (js_get s "allOf")); [|done].
  destruct HallOf as (subs & -> & Hdown); done.
Qed.

(** One activation, given that the calls it makes return. *)
Lemma validate_step (stack : nat) (value s : JS.value) :
  node s →
  (∀ t, t ∈ sameValueSteps spec s → validates spec stack value t) →
  (∀ elems item, value = JArr elems → item ∈ elems →
                 truthy (js_get s "items") = true →
                 validates spec stack item (js_get s "items")) →
  (∀ p, p ∈ js_entries (js_get s "properties") →
        js_has value p.1 = true →
        validates spec stack (js_get value p.1) p.2) →
  validates spec (S stack) value s.
Proof.
  intros Hnode Hdesc Hitems Hprops path errors warnings.
  destruct (nodes_ok s Hnode)
    as [[kv ->] Href Hunion HallOf _ Hproperties Hrequired _].
  cbn [validateValueAgainstSchema]. unfold validateBody. cbn [js_field bind].
  unfold sameValueSteps in Hdesc.
  destruct (truthy (js_get (JObj kv) "$ref")) eqn:Eref.
  { destruct Href as (_ & t & Ht & _); [done|]. rewrite Ht in Hdesc |- *.
    cbn [bind]. destruct (truthy t) eqn:Et; [|by eauto].
    apply Hdesc. by left. }
  destruct (truthy (js_get (JObj kv) "oneOf") || truthy (js_get (JObj kv) "anyOf"))
    eqn:Eunion.
  { destruct Hunion as (alts & Halts & _); [done|]. rewrite Halts in Hdesc.
    assert (Hsel : js_or (js_get (JObj kv) "oneOf")
                     (js_or (js_get (JObj kv) "anyOf") (JArr [])) = JArr alts).
    { revert Halts Eunion. unfold js_or.
      destruct (truthy (js_get (JObj kv) "oneOf")); [done|].
      cbn [orb]. by intros -> ->. }
    rewrite Hsel.
    rewrite (someM_existsb _ (alternativeAccepts stack value spec path)).
    - cbn [bind]. destruct (negb _ && _); eauto.
    - apply Forall_forall. intros alt Halt.
      destruct (Hdesc alt Halt path [] []) as (es & ws & Hs).
      unfold alternativeAccepts. by rewrite Hs. }
  destruct (truthy (js_get (JObj kv) "allOf")) eqn:EallOf.
  { destruct HallOf as (subs & Hsubs & _); [done|].
    rewrite Hsubs in Hdesc |- *. cbn [js_iter bind].
    destruct (forEachM_returns
      (λ s (c : collectors), validateValueAgainstSchema stack value s spec
                               path c.1 c.2) subs (errors, warnings))
      as [[es ws] Hr]; [|by eauto].
    intros sub [es ws] Hsub.
    destruct (Hdesc sub Hsub path es ws) as (es' & ws' & Hs).
    by eexists. }
  destruct (truthy (js_get (JObj kv) "type") && _).
  { destruct (negb _); eauto. }
  assert (Hc1 : ∃ c1,
    match value with
    | JArr elems =>
        if is_str "array" (js_get (JObj kv) "type")
           && truthy (js_get (JObj kv) "items")
        then forEachM (λ '(index, item) (c : collectors),
               validateValueAgainstSchema stack item (js_get (JObj kv) "items")
                 spec (path +:+ "[" +:+ index +:+ "]") c.1 c.2)
               (indexed 0 elems) (errors, warnings)
        else Return (errors, warnings)
    | _ => Return (errors, warnings)
    end = Return c1).
  { destruct value as [| | | | |elems|]; try by eexists.
    destruct (is_str "array" _ && truthy (js_get (JObj kv) "items")) eqn:Earr;
      [|by eexists].
    apply andb_prop in Earr as [_ Eitems].
    apply forEachM_returns. intros [index item] [es ws] Hin.
    apply indexed_values in Hin.
    destruct (Hitems elems item eq_refl Hin Eitems
                (path +:+ "[" +:+ index +:+ "]") es ws) as (es' & ws' & Hs).
    by eexists. }
  destruct Hc1 as [c1 ->]. cbn [bind].
  destruct (is_str "object" (js_get (JObj kv) "type") && _ && _
            && truthy (js_get (JObj kv) "properties")) eqn:Eobj;
    [|destruct c1; by eauto].
  apply andb_prop in Eobj as [_ Eprops].
  destruct Hproperties as (props & Hprops_eq & Hprops_nodes); [done|].
  assert (Hc2 : ∃ c2,
    (if truthy (js_get (JObj kv) "required")
     then let* reqs := js_iter (js_get (JObj kv) "required") in
          forEachM (λ req (c : collectors),
            if negb (js_has value (js_to_string req))
            then Return (c.1 ++ [path +:+ ": missing required field '"
                                   +:+ js_to_string req +:+ "'"], c.2)
            else Return c) reqs c1
     else Return c1) = Return c2).
  { destruct (truthy (js_get (JObj kv) "required")) eqn:Ereq; [|by eexists].
    destruct Hrequired as (reqs & -> & _); [done|]. cbn [js_iter bind].
    apply forEachM_returns. intros req st _. destruct (negb _); by eexists. }
  destruct Hc2 as [c2 ->]. cbn [bind].
  destruct (forEachM_returns
    (λ '(key, propSchema) (c : collectors),
       if js_has value key
       then validateValueAgainstSchema stack (js_get value key) propSchema
              spec (path +:+ "." +:+ key) c.1 c.2
       else Return c)
    (js_entries (js_get (JObj kv) "properties")) c2) as [c3 ->].
  { intros [key propSchema] [es ws] Hin.
    destruct (js_has value key) eqn:Ehas; [|by eexists].
    destruct (Hprops (key, propSchema) Hin Ehas (path +:+ "." +:+ key) es ws)
      as (es' & ws' & Hs).
    by eexists. }
  cbn [bind]. destruct (negb _); [|destruct c3; by eauto].
  destruct (forEachM_returns
    (λ key (c : collectors),
       let* declared := js_in key (js_get (JObj kv) "properties") in
       if negb declared
       then Return (c.1, c.2 ++ [path +:+ "." +:+ key
              +:+ ": field not defined in schema (may be undocumented)"])
       else Return c) (js_keys value) c3) as [[es ws] ->]; [|by eauto].
  intros key st _. rewrite Hprops_eq. cbn [js_in bind].
  destruct (negb _); by eexists.
Qed.

(** C1, as the code has it: relative to a document whose schema nodes
    have the shape of the [Schema] interface ([type] a type name or a list
    of type names, [required] a list of names, [$ref] a pointer whose walk
    stays inside the document) and whose [$ref] / [oneOf] / [anyOf] /
    [allOf] steps are well founded, the validator returns an error list
    and a warning list for every value and every schema node, as soon as
    the call stack is deep enough; it does not throw. *)
Theorem validator_total_on_well_founded_schemas (value schema : JS.value) :
  node schema →
  ∃ depth, ∀ stack, depth ≤ stack → validates spec stack value schema.
Proof.
  remember (vsize value) as n eqn:Hn. revert value Hn schema.
  induction n as [n IHvalue] using lt_wf_ind. intros value -> schema.
  remember (rank schema) as m eqn:Hm. revert schema Hm.
  induction m as [m IHrank] using lt_wf_ind. intros schema -> Hnode.
  destruct (common_depth (λ n t, validates spec n value t)
              (sameValueSteps spec schema)) as [d1 Hd1].
  { intros t Ht.
    pose proof (sameValueSteps_descend schema Hnode) as Hdown.
    rewrite Forall_forall in Hdown. destruct (Hdown t Ht) as [Hnt Hrt].
    by eapply IHrank. }
  destruct (common_depth
              (λ n item, truthy (js_get schema "items") = true →
                         validates spec n item (js_get schema "items"))
              (match value with JArr elems => elems | _ => [] end))
    as [d2 Hd2].
  { intros item Hitem.
    destruct (truthy (js_get schema "items")) eqn:Eitems.
    - destruct (IHvalue (vsize item)) with (value := item)
        (schema := js_get schema "items") as [d Hd]; try done.
      + destruct value; try by apply elem_of_nil in Hitem.
        by apply vsize_elem.
      + by apply (node_items _ _ _ _ (nodes_ok schema Hnode)).
      + exists d. auto.
    - exists 0. done. }
  destruct (common_depth
              (λ n (p : string * JS.value),
                 js_has value p.1 = true →
                 validates spec n (js_get value p.1) p.2)
              (js_entries (js_get schema "properties"))) as [d3 Hd3].
  { intros p Hp.
    destruct (js_has value p.1) eqn:Ehas; [|by exists 0].
    destruct (IHvalue (vsize (js_get value p.1))) with
      (value := js_get value p.1) (schema := p.2) as [d Hd]; try done.
    + by apply vsize_get.
    + destruct (truthy (js_get schema "properties")) eqn:Eprops.
      * destruct (node_properties _ _ _ _ (nodes_ok schema Hnode) Eprops)
          as (props & Hprops & Hnodes).
        rewrite Hprops in Hp. cbn [js_entries] in Hp.
        rewrite Forall_forall in Hnodes. by apply Hnodes.
      * destruct (js_get schema "properties") as [| |[]|z|str| |];
          try done; cbn [js_entries] in Hp; try by apply elem_of_nil in Hp.
        cbn in Eprops. apply negb_false_iff, String.eqb_eq in Eprops as ->.
        by apply elem_of_nil in Hp.
    + exists d. auto. }
  exists (S (d1 `max` (d2 `max` d3))). intros [|stack] Hstack; [lia|].
  apply validate_step; [done|..].
  - intros t Ht. apply Hd1; [lia | done].
  - intros elems item -> Hitem Eitems. apply Hd2; [lia | done | done].
  - intros p Hp Ehas. apply Hd3; [lia | done | done].
Qed.
End ValidatorTermination.

Lemma pointerSpec_nodes_ok (s : value) :
  pointerNode s → nodeOk pointerSpec pointerNode pointerRank s.
Proof.
  intros [-> | ->].
  - split; try (intros H; vm_compute in H; discriminate H).
    + by eexists.
    + intros _. split; [reflexivity|].
      exists stringSchema. split; [reflexivity|].
      intros _. split; [by right | cbn; lia].
  - split; try (intros H; vm_compute in H; discriminate H).
    + by eexists.
    + intros _. left. by eexists.
Defined.

Lemma validator_total_on_well_founded_schemas_witness :
  ∃ depth, ∀ stack, depth ≤ stack →
    validates pointerSpec stack (JNum 5) pointerSchema.
Proof.
  apply (validator_total_on_well_founded_schemas pointerSpec pointerNode
           pointerRank pointerSpec_nodes_ok (JNum 5) pointerSchema).
  by left.
Defined.

(** C1 fails as stated: on a pointer chain that cycles back to itself the
    validator never returns.  Nothing in it bounds the depth, so every
    activation makes the next one until the engine's stack is exhausted. *)
Lemma validator_overflows_on_ref_cycle :
  ¬ ∃ stack c,
      HealthCheck.validateValueAgainstSchema stack JNull selfRefSchema
        selfRefSpec "body" [] [] = Return c.
Proof.
  intros (stack & c & H). induction stack as [|stack IH].
  - discriminate H.
  - apply IH. exact H.
Qed.

(** ** Index keys are written in digits *)

Lemma pretty_N_go_digits (x : N) (s : string) :
  all_digits s = true → all_digits (pretty_N_go x s) = true.
Proof.
  revert s. induction (N.lt_wf_0 x) as [x _ IH]. intros s Hs.
  destruct (decide (x = 0)%N) as [->|Hx]; [by rewrite pretty_N_go_0|].
  rewrite pretty_N_go_step by lia. apply IH.
  - apply N.div_lt; lia.
  - cbn [all_digits]. rewrite Hs, andb_true_r.
    assert (Hlt : (x `mod` 10 < 10)%N) by (apply N.mod_lt; lia).
    destruct (x `mod` 10)%N as [|p]; [done|].
    do 4 (destruct p as [p|p|]; try done); lia.
Qed.

Lemma pretty_N_digits (x : N) : all_digits (pretty x) = true.
Proof.
  unfold pretty, pretty_N. case_decide; [done|]. by apply pretty_N_go_digits.
Qed.

Lemma indexed_keys_digits {A} (i : N) (xs : list A) (k : string) :
  k ∈ (indexed i xs).*1 → all_digits k = true.
Proof.
  revert i. induction xs as [|x xs IH]; intros i; cbn.
  - by intros ?%elem_of_nil.
  - intros [->|H]%elem_of_cons; [apply pretty_N_digits | by eapply IH].
Qed.

(** The keys of anything but a plain object are array indices. *)
Lemma js_keys_digits (v : value) (k : string) :
  (∀ kv, v ≠ JObj kv) → k ∈ js_keys v → all_digits k = true.
Proof.
  intros Hv. unfold js_keys.
  destruct v; cbn [js_entries]; try (by intros ?%elem_of_nil).
  - apply indexed_keys_digits.
  - apply indexed_keys_digits.
  - by destruct (Hv kv).
Qed.

(** ** Response-code normalization (tools/patch.ts) *)

Section Normalization.
Import Patch.

Lemma renameTarget_spec (code : string) (r : string * string) :
  renameTarget code = Some r → r.1 = code ∧ renamePair r.
Proof.
  unfold renameTarget, renamePair, compositeCodes, canonicalCodes.
  destruct (String.eqb_spec code "401/403") as [->|_].
  { intros [= <-]. cbn. set_solver. }
  destruct (String.eqb_spec code "4xx/5xx") as [->|_].
  { intros [= <-]. cbn. set_solver. }
  destruct (String.eqb_spec code "4xx") as [->|_].
  { intros [= <-]. cbn. set_solver. }
  destruct (String.eqb_spec code "5xx") as [->|_]; [|done].
  intros [= <-]. cbn. set_solver.
Qed.

Lemma composite_cases (P : string → Prop) :
  P "401/403" → P "4xx/5xx" → P "4xx" → P "5xx" →
  ∀ code, code ∈ compositeCodes → P code.
Proof.
  intros ???? code. unfold compositeCodes.
  rewrite !elem_of_cons, elem_of_nil. intros [->|[->|[->|[->|[]]]]]; done.
Qed.

Lemma renameTarget_composite (code : string) :
  code ∈ compositeCodes → ∃ new, renameTarget code = Some (code, new).
Proof.
  revert code.
  apply (composite_cases (λ code, ∃ new, renameTarget code = Some (code, new)));
    by eexists.
Qed.

Lemma keysToRename_pairs (responses : value) :
  Forall renamePair (keysToRename responses).
Proof.
  apply Forall_forall. intros r. unfold keysToRename.
  rewrite list_elem_of_omap. intros (code & _ & Hr).
  by apply renameTarget_spec in Hr as [_ ?].
Qed.

Lemma keysToRename_covers (responses : value) (code : string) :
  code ∈ compositeCodes → code ∈ js_keys responses →
  code ∈ (keysToRename responses).*1.
Proof.
  intros [new Hnew]%renameTarget_composite Hkey.
  apply list_elem_of_fmap. exists (code, new). split; [done|].
  unfold keysToRename. rewrite list_elem_of_omap. eauto.
Qed.

Lemma keysToRename_none (responses : value) :
  (∀ code, code ∈ compositeCodes → code ∉ js_keys responses) →
  keysToRename responses = [].
Proof.
  intros Hnone. destruct (keysToRename responses) as [|r rest] eqn:E; [done|].
  assert (Hr : r ∈ keysToRename responses) by (rewrite E; by left).
  unfold keysToRename in Hr. apply list_elem_of_omap in Hr as (code & Hcode & Hr).
  apply renameTarget_spec in Hr as [<- [Hc _]]. by destruct (Hnone _ Hc).
Qed.

Lemma composite_not_canonical (k : string) :
  k ∈ compositeCodes → k ∈ canonicalCodes → False.
Proof.
  revert k. apply (composite_cases (λ k, k ∈ canonicalCodes → False));
    unfold canonicalCodes; rewrite !elem_of_cons, elem_of_nil;
    intros [?|[?|[]]]; discriminate.
Qed.

Lemma composite_not_digits (k : string) :
  k ∈ compositeCodes → all_digits k = false.
Proof. revert k. by apply (composite_cases (λ k, all_digits k = false)). Qed.

Lemma js_has_keys (v : value) (k : string) :
  k ∈ compositeCodes → js_has v k = true → k ∈ js_keys v.
Proof.
  intros Hk. destruct v as [| | | | |l|kv]; cbn [js_has]; try done.
  - revert k Hk.
    by apply (composite_cases
                (λ k, js_has (JArr l) k = true → k ∈ js_keys (JArr l))).
  - intros H. by apply obj_has_keys.
Qed.

Lemma js_keys_has (v : value) (k : string) :
  k ∈ compositeCodes → k ∈ js_keys v → js_has v k = true.
Proof.
  intros Hk Hin. destruct v as [| | | | |l|kv];
    try (apply js_keys_digits in Hin; [|done];
         by rewrite composite_not_digits in Hin).
  by apply obj_has_keys.
Qed.

Lemma js_get_set_ne (o : value) k k' v :
  k ≠ k' → js_get (js_set o k v) k' = js_get o k'.
Proof. intros ?. destruct o; try done. cbn. by rewrite obj_get_set_ne. Qed.


(** One rename: a composite key other than the renamed one is present
    afterwards exactly when it was before; the renamed one is gone. *)
Lemma renameKey_has (r : value) (p : string * string) (code : string) :
  renamePair p → code ∈ compositeCodes →
  js_has (renameKey r p) code = js_has r code && negb (String.eqb p.1 code).
Proof.
  destruct p as [old new]. intros [Hold Hnew] Hcode. cbn [fst snd] in *.
  assert (Hne : new ≠ code).
  { intros ->. by eapply composite_not_canonical. }
  unfold renameKey.
  destruct r as [| | | | |l|kv];
    try (by destruct (negb (truthy _))).
  - assert (Hl : js_has (JArr l) code = false).
    { revert code Hcode Hne.
      by apply (composite_cases
                  (λ code, new ≠ code → js_has (JArr l) code = false)). }
    destruct (negb _); cbn [js_set js_delete]; by rewrite Hl.
  - assert (Hdel : ∀ kv', js_has (js_delete (JObj kv') old) code
                          = js_has (JObj kv') code && negb (String.eqb old code)).
    { intros kv'. cbn. unfold obj_has.
      destruct (String.eqb_spec old code) as [->|Hoc].
      - by rewrite obj_get_delete_eq, andb_false_r.
      - by rewrite obj_get_delete_ne, andb_true_r. }
    destruct (negb (truthy _)); cbn [js_set]; rewrite Hdel; [|done].
    cbn. unfold obj_has. by rewrite obj_get_set_ne.
Qed.

Lemma renames_keep_absent (pairs : list (string * string)) (r : value) code :
  Forall renamePair pairs → code ∈ compositeCodes →
  js_has r code = false → js_has (foldl renameKey r pairs) code = false.
Proof.
  intros Hpairs Hcode. revert r.
  induction Hpairs as [|p pairs Hp _ IH]; intros r Hr; cbn [foldl]; [done|].
  apply IH. by rewrite renameKey_has, Hr.
Qed.

Lemma renames_remove (pairs : list (string * string)) (r : value) code :
  Forall renamePair pairs → code ∈ compositeCodes →
  code ∈ pairs.*1 → js_has (foldl renameKey r pairs) code = false.
Proof.
  intros Hpairs Hcode. revert r.
  induction Hpairs as [|p pairs Hp Hrest IH]; intros r; cbn [foldl fmap list_fmap].
  - by intros ?%elem_of_nil.
  - intros [->|Hin]%elem_of_cons; [|by apply IH].
    apply renames_keep_absent; [done..|].
    by rewrite renameKey_has, String.eqb_refl, andb_false_r.
Qed.



(** The responses the operation holds after the pass. *)
Lemma normalized_responses (operation : value) :
  js_get (normalizeResponseCodes operation) "responses"
  = foldl renameKey (js_get operation "responses")
      (keysToRename (js_get operation "responses")).
Proof.
  unfold normalizeResponseCodes.
  destruct (truthy (js_get operation "responses")) eqn:E; cbn [negb].
  - destruct operation as [| | | | |l|kv]; try done. cbn.
    by rewrite obj_get_set_eq.
  - assert (keysToRename (js_get operation "responses") = []) as ->; [|done].
    by destruct (js_get operation "responses") as [| |[]| |[]| |].
Qed.

Lemma obj_replace_same {A} (k : string) (v : A) (kv : list (string * A)) :
  obj_get k kv = Some v → obj_replace k v kv = kv.
Proof.
  induction kv as [|[k0 v0] kv IH]; cbn; [done|].
  destruct (String.eqb k0 k); [by intros [= ->] | intros ?; by rewrite IH].
Qed.

(** Without composite keys the pass changes nothing. *)
Lemma normalize_noop (operation : value) :
  (∀ code, code ∈ compositeCodes →
           js_has (js_get operation "responses") code = false) →
  normalizeResponseCodes operation = operation.
Proof.
  intros Hnone. unfold normalizeResponseCodes.
  destruct (truthy (js_get operation "responses")) eqn:E; cbn [negb]; [|done].
  rewrite keysToRename_none.
  - cbn [foldl]. destruct operation as [| | | | |l|kv]; try done.
    cbn in *. unfold obj_set, obj_has.
    destruct (obj_get "responses" kv) as [r|] eqn:Er; [|done].
    cbn. by rewrite obj_replace_same.
  - intros code Hcode Hin. apply js_keys_has in Hin; [|done].
    by rewrite Hnone in Hin.
Qed.






Lemma normalized_has_no_composite (operation : value) (code : string) :
  code ∈ compositeCodes →
  js_has (js_get (normalizeResponseCodes operation) "responses") code = false.
Proof.
  intros Hcode. rewrite normalized_responses.
  destruct (js_has (js_get operation "responses") code) eqn:E.
  - apply renames_remove; [apply keysToRename_pairs | done |].
    apply keysToRename_covers; [done|]. by apply js_has_keys.
  - by apply renames_keep_absent; [apply keysToRename_pairs|..].
Qed.
End Normalization.



(** ** OperationId backfill (tools/patch.ts) *)
Section Backfill.
Import Patch.

Lemma filterParameters_returns (ps : list value) :
  Forall (λ p, ∃ kv, p = JObj kv) ps → ∃ ps', filterParameters ps = Return ps'.
Proof.
  induction 1 as [|p ps [kv ->] _ [ps' IH]]; cbn; [by eexists|].
  rewrite IH. cbn. by eexists.
Qed.

Lemma removeInternalHeaders_returns (okv : list (string * value)) :
  operationShape (JObj okv) →
  ∃ okv', removeInternalHeaders (JObj okv) = Return (JObj okv')
          ∧ ∀ k, k ≠ "parameters" → js_get (JObj okv') k = js_get (JObj okv) k.
Proof.
  intros [Hparams _]. unfold removeInternalHeaders.
  destruct (truthy (js_get (JObj okv) "parameters")); [|by eexists].
  destruct Hparams as (ps & -> & Hps); [done|].
  destruct (filterParameters_returns ps Hps) as [ps' ->]. cbn [bind js_assign].
  eexists. split; [done|]. intros k Hk.
  exact (js_get_set_ne (JObj okv) "parameters" k _ (not_eq_sym Hk)).
Qed.

Lemma normalizeResponseCodes_fields (okv : list (string * value)) :
  ∃ okv', normalizeResponseCodes (JObj okv) = JObj okv'
          ∧ ∀ k, k ≠ "responses" → js_get (JObj okv') k = js_get (JObj okv) k.
Proof.
  unfold normalizeResponseCodes. destruct (negb _); [by eexists|].
  eexists. split; [done|]. intros k Hk.
  exact (js_get_set_ne (JObj okv) "responses" k _ (not_eq_sym Hk)).
Qed.

Lemma methodPrefix_nonempty (method rest : string) :
  method ∈ METHODS → truthy (JStr (methodPrefix method +:+ rest)) = true.
Proof.
  unfold METHODS. rewrite !elem_of_cons, elem_of_nil.
  intros [->|[->|[->|[->|[->|[]]]]]]; done.
Qed.
End Backfill.

(** The identifier [patchOperation] leaves on an operation. *)
Lemma patchOperation_identifier
    (okv : list (string * value)) (path method : string) :
  operationShape (JObj okv) →
  ∃ patched,
    Patch.patchOperation (JObj okv) path method = Return patched ∧
    js_get patched "operationId"
    = (if truthy (js_get (JObj okv) "operationId")
       then js_get (JObj okv) "operationId"
       else JStr (Patch.methodPrefix method
                    +:+ Patch.capitalize (Patch.baseName path))) ∧
    (method ∈ Patch.METHODS → truthy (js_get patched "operationId") = true).
Proof.
  intros Hshape. unfold Patch.patchOperation.
  destruct (removeInternalHeaders_returns okv Hshape) as (okv1 & -> & H1).
  cbn [bind].
  destruct (normalizeResponseCodes_fields okv1) as (okv2 & -> & H2).
  assert (Hid2 : js_get (JObj okv2) "operationId" = js_get (JObj okv) "operationId").
  { by rewrite H2, H1. }
  assert (Hbody2 : js_get (JObj okv2) "requestBody" = js_get (JObj okv) "requestBody").
  { by rewrite H2, H1. }
  set (id := if truthy (js_get (JObj okv) "operationId")
             then js_get (JObj okv) "operationId"
             else JStr (Patch.methodPrefix method
                          +:+ Patch.capitalize (Patch.baseName path))).
  assert (H3 : ∃ okv3,
    (if negb (truthy (js_get (JObj okv2) "operationId"))
     then js_assign (JObj okv2) "operationId"
            (JStr (Patch.generatedOperationId path method))
     else Return (JObj okv2)) = Return (JObj okv3)
    ∧ js_get (JObj okv3) "operationId" = id
    ∧ js_get (JObj okv3) "requestBody" = js_get (JObj okv) "requestBody").
  { rewrite Hid2. subst id.
    destruct (truthy (js_get (JObj okv) "operationId")); cbn [negb].
    - exists okv2. by rewrite Hbody2.
    - exists (obj_set "operationId"
                (JStr (Patch.generatedOperationId path method)) okv2).
      split; [done|]. split.
      + cbn. by rewrite obj_get_set_eq.
      + rewrite <- Hbody2. cbn. by rewrite obj_get_set_ne. }
  destruct H3 as (okv3 & -> & Hid3 & Hbody3). cbn [bind].
  assert (Htruthy : method ∈ Patch.METHODS → truthy id = true).
  { intros Hm. subst id.
    destruct (truthy (js_get (JObj okv) "operationId")) eqn:E; [done|].
    by apply methodPrefix_nonempty. }
  destruct (truthy (js_get (JObj okv3) "requestBody") && _) eqn:Ebody.
  - apply andb_prop in Ebody as [Ebody _]. rewrite Hbody3 in Ebody |- *.
    destruct Hshape as [_ Hrb]. destruct (Hrb Ebody) as [bkv ->].
    cbn [js_assign bind]. eexists. split; [done|].
    rewrite (js_get_set_ne (JObj okv3)) by done. by rewrite Hid3.
  - eexists. split; [done|]. by rewrite Hid3.
Qed.

(** C7, as the code has it: the pass returns the operation with an
    identifier.  An identifier that is there is kept.  An operation
    without one gets the method-derived prefix followed by the
    concatenation of the path's non-parameter segments with its first
    character in upper case (stated for a first character in ASCII, where
    upper-casing is the letters a to z).  Either way the patched operation
    under one of the five methods has a non-empty identifier. *)
Theorem patchOperation_backfills_operationId
    (okv : list (string * value)) (path method : string) :
  operationShape (JObj okv) →
  identifierShape (JObj okv) →
  ∃ patched,
    Patch.patchOperation (JObj okv) path method = Return patched ∧
    (truthy (js_get (JObj okv) "operationId") = true →
     js_get patched "operationId" = js_get (JObj okv) "operationId") ∧
    (truthy (js_get (JObj okv) "operationId") = false →
     asciiHead (Patch.baseName path) →
     js_get patched "operationId"
     = JStr (Patch.methodPrefix method
               +:+ Patch.capitalize (Patch.baseName path))) ∧
    (method ∈ Patch.METHODS → truthy (js_get patched "operationId") = true).
Proof.
  intros Hshape _.
  destruct (patchOperation_identifier okv path method Hshape)
    as (patched & Hrun & Hid & Hnonempty).
  exists patched. split; [exact Hrun|]. split; [|split; [|exact Hnonempty]].
  - intros Hthere. by rewrite Hid, Hthere.
  - intros Habsent _. by rewrite Hid, Habsent.
Qed.

Lemma patchOperation_backfills_operationId_witness :
  ∃ patched,
    Patch.patchOperation (JObj [("responses", JObj [])]) "/apps/{appId}" "get"
    = Return patched
    ∧ js_get patched "operationId" = JStr "getApps"
    ∧ truthy (js_get patched "operationId") = true.
Proof.
  destruct (patchOperation_backfills_operationId
              [("responses", JObj [])] "/apps/{appId}" "get")
    as (patched & Hrun & _ & Hfresh & Hnonempty).
  - split; intros H; vm_compute in H; discriminate H.
  - intros H. vm_compute in H. discriminate H.
  - exists patched. split; [exact Hrun|]. split.
    + apply Hfresh; [reflexivity|]. vm_compute. lia.
    + apply Hnonempty. unfold Patch.METHODS. by left.
Defined.

(** C7 fails as stated: the segments are concatenated as they are and only
    the first character of the result is put in upper case, so a path with
    two non-parameter segments does not come out in PascalCase. *)
Lemma backfill_is_not_pascal_case :
  ∃ patched,
    Patch.patchOperation (JObj [("responses", JObj [])])
      "/apps/{appId}/events" "get" = Return patched
    ∧ js_get patched "operationId" = JStr "getAppsevents"
    ∧ specOperationId "/apps/{appId}/events" "get" = "getAppsEvents".
Proof. eexists. split; [|split]; reflexivity. Qed.

(** ** Pointer validation (tools/validate.ts) *)
Section Pointers.
Import Validate.

Lemma refs_add_elem (r r' : string) (refs : list string) :
  r' ∈ refs_add r refs ↔ r' = r ∨ r' ∈ refs.
Proof.
  unfold refs_add. destruct (existsb (String.eqb r) refs) eqn:E.
  - split; [by right|]. intros [->|?]; [|done].
    apply existsb_exists in E as (x & Hx & ->%String.eqb_eq).
    by apply list_elem_of_In.
  - rewrite elem_of_app, list_elem_of_singleton. tauto.
Qed.

Lemma collectRefs_obj (kv : list (string * value)) (refs : list string) :
  collectRefs (JObj kv) refs
  = foldl (λ acc p, collectRefs p.2 acc)
      (match obj_get "$ref" kv with
       | Some (JStr r) => refs_add r refs
       | _ => refs
       end) kv.
Proof.
  cbn [collectRefs].
  generalize (match obj_get "$ref" kv with
              | Some (JStr r) => refs_add r refs
              | _ => refs
              end).
  induction kv as [|[k v] kv IH]; intros acc; cbn; [done|]. apply IH.
Qed.

Lemma collectRefs_arr (l : list value) (refs : list string) :
  collectRefs (JArr l) refs = foldl (λ acc v, collectRefs v acc) refs l.
Proof.
  cbn [collectRefs]. revert refs.
  induction l as [|v l IH]; intros acc; cbn; [done|]. apply IH.
Qed.

Lemma collect_each {A} (proj : A → value) (xs : list A) :
  (∀ x, x ∈ xs → ∀ acc r,
     r ∈ collectRefs (proj x) acc ↔ r ∈ acc ∨ reachableRef (proj x) r) →
  ∀ acc r,
    r ∈ foldl (λ acc x, collectRefs (proj x) acc) acc xs
    ↔ r ∈ acc ∨ ∃ x, x ∈ xs ∧ reachableRef (proj x) r.
Proof.
  induction xs as [|x xs IH]; intros Hxs acc r; cbn [foldl].
  - split; [by left|]. intros [?|(x & ?%elem_of_nil & _)]; done.
  - rewrite IH by (intros y Hy; apply Hxs; by right).
    rewrite (Hxs x) by left. split.
    + intros [[?|?]|(y & Hy & ?)]; [by left| |].
      * right. exists x. split; [by left | done].
      * right. exists y. split; [by right | done].
    + intros [?|(y & [->|Hy]%elem_of_cons & ?)]; [by left; left| |].
      * left. by right.
      * right. by exists y.
Qed.

Lemma vsize_member (k : string) (x : value) (kv : list (string * value)) :
  (k, x) ∈ kv → vsize x < vsize (JObj kv).
Proof.
  induction kv as [|[k0 v0] kv IH]; [by intros ?%elem_of_nil|].
  intros [[= <- <-]|H]%elem_of_cons; [cbn; lia|].
  apply IH in H. cbn in *. lia.
Qed.

(** [collectRefs] gathers exactly the reachable pointers. *)
Lemma collectRefs_reachable (v : value) (acc : list string) (r : string) :
  r ∈ collectRefs v acc ↔ r ∈ acc ∨ reachableRef v r.
Proof.
  remember (vsize v) as n eqn:Hn. revert v Hn acc r.
  induction n as [n IH] using lt_wf_ind. intros v -> acc r.
  destruct v as [| | | | |l|kv];
    try (cbn; split; [by left | intros [?|H]; [done | inversion H]]).
  - rewrite collectRefs_arr, (collect_each id).
    + split; intros [?|H]; try by left.
      * destruct H as (x & Hx & Hr). right. by eapply reach_elem.
      * right. inversion H; subst. by eexists.
    + intros x Hx acc' r'. eapply IH; [|done]. by apply vsize_elem.
  - rewrite collectRefs_obj, (collect_each snd).
    + assert (Hhere : ∀ r0,
        r0 ∈ match obj_get "$ref" kv with
             | Some (JStr r1) => refs_add r1 acc
             | _ => acc
             end ↔ r0 ∈ acc ∨ obj_get "$ref" kv = Some (JStr r0)).
      { intros r0. destruct (obj_get "$ref" kv) as [[| | | |r1| |]|];
          try (split; [by left | intros [?|?]; done]).
        rewrite refs_add_elem. split.
        - intros [->|?]; [by right | by left].
        - intros [?|[= ->]]; [by right | by left]. }
      rewrite Hhere. split.
      * intros [[?|?]|((k & x) & Hx & Hr)]; [by left| |].
        -- right. by apply reach_here.
        -- right. by eapply reach_field.
      * intros [?|H]; [by left; left|]. inversion H; subst.
        -- left. by right.
        -- right. by eexists (_, _).
    + intros [k x] Hx acc' r'. eapply IH; [|done]. by eapply vsize_member.
Qed.

Lemma str_replace_prefix (pat rep s rest : string) :
  str_strip_prefix pat s = Some rest → str_replace pat rep s = rep +:+ rest.
Proof. intros H. destruct s; cbn [str_replace]; by rewrite H. Qed.

(** The loop over the collected pointers, pointer by pointer. *)
Lemma checkRef_missing schemas parameters result ref :
  componentPointerMissing schemas parameters ref = true →
  checkRef schemas parameters result ref
  = mkResult false (errors result ++ [unresolved ref]) (warnings result)
      (stats result).
Proof.
  unfold componentPointerMissing, checkRef, startsWith.
  destruct (str_strip_prefix "#/components/schemas/" ref) as [name|] eqn:E1.
  { rewrite (str_replace_prefix _ "" _ _ E1). change ("" +:+ name) with name.
    by intros ->. }
  destruct (str_strip_prefix "#/components/parameters/" ref) as [name|] eqn:E2;
    [|done].
  rewrite (str_replace_prefix _ "" _ _ E2). change ("" +:+ name) with name. by intros ->.
Qed.

Lemma checkRef_present schemas parameters result ref :
  componentPointerMissing schemas parameters ref = false →
  errors (checkRef schemas parameters result ref) = errors result
  ∧ valid (checkRef schemas parameters result ref) = valid result.
Proof.
  unfold componentPointerMissing, checkRef, startsWith.
  destruct (str_strip_prefix "#/components/schemas/" ref) as [name|] eqn:E1.
  { rewrite (str_replace_prefix _ "" _ _ E1). change ("" +:+ name) with name.
    by intros ->. }
  destruct (str_strip_prefix "#/components/parameters/" ref) as [name|] eqn:E2.
  { rewrite (str_replace_prefix _ "" _ _ E2). change ("" +:+ name) with name.
    by intros ->. }
  intros _. by destruct (negb _).
Qed.

Lemma checkRefs_errors schemas parameters refs result :
  errors (foldl (checkRef schemas parameters) result refs)
  = errors result
    ++ (unresolved <$> List.filter (componentPointerMissing schemas parameters) refs)
  ∧ valid (foldl (checkRef schemas parameters) result refs)
    = valid result
      && forallb (λ r, negb (componentPointerMissing schemas parameters r)) refs.
Proof.
  revert result. induction refs as [|ref refs IH]; intros result; cbn.
  - by rewrite app_nil_r, andb_true_r.
  - destruct (IH (checkRef schemas parameters result ref)) as [-> ->].
    destruct (componentPointerMissing schemas parameters ref) eqn:E.
    + rewrite checkRef_missing by done. cbn.
      by rewrite <- app_assoc, andb_false_r.
    + destruct (checkRef_present schemas parameters result ref E) as [-> ->].
      done.
Qed.

Lemma unresolved_inj (r1 r2 : string) : unresolved r1 = unresolved r2 → r1 = r2.
Proof. unfold unresolved. cbn. by intros [=]. Qed.
End Pointers.

Section PointerReport.
Import Validate.

Lemma str_strip_prefix_app (p1 p2 s : string) :
  str_strip_prefix (p1 +:+ p2) s
  = match str_strip_prefix p1 s with
    | Some rest => str_strip_prefix p2 rest
    | None => None
    end.
Proof.
  revert s. induction p1 as [|c p1 IH]; intros s.
  - change ("" +:+ p2) with p2. done.
  - change (String c p1 +:+ p2) with (String c (p1 +:+ p2)).
    destruct s as [|d s]; [done|]. cbn [str_strip_prefix].
    destruct (Ascii.eqb c d); [apply IH | done].
Qed.

Lemma checkRef_warnings schemas parameters result ref :
  (∀ w, w ∈ warnings result → w ∈ warnings (checkRef schemas parameters result ref))
  ∧ (externalPointer ref = true →
     externalWarning ref ∈ warnings (checkRef schemas parameters result ref)).
Proof.
  unfold checkRef, externalPointer, startsWith.
  destruct (str_strip_prefix "#/" ref) as [rest|] eqn:E0; cbn [negb].
  - split; [|done]. intros w Hw.
    destruct (str_strip_prefix "#/components/schemas/" ref);
      [by destruct (negb _)|].
    destruct (str_strip_prefix "#/components/parameters/" ref);
      [by destruct (negb _)|done].
  - assert (str_strip_prefix "#/components/schemas/" ref = None) as ->.
    { change "#/components/schemas/" with ("#/" +:+ "components/schemas/").
      by rewrite str_strip_prefix_app, E0. }
    assert (str_strip_prefix "#/components/parameters/" ref = None) as ->.
    { change "#/components/parameters/" with ("#/" +:+ "components/parameters/").
      by rewrite str_strip_prefix_app, E0. }
    cbn. split.
    + intros w Hw. apply elem_of_app. by left.
    + intros _. apply elem_of_app. right. by left.
Qed.

Lemma checkRefs_warnings schemas parameters refs result ref :
  ref ∈ refs → externalPointer ref = true →
  externalWarning ref ∈ warnings (foldl (checkRef schemas parameters) result refs).
Proof.
  assert (Hkeep : ∀ refs result w,
    w ∈ warnings result →
    w ∈ warnings (foldl (checkRef schemas parameters) result refs)).
  { clear. induction refs as [|r refs IH]; intros result w Hw; cbn; [done|].
    apply IH. by apply checkRef_warnings. }
  revert result. induction refs as [|r refs IH]; intros result.
  - by intros ?%elem_of_nil.
  - intros [->|Hin]%elem_of_cons Hext; cbn.
    + apply Hkeep. by apply checkRef_warnings.
    + by apply IH.
Qed.
End PointerReport.

(** C5, as the code has it: of the pointers reachable from [paths] or
    [components], those into [components.schemas] or
    [components.parameters] are reported as errors exactly when the entry
    they name is missing, and the document is marked invalid exactly when
    there is such a pointer; a pointer that leaves the document is reported
    as a warning.  The check of a pointer is the lookup of its name in the
    section, so the statement is about documents in which these lookups
    find what the document holds: the two sections are plain objects and
    no pointer names a member every object inherits ([constructor],
    [toString], ...) unless the section has an entry of that name. *)
Theorem validateRefs_reports_missing_component_entries
    (skv : list (string * value)) (result : Validate.ValidationResult) :
  let spec := JObj skv in
  let schemas := js_or (js_opt (js_get spec "components") "schemas") (JObj []) in
  let parameters :=
    js_or (js_opt (js_get spec "components") "parameters") (JObj []) in
  let reachable ref :=
    reachableRef (js_get spec "paths") ref
    ∨ reachableRef (js_get spec "components") ref in
  let missing ref :=
    reachable ref ∧ componentPointerMissing schemas parameters ref = true in
  (∀ ref, reachable ref → componentLookupOwn schemas parameters ref = true) →
  ∃ result',
    Validate.validateRefs spec result = Return result' ∧
    (∀ ref, Validate.unresolved ref ∈ Validate.errors result'
            ↔ Validate.unresolved ref ∈ Validate.errors result ∨ missing ref) ∧
    (Validate.valid result' = false
     ↔ Validate.valid result = false ∨ ∃ ref, missing ref) ∧
    (∀ ref, reachable ref → externalPointer ref = true →
            externalWarning ref ∈ Validate.warnings result').
Proof.
  intros spec schemas parameters reachable missing _.
  unfold Validate.validateRefs. cbn [js_field bind]. fold spec.
  fold schemas parameters.
  set (refs := Validate.collectRefs (js_get spec "components")
                 (Validate.collectRefs (js_get spec "paths") [])).
  assert (Hrefs : ∀ ref, ref ∈ refs ↔ reachable ref).
  { intros ref. unfold refs, reachable. rewrite !collectRefs_reachable.
    rewrite elem_of_nil. tauto. }
  set (result1 := Validate.mkResult (Validate.valid result)
                    (Validate.errors result) (Validate.warnings result)
                    (Validate.mkStats
                       (Validate.stat_paths (Validate.stats result))
                       (Validate.stat_operations (Validate.stats result))
                       (length (js_keys schemas)) (length (js_keys parameters)))).
  exists (foldl (Validate.checkRef schemas parameters) result1 refs).
  split; [reflexivity|].
  destruct (checkRefs_errors schemas parameters refs result1) as [Herr Hvalid].
  split; [|split].
  - intros ref. rewrite Herr. cbn [Validate.errors]. rewrite elem_of_app.
    rewrite list_elem_of_fmap. unfold missing. split.
    + intros [?|(r & ->%unresolved_inj & Hr)]; [by left|]. right.
      apply list_elem_of_In, filter_In in Hr as [Hr ?].
      split; [|done]. by apply Hrefs, list_elem_of_In.
    + intros [?|[Hr Hm]]; [by left|]. right. exists ref. split; [done|].
      apply list_elem_of_In, filter_In. split; [|done].
      by apply list_elem_of_In, Hrefs.
  - rewrite Hvalid. cbn [Validate.valid]. rewrite andb_false_iff.
    unfold missing. split.
    + intros [?|Hall]; [by left|]. right.
      apply not_true_iff_false in Hall. rewrite forallb_forall in Hall.
      destruct (existsb (componentPointerMissing schemas parameters) refs) eqn:E.
      * apply existsb_exists in E as (r & Hr & Hm). exists r.
        split; [|done]. by apply Hrefs, list_elem_of_In.
      * destruct Hall. intros r Hr. apply negb_true_iff.
        destruct (componentPointerMissing schemas parameters r) eqn:Hm; [|done].
        assert (existsb (componentPointerMissing schemas parameters) refs = true)
          as Hex by (apply existsb_exists; eauto).
        by rewrite E in Hex.
    + intros [?|(r & Hr & Hm)]; [by left|]. right.
      apply not_true_iff_false. rewrite forallb_forall. intros Hall.
      specialize (Hall r). rewrite Hm in Hall.
      discriminate Hall. by apply list_elem_of_In, Hrefs.
  - intros ref Hr Hext. apply checkRefs_warnings; [|done]. by apply Hrefs.
Qed.

Lemma validateRefs_reports_missing_component_entries_witness :
  ∃ result',
    Validate.validateRefs danglingRefSpec emptyResult = Return result'
    ∧ Validate.errors result' = ["Unresolved $ref: #/components/schemas/Gone"]
    ∧ Validate.valid result' = false.
Proof.
  destruct (validateRefs_reports_missing_component_entries
              [("paths",
                 JObj [("/apps",
                         JObj [("get", JObj [("$ref", JStr "#/components/schemas/App")]);
                               ("post", JObj [("$ref", JStr "#/components/schemas/Gone")])])]);
               ("components",
                 JObj [("schemas", JObj [("App", JObj [("type", JStr "object")])])])]
              emptyResult) as (result' & Hrun & _).
  { intros ref Hreach.
    assert (Hin : ref ∈ Validate.collectRefs (js_get danglingRefSpec "components")
                          (Validate.collectRefs (js_get danglingRefSpec "paths") [])).
    { rewrite !collectRefs_reachable. destruct Hreach; tauto. }
    change (ref ∈ ["#/components/schemas/App"; "#/components/schemas/Gone"])
      in Hin.
    rewrite !elem_of_cons, elem_of_nil in Hin.
    destruct Hin as [->|[->|[]]]; reflexivity. }
  exists result'. split; [exact Hrun|].
  vm_compute in Hrun. injection Hrun as <-. split; reflexivity.
Defined.

(** C5 fails as stated: a pointer that leaves the document names no entry
    of [components], yet it is reported as a warning only; no error is
    recorded and the document stays valid. *)
Lemma external_pointer_is_not_an_error :
  reachableRef (js_get externalRefSpec "paths") "common.yaml#/Ok"
  ∧ resolvesToComponent externalRefSpec "common.yaml#/Ok" = false
  ∧ Validate.validateRefs externalRefSpec emptyResult
    = Return (Validate.mkResult true []
                ["External $ref (not validated): common.yaml#/Ok"]
                (Validate.mkStats 0 0 0 0)).
Proof.
  split; [|split; reflexivity].
  assert (H : "common.yaml#/Ok"
              ∈ Validate.collectRefs (js_get externalRefSpec "paths") []).
  { vm_compute. by left. }
  by apply collectRefs_reachable in H as [?%elem_of_nil|?].
Qed.

(** ** Conversion and resolution (tools/convert.ts, tools/health-check.ts) *)
Section RoundTrip.
Import Convert HealthCheck.

Lemma strip_own_prefix (pat rest : string) :
  str_strip_prefix pat (pat +:+ rest) = Some rest.
Proof.
  induction pat as [|c pat IH]; [done|].
  change (String c pat +:+ rest) with (String c (pat +:+ rest)).
  cbn [str_strip_prefix]. by rewrite Ascii.eqb_refl.
Qed.

(** What [convertSchemaRef] returns is never the absence signal. *)
Lemma convertSchemaRef_present (stack : nat) (schema v : value) :
  convertSchemaRef stack schema = Return v → present v.
Proof.
  destruct stack as [|stack]; [done|]. cbn [convertSchemaRef].
  unfold convertSchemaRefBody.
  destruct schema as [| | | | | |kv]; cbn [js_field bind]; try done;
    try (by intros [= <-]).
  destruct (js_get (JObj kv) "$ref") as [| | | |[|c r]| |];
  repeat match goal with
  | |- Return _ = Return _ → _ => by intros [= <-]
  | |- bind ?c _ = Return _ → _ => destruct c; cbn [bind]; [|done]
  | |- (if ?b then _ else _) = Return _ → _ => destruct b
  | |- context [js_get (JObj kv) ?k] =>
      lazymatch goal with
      | |- context [match js_get (JObj kv) k with _ => _ end] =>
          destruct (js_get (JObj kv) k)
      end
  end.
Qed.

(** The loop that fills [components.schemas]. *)
Lemma definitions_converted (stack : nat) (entries : list (string * value))
    (acc acc' : list (string * value)) :
  forEachM (λ '(name, schema) acc,
    let* schema' := convertSchemaRef stack schema in
    Return (obj_set name schema' acc)) entries acc = Return acc' →
  (∀ k v, obj_get k acc = Some v → present v) →
  (∀ k v, obj_get k acc' = Some v → present v)
  ∧ (∀ k, (obj_has k acc = true ∨ k ∈ entries.*1) → obj_has k acc' = true).
Proof.
  revert acc. induction entries as [|[name schema] entries IH]; intros acc.
  - cbn. intros [= <-] Hacc. split; [done|].
    intros k [?|?%elem_of_nil]; done.
  - cbn [forEachM].
    destruct (convertSchemaRef stack schema) as [schema'|] eqn:E; [|done].
    cbn [bind]. intros Hrest Hacc.
    destruct (IH _ Hrest) as [Hpresent Hhas].
    { intros k v. destruct (decide (name = k)) as [->|Hne].
      - rewrite obj_get_set_eq. intros [= <-].
        by eapply convertSchemaRef_present.
      - rewrite obj_get_set_ne by done. apply Hacc. }
    split; [done|]. intros k Hk. apply Hhas.
    destruct Hk as [Hk|[->|Hk]%elem_of_cons]; [left|left|by right].
    + unfold obj_has in *. destruct (decide (name = k)) as [->|Hne].
      * by rewrite obj_get_set_eq.
      * by rewrite obj_get_set_ne.
    + unfold obj_has. by rewrite obj_get_set_eq.
Qed.

Lemma str_split_slashFree (name : string) :
  slashFree name = true → str_split "/" name = [name].
Proof.
  induction name as [|c name IH]; cbn; [done|].
  destruct (Ascii.eqb c "/"); [done|]. cbn. intros H. by rewrite IH.
Qed.

Lemma str_split_app (a b : string) :
  slashFree a = true →
  str_split "/" (a +:+ String "/" b) = a :: str_split "/" b.
Proof.
  induction a as [|c a IH].
  - done.
  - change (String c a +:+ String "/" b) with (String c (a +:+ String "/" b)).
    cbn [slashFree str_split]. destruct (Ascii.eqb c "/"); [done|].
    cbn [negb andb]. intros H. by rewrite IH.
Qed.

(** The parts [resolveRef] walks for a rewritten pointer. *)
Lemma rewritten_pointer_parts (name : string) :
  slashFree name = true →
  str_split "/"
    (str_replace "#/" ""
       (str_replace "#/definitions/" "#/components/schemas/"
          ("#/definitions/" +:+ name)))
  = ["components"; "schemas"; name].
Proof.
  intros Hname.
  rewrite (str_replace_prefix "#/definitions/" _ _ name) by apply strip_own_prefix.
  change ("#/components/schemas/" +:+ name)
    with ("#/" +:+ ("components/schemas/" +:+ name)).
  rewrite (str_replace_prefix "#/" _ _ ("components/schemas/" +:+ name))
    by apply strip_own_prefix.
  change ("" +:+ ("components/schemas/" +:+ name))
    with ("components" +:+ String "/" ("schemas" +:+ String "/" name)).
  rewrite str_split_app by done. rewrite str_split_app by done.
  by rewrite str_split_slashFree.
Qed.
End RoundTrip.

(** C6, as the code has it: for every name of the source document's
    [definitions] that does not contain the pointer separator, resolving
    the rewritten pointer against the converted document returns a node,
    not the absence signal. *)
Theorem rewritten_pointer_resolves
    (stack : nat) (swagger doc : value) (name : string) :
  Convert.convertSwaggerToOpenAPI stack swagger = Return doc →
  name ∈ js_keys (js_get swagger "definitions") →
  slashFree name = true →
  ∃ node, HealthCheck.resolveRef (rewrittenPointer name) doc = Return node
          ∧ node ≠ JNull ∧ node ≠ JUndef.
Proof.
  intros Hconv Hname Hslash. unfold Convert.convertSwaggerToOpenAPI in Hconv.
  destruct (js_field swagger "schemes") as [schemes|]; [|done].
  cbn [bind] in Hconv.
  destruct (js_field (js_get swagger "info") "title") as [title|]; [|done].
  cbn [bind] in Hconv.
  match type of Hconv with
  | bind ?c _ = _ => destruct c as [paths|]; [|done]
  end.
  cbn [bind] in Hconv.
  assert (Hdefs : truthy (js_get swagger "definitions") = true).
  { destruct (js_get swagger "definitions") as [| |[]| |[|]| |];
      try done; by apply elem_of_nil in Hname. }
  rewrite Hdefs in Hconv.
  match type of Hconv with
  | bind ?c _ = _ => destruct c as [schemas|] eqn:Hschemas; [|done]
  end.
  cbn [bind] in Hconv. injection Hconv as <-.
  apply definitions_converted in Hschemas as [Hpresent Hhas]; [|done].
  assert (Hin : obj_has name schemas = true) by (apply Hhas; by right).
  apply obj_has_get in Hin as Hget. destruct Hget as [node Hnode].
  exists node. split; [|by eapply Hpresent].
  unfold rewrittenPointer, HealthCheck.resolveRef.
  rewrite rewritten_pointer_parts by done.
  cbn. by rewrite Hin, Hnode.
Qed.

Lemma rewritten_pointer_resolves_witness :
  ∃ node, HealthCheck.resolveRef (rewrittenPointer "Foo")
            (match Convert.convertSwaggerToOpenAPI 3 slashSwagger with
             | Return doc => doc
             | Throw _ => JNull
             end) = Return node
          ∧ node ≠ JNull ∧ node ≠ JUndef.
Proof.
  apply (rewritten_pointer_resolves 3 slashSwagger _ "Foo").
  - reflexivity.
  - vm_compute. set_solver.
  - reflexivity.
Defined.

(** C6 fails as stated: a definition whose name contains the separator is
    in the converted document, but its rewritten pointer is split at that
    separator and resolution falls through to the absence signal. *)
Lemma pointer_with_separator_does_not_resolve :
  "a/b" ∈ js_keys (js_get slashSwagger "definitions")
  ∧ ∃ doc, Convert.convertSwaggerToOpenAPI 3 slashSwagger = Return doc
           ∧ js_has (js_get (js_get doc "components") "schemas") "a/b" = true
           ∧ HealthCheck.resolveRef (rewrittenPointer "a/b") doc = Return JNull.
Proof.
  split; [vm_compute; set_solver|].
  eexists. split; [reflexivity|]. split; reflexivity.
Qed.

(** ** Fixture generation (tools/generate.ts) *)
Section Candidates.
Import Generate.
Variable fixturesRoot : string.

Lemma addCandidates_nil existing acc : addCandidates existing acc [] = acc.
Proof.
  destruct acc as [fxs n]. unfold addCandidates. cbn.
  by rewrite app_nil_r, Nat.add_0_r.
Qed.

Lemma addCandidates_app existing acc cs1 cs2 :
  addCandidates existing (addCandidates existing acc cs1) cs2
  = addCandidates existing acc (cs1 ++ cs2).
Proof.
  unfold addCandidates, keepNew, countOld. cbn.
  rewrite !List.filter_app, length_app, <- app_assoc. f_equal. lia.
Qed.

Lemma emit_candidate existing baseDir fileName content acc :
  emit existing baseDir fileName content acc
  = addCandidates existing acc [mkFixture baseDir fileName content].
Proof.
  unfold emit, addCandidates, keepNew, countOld. cbn.
  destruct (bool_decide (fileName ∈ existing)); cbn.
  - by rewrite app_nil_r, Nat.add_1_r.
  - by rewrite Nat.add_0_r.
Qed.

Lemma emit_each_candidate existing baseDir (name : string → string)
    (content : string → value → value) (entries : list (string * value)) acc :
  foldl (λ acc '(n, ex), emit existing baseDir (name n) (content n ex) acc)
    acc entries
  = addCandidates existing acc
      ((λ '(n, ex), mkFixture baseDir (name n) (content n ex)) <$> entries).
Proof.
  revert acc.
  induction entries as [|[n ex] entries IH]; intros acc;
    cbn [foldl fmap list_fmap].
  - by rewrite addCandidates_nil.
  - rewrite IH, emit_candidate, addCandidates_app. done.
Qed.

Lemma candidatesOf_none baseDir (step : gset string → pending → outcome pending) :
  (∀ existing acc, step existing acc = Return acc) → candidatesOf baseDir step.
Proof.
  intros H. exists (Return []). split; [by intros ? [= <-]|].
  intros existing acc. cbn. by rewrite addCandidates_nil.
Qed.

Lemma candidatesOf_throw baseDir e
    (step : gset string → pending → outcome pending) :
  (∀ existing acc, step existing acc = Throw e) → candidatesOf baseDir step.
Proof. intros H. exists (Throw e). split; [done|]. intros. by rewrite H. Qed.

Lemma responseFixtures_candidates operationId baseDir entry :
  candidatesOf baseDir
    (λ existing, responseFixtures operationId existing baseDir entry).
Proof.
  destruct entry as [statusCode response]. unfold responseFixtures.
  destruct (parseInt statusCode) as [status|]; [|by apply candidatesOf_none].
  destruct (js_field response "content") as [content|e]; cbn [bind];
    [|by apply (candidatesOf_throw _ e)].
  destruct (negb (truthy _)); [by apply candidatesOf_none|].
  destruct (truthy (js_get _ "x-amf-examples")).
  - set (multi := λ existing acc,
      Return (foldl (λ acc '(name, example),
                emit existing baseDir
                  ("response." +:+ pretty status +:+ "."
                     +:+ safeName name +:+ ".json")
                  (responseFixture (JStr name) status
                     (extractExampleValue example)) acc)
                acc (js_entries (js_get
                       (js_opt (js_opt content "application/json") "schema")
                       "x-amf-examples")))).
    assert (Hmulti : candidatesOf baseDir multi).
    { eexists (Return _). split; [intros cs [= <-]|].
      2:{ intros existing acc. unfold multi. cbn [bind]. f_equal.
          apply (emit_each_candidate existing baseDir
            (λ n, "response." +:+ pretty status +:+ "."
                    +:+ safeName n +:+ ".json")
            (λ n ex, responseFixture (JStr n) status (extractExampleValue ex))). }
      apply Forall_fmap, Forall_forall. by intros [n ex] _. }
    destruct (js_entries _) as [|[name example] [|second rest]] eqn:E;
      try exact Hmulti.
    eexists (Return [_]). split; cycle 1.
    + intros existing acc. cbn [bind]. by rewrite emit_candidate.
    + intros cs [= <-]. by repeat constructor.
  - destruct (truthy (js_get _ "example")); [|by apply candidatesOf_none].
    eexists (Return [_]). split; cycle 1.
    + intros existing acc. cbn [bind]. by rewrite emit_candidate.
    + intros cs [= <-]. by repeat constructor.
Qed.

Lemma forEachM_candidates {A} baseDir
    (step : A → gset string → pending → outcome pending) (xs : list A) :
  (∀ x, candidatesOf baseDir (step x)) →
  candidatesOf baseDir (λ existing, forEachM (λ x, step x existing) xs).
Proof.
  intros Hstep. induction xs as [|x xs (ocs & Hdirs & IH)].
  - by apply candidatesOf_none.
  - destruct (Hstep x) as (oc & Hdir & Hx).
    exists (let* cs1 := oc in let* cs2 := ocs in Return (cs1 ++ cs2)).
    split.
    + intros cs. destruct oc as [cs1|]; [|done]. destruct ocs as [cs2|]; [|done].
      intros [= <-]. apply Forall_app. split; auto.
    + intros existing acc. cbn [forEachM]. rewrite Hx.
      destruct oc as [cs1|]; [|done]. cbn [bind]. rewrite IH.
      destruct ocs as [cs2|]; [|done]. cbn [bind].
      by rewrite addCandidates_app.
Qed.

(** What an operation generates is what is new among candidates that do
    not depend on the files that exist. *)
Lemma generateOperationFixtures_candidates operation tag :
  ∃ oc : outcome (list FixtureFile),
    (∀ cs tagLower operationDir, oc = Return cs →
       tag = JStr tagLower →
       toKebabCase (js_get operation "operationId") = Return operationDir →
       Forall (λ f, fx_dir f
                    = path_join (path_join fixturesRoot (toLowerCase tagLower))
                        operationDir) cs) ∧
    ∀ existing,
      generateOperationFixtures fixturesRoot operation tag existing
      = let* cs := oc in
        Return (keepNew existing cs, countOld existing cs).
Proof.
  unfold generateOperationFixtures.
  destruct (toKebabCase (js_get operation "operationId")) as [operationDir|e];
    [|by exists (Throw e)].
  cbn [bind].
  destruct tag as [| | | |t| |]; try (by exists (Throw TypeError)).
  cbn [bind].
  set (baseDir := path_join (path_join fixturesRoot (toLowerCase t)) operationDir).
  set (example := js_opt _ "example").
  set (request := JObj (("_meta", _) :: _)).
  assert (Hreq : ∃ cs0, Forall (λ f, fx_dir f = baseDir) cs0 ∧
    ∀ existing,
      (if truthy example
       then emit existing baseDir "request.json" request ([], 0)
       else ([], 0)) = addCandidates existing ([], 0) cs0).
  { destruct (truthy example).
    - exists [mkFixture baseDir "request.json" request].
      split; [by repeat constructor|].
      intros existing. by rewrite emit_candidate.
    - exists []. split; [done|]. intros. by rewrite addCandidates_nil. }
  destruct Hreq as (cs0 & Hdir0 & Hreq).
  destruct (truthy (js_get operation "responses")).
  - destruct (forEachM_candidates baseDir
      (λ entry existing,
         responseFixtures (js_get operation "operationId") existing baseDir entry)
      (js_entries (js_get operation "responses")))
      as (oc & Hdir & Hloop).
    { intros entry. apply responseFixtures_candidates. }
    exists (let* cs := oc in Return (cs0 ++ cs)). split.
    + intros cs ? ? Hcs [= <-] [= <-]. destruct oc as [cs1|]; [|done].
      injection Hcs as <-. apply Forall_app. split; auto.
    + intros existing. rewrite Hreq, Hloop. destruct oc as [cs1|]; [|done]. cbn [bind].
      by rewrite addCandidates_app.
  - exists (Return cs0). split.
    + by intros cs ? ? [= <-] [= <-] [= <-].
    + intros existing. by rewrite Hreq.
Qed.
End Candidates.

Section AtMostOnce.
Import Generate.
Variable fixturesRoot : string.

Lemma fileAt_writeJson (fs : filesystem) (f : FixtureFile) (dir name : string) :
  fileAt (writeJson fs f) dir name
  = if decide (dir = fx_dir f ∧ name = fx_file f) then Some (fx_content f)
    else fileAt fs dir name.
Proof.
  unfold fileAt, writeJson.
  destruct (decide (dir = fx_dir f)) as [->|Hdir].
  - rewrite lookup_insert_eq. cbn.
    destruct (decide (name = fx_file f)) as [->|Hname].
    + rewrite lookup_insert_eq. by rewrite decide_True.
    + rewrite lookup_insert_ne by done. rewrite decide_False by tauto.
      by destruct (fs !! fx_dir f).
  - rewrite lookup_insert_ne by done. by rewrite decide_False by tauto.
Qed.

Lemma existing_fileAt (fs : filesystem) (dir name : string) :
  name ∈ getExistingFixtures fs dir ↔ is_Some (fileAt fs dir name).
Proof.
  unfold getExistingFixtures, fileAt. destruct (fs !! dir) as [files|]; cbn.
  - apply elem_of_dom.
  - split; [by intros ?%not_elem_of_empty | by intros [? ?]].
Qed.

Lemma keepsFiles_refl fs : keepsFiles fs fs.
Proof. by intros ???. Qed.

Lemma keepsFiles_trans fs1 fs2 fs3 :
  keepsFiles fs1 fs2 → keepsFiles fs2 fs3 → keepsFiles fs1 fs3.
Proof. intros H12 H23 ????. by apply H23, H12. Qed.

Lemma keepsFiles_existing fs fs' dir name :
  keepsFiles fs fs' →
  name ∈ getExistingFixtures fs dir → name ∈ getExistingFixtures fs' dir.
Proof.
  intros Hkeep. rewrite !existing_fileAt. intros [c Hc]. exists c. by apply Hkeep.
Qed.

(** Writing fixtures whose files were not there keeps every file that
    was, and afterwards the written files are there. *)
Lemma writes_keep (fxs : list FixtureFile) (fs0 fs : filesystem) :
  keepsFiles fs0 fs →
  (∀ f, f ∈ fxs → fileAt fs0 (fx_dir f) (fx_file f) = None) →
  keepsFiles fs0 (foldl writeJson fs fxs)
  ∧ (∀ f, f ∈ fxs →
       is_Some (fileAt (foldl writeJson fs fxs) (fx_dir f) (fx_file f)))
  ∧ (∀ dir name, is_Some (fileAt fs dir name) →
       is_Some (fileAt (foldl writeJson fs fxs) dir name)).
Proof.
  revert fs. induction fxs as [|f fxs IH]; intros fs Hkeep Hnew; cbn [foldl].
  - split; [done|]. split; [by intros ? ?%elem_of_nil | done].
  - assert (Hstep : ∀ dir name, is_Some (fileAt fs dir name) →
                                is_Some (fileAt (writeJson fs f) dir name)).
    { intros dir name H. rewrite fileAt_writeJson. by case_decide. }
    destruct (IH (writeJson fs f)) as (Hk & Hw & Hm).
    + intros dir name content Hc. rewrite fileAt_writeJson.
      case_decide as Heq; [|by apply Hkeep]. destruct Heq as [-> ->].
      rewrite Hnew in Hc by left. done.
    + intros g Hg. apply Hnew. by right.
    + split; [done|]. split.
      * intros g [->|Hg]%elem_of_cons; [|by apply Hw].
        apply Hm. rewrite fileAt_writeJson. by rewrite decide_True.
      * intros dir name H. by apply Hm, Hstep.
Qed.

Lemma keepNew_elem existing cs f :
  f ∈ keepNew existing cs ↔ f ∈ cs ∧ fx_file f ∉ existing.
Proof.
  unfold keepNew. rewrite list_elem_of_In, filter_In, <- list_elem_of_In.
  by rewrite negb_true_iff, bool_decide_eq_false.
Qed.

Lemma keepNew_none existing cs :
  (∀ f, f ∈ cs → fx_file f ∈ existing) → keepNew existing cs = [].
Proof.
  intros H. destruct (keepNew existing cs) as [|f rest] eqn:E; [done|].
  assert (Hf : f ∈ keepNew existing cs) by (rewrite E; by left).
  apply keepNew_elem in Hf as [Hf Hnot]. destruct Hnot. by apply H.
Qed.

Lemma generateOperation_atMostOnce (operation : value) :
  atMostOnce (generateOperation fixturesRoot) operation.
Proof.
  intros fs r fs1 r1. unfold generateOperation.
  destruct (toKebabCase (js_get operation "operationId")) as [operationDir|]
    eqn:Edir; [|done].
  cbn [bind].
  set (tag := js_or _ (JStr "misc")).
  destruct tag as [| | | |t| |] eqn:Etag; try done. cbn [bind].
  set (dir := path_join (path_join fixturesRoot (toLowerCase t)) operationDir).
  destruct (generateOperationFixtures_candidates fixturesRoot operation (JStr t))
    as (oc & Hdirs & Hgen).
  rewrite Hgen. destruct oc as [cs|]; [|done]. cbn [bind].
  specialize (Hdirs cs t operationDir eq_refl eq_refl Edir). fold dir in Hdirs.
  rewrite Forall_forall in Hdirs.
  intros [= <- <-].
  destruct (writes_keep (keepNew (getExistingFixtures fs dir) cs) fs fs)
    as (Hkeep & Hwritten & _).
  { apply keepsFiles_refl. }
  { intros f [Hf Hnew]%keepNew_elem. rewrite (Hdirs f Hf).
    rewrite existing_fileAt in Hnew. by apply eq_None_not_Some. }
  split; [done|]. intros fs2 r0 Hkeep2.
  rewrite Hgen. cbn [bind].
  rewrite (keepNew_none (getExistingFixtures fs2 dir) cs).
  - cbn [foldl length Nat.ltb Nat.leb]. eexists. split; [done|].
    cbn. split; [lia | done].
  - intros f Hf. eapply keepsFiles_existing; [exact Hkeep2|].
    apply existing_fileAt.
    destruct (decide (fx_file f ∈ getExistingFixtures fs dir)) as [Hold|Hnew].
    + apply existing_fileAt in Hold as [c Hc]. exists c. by apply Hkeep.
    + assert (Hw : f ∈ keepNew (getExistingFixtures fs dir) cs)
        by (by apply keepNew_elem).
      apply Hwritten in Hw. by rewrite (Hdirs f Hf) in Hw.
Qed.

(** A loop of at-most-once steps is at most once. *)
Lemma forEachM_atMostOnce {X} step (xs : list X) :
  (∀ x, x ∈ xs → atMostOnce step x) →
  atMostOnce (λ xs st, forEachM step xs st) xs.
Proof.
  induction xs as [|x xs IH]; intros Hxs fs r fs1 r1; cbn [forEachM].
  - intros [= <- <-]. split; [apply keepsFiles_refl|].
    intros fs2 r0 _. by exists r0.
  - destruct (step x (fs, r)) as [[fsA rA]|] eqn:Ex; [|done]. cbn [bind].
    intros Hrest.
    destruct (Hxs x (ltac:(by left)) _ _ _ _ Ex) as [HkeepA HagainA].
    destruct (IH (λ y Hy, Hxs y (ltac:(by right))) _ _ _ _ Hrest)
      as [Hkeep1 Hagain1].
    split; [by eapply keepsFiles_trans|].
    intros fs2 r0 Hkeep2.
    destruct (HagainA fs2 r0) as (rB & -> & Hg & Ho).
    { by eapply keepsFiles_trans. }
    cbn [bind]. destruct (Hagain1 fs2 rB Hkeep2) as (r2 & -> & Hg2 & Ho2).
    exists r2. split; [done|]. split; congruence.
Qed.

Lemma generatePathItem_atMostOnce (pathItem : value) :
  atMostOnce (generatePathItem fixturesRoot) pathItem.
Proof.
  unfold generatePathItem.
  apply (forEachM_atMostOnce
    (λ method st,
       let* operation := js_field pathItem method in
       if truthy operation then generateOperation fixturesRoot operation st
       else Return st) Patch.METHODS).
  intros method _ fs r fs1 r1.
  destruct (js_field pathItem method) as [operation|]; [|done]. cbn [bind].
  destruct (truthy operation); [apply generateOperation_atMostOnce|].
  intros [= <- <-]. split; [apply keepsFiles_refl|].
  intros fs2 r0 _. by exists r0.
Qed.
End AtMostOnce.

(** C8, as the code has it: the files of an operation's directory are
    listed once, when the operation is reached.  Of the fixtures the
    operation could generate, those are written whose file name is not in
    that listing, the others being counted as skipped; a run never touches
    a file that was there before it; and a second run right after the
    first writes no file and leaves the files as they are. *)
Theorem fixture_generation_at_most_once
    (fixturesRoot : string) (spec : value) (fs fs1 : Generate.filesystem)
    (r1 : Generate.GenerateResult) :
  Generate.generate fixturesRoot spec fs = Return (fs1, r1) →
  (∀ operation tag, ∃ candidates : outcome (list Generate.FixtureFile),
     ∀ existing,
       Generate.generateOperationFixtures fixturesRoot operation tag existing
       = let* cs := candidates in
         Return (keepNew existing cs, countOld existing cs)) ∧
  keepsFiles fs fs1 ∧
  ∃ r2, Generate.generate fixturesRoot spec fs1 = Return (fs1, r2)
        ∧ Generate.generated r2 = 0 ∧ Generate.operations r2 = [].
Proof.
  intros Hrun. split.
  { intros operation tag.
    destruct (generateOperationFixtures_candidates fixturesRoot operation tag)
      as (oc & _ & Hgen).
    by exists oc. }
  unfold Generate.generate in *.
  destruct (js_field spec "paths") as [paths|]; [|done]. cbn [bind] in *.
  assert (Hloop : ∀ st,
    match paths with
    | JUndef | JNull => Throw TypeError
    | _ => forEachM (Generate.generatePathItem fixturesRoot) (js_values paths) st
    end
    = match paths with
      | JUndef | JNull => Throw TypeError
      | _ => (λ xs st, forEachM (Generate.generatePathItem fixturesRoot) xs st)
               (js_values paths) st
      end) by done.
  destruct (forEachM_atMostOnce (Generate.generatePathItem fixturesRoot)
              (js_values paths)
              (λ x _, generatePathItem_atMostOnce fixturesRoot x)
              fs (Generate.mkGenerated 0 0 []) fs1 r1) as [Hkeep Hagain].
  { by destruct paths. }
  split; [done|].
  destruct (Hagain fs1 (Generate.mkGenerated 0 0 []) (keepsFiles_refl fs1))
    as (r2 & Hr2 & Hg & Ho).
  exists r2. split; [by destruct paths | done].
Qed.

Lemma fixture_generation_at_most_once_witness :
  ∃ fs1 r1,
    Generate.generate "fixtures" sampleSpec ∅ = Return (fs1, r1)
    ∧ Generate.generated r1 = 1
    ∧ ∃ r2, Generate.generate "fixtures" sampleSpec fs1 = Return (fs1, r2)
            ∧ Generate.generated r2 = 0 ∧ Generate.operations r2 = [].
Proof.
  destruct (Generate.generate "fixtures" sampleSpec ∅) as [[fs1 r1]|] eqn:Hrun;
    [|vm_compute in Hrun; discriminate Hrun].
  exists fs1, r1. split; [done|]. split.
  - vm_compute in Hrun. by injection Hrun as <- <-.
  - by destruct (fixture_generation_at_most_once "fixtures" sampleSpec ∅ fs1 r1
                   Hrun) as (_ & _ & Hagain).
Defined.

(** C8 fails as stated: the listing is not brought up to date while the
    fixtures of an operation are produced.  Two examples of one response
    whose names give the same safe name are both handed back, none is
    counted as skipped, and both are written to the same path: the second
    write finds the file the first has just made, and replaces it. *)
Lemma same_name_examples_are_both_written :
  Generate.generateOperationFixtures "fixtures" clashOperation (JStr "Apps") ∅
  = Return ([clashFirst; clashSecond], 0)
  ∧ Generate.fx_dir clashFirst = Generate.fx_dir clashSecond
  ∧ Generate.fx_file clashFirst = Generate.fx_file clashSecond
  ∧ Generate.fx_content clashFirst ≠ Generate.fx_content clashSecond
  ∧ fileAt (Generate.writeJson ∅ clashFirst)
      (Generate.fx_dir clashSecond) (Generate.fx_file clashSecond)
    = Some (Generate.fx_content clashFirst)
  ∧ afterRun (Generate.generate "fixtures" clashSpec ∅)
      (Generate.fx_dir clashSecond) (Generate.fx_file clashSecond)
    = Some (Generate.mkGenerated 2 0 [JStr "getApp"],
            Some (Generate.fx_content clashSecond)).
Proof.
  split; [vm_compute; reflexivity|].
  split; [reflexivity|]. split; [reflexivity|].
  split; [intros H; vm_compute in H; discriminate H|].
  split; vm_compute; reflexivity.
Qed.

Lemma additionalProperties_schema_never_applied_witness :
  let schema :=
    [("type", JStr "object");
     ("properties", JObj [("id", JObj [("type", JStr "string")])]);
     ("additionalProperties", JObj [("type", JStr "number")])] in
  HealthCheck.validateValueAgainstSchema 3
    (JObj [("id", JStr "bck7gp3q2"); ("extra", JStr "not a number")])
    (JObj schema) (JObj []) "body" [] []
  = HealthCheck.validateValueAgainstSchema 3
      (JObj [("id", JStr "bck7gp3q2"); ("extra", JStr "not a number")])
      (js_set (JObj schema) "additionalProperties" (JBool true))
      (JObj []) "body" [] []
  ∧ HealthCheck.validateValueAgainstSchema 3
      (JObj [("id", JStr "bck7gp3q2"); ("extra", JStr "not a number")])
      (JObj schema) (JObj []) "body" [] []
    = HealthCheck.validateValueAgainstSchema 3
        (JObj [("id", JStr "bck7gp3q2"); ("extra", JNum 7)])
        (JObj schema) (JObj []) "body" [] []
  ∧ HealthCheck.validateValueAgainstSchema 3
      (JObj [("id", JStr "bck7gp3q2"); ("extra", JStr "not a number")])
      (JObj schema) (JObj []) "body" [] []
    = HealthCheck.validateValueAgainstSchema 3
        (JObj [("id", JStr "bck7gp3q2")])
        (JObj schema) (JObj []) "body" [] [].
Proof.
  intros schema.
  destruct (additionalProperties_schema_never_applied 3 schema (JObj []) "body"
              [] [] eq_refl) as (Hsame & Hvalues & Hundeclared).
  assert (Hplain : plainSchema (JObj schema)) by (by repeat split).
  split; [apply Hsame|]. split.
  - apply Hvalues.
    + exact Hplain.
    + reflexivity.
    + intros key Hkey. vm_compute in Hkey.
      apply list_elem_of_singleton in Hkey as ->. reflexivity.
  - apply (Hundeclared Hplain
             [("id", JStr "bck7gp3q2"); ("extra", JStr "not a number")] "extra").
    + intros Hkey. vm_compute in Hkey.
      apply list_elem_of_singleton in Hkey. discriminate Hkey.
    + intros reqs Hreqs. vm_compute in Hreqs. discriminate Hreqs.
Defined.



(** ** The backfill over a whole path item *)

(** Writing a property does not change what kind of value the holder is. *)
Lemma js_set_object (o : value) (k : string) (v : value) (kv : list (string * value)) :
  js_set o k v = JObj kv → ∃ kv0, o = JObj kv0.
Proof. destruct o; try done. by eexists. Qed.

Lemma removeInternalHeaders_fields (operation patched : value) :
  Patch.removeInternalHeaders operation = Return patched →
  (∀ k, k ≠ "parameters" → js_get patched k = js_get operation k)
  ∧ (∀ kv, patched = JObj kv → ∃ kv0, operation = JObj kv0).
Proof.
  unfold Patch.removeInternalHeaders.
  destruct (truthy (js_get operation "parameters")).
  - destruct (js_get operation "parameters") as [| | | | |ps|]; try done.
    destruct (Patch.filterParameters ps) as [ps'|]; [|done]. cbn [bind].
    unfold js_assign. destruct operation; try done; intros [= <-].
    + by split.
    + split; [|by eexists]. intros k Hk.
      exact (js_get_set_ne (JObj kv) "parameters" k _ (not_eq_sym Hk)).
  - intros [= <-]. split; [done | by eexists].
Qed.

Lemma normalizeResponseCodes_kind (operation : value) :
  (∀ k, k ≠ "responses" →
        js_get (Patch.normalizeResponseCodes operation) k = js_get operation k)
  ∧ (∀ kv, Patch.normalizeResponseCodes operation = JObj kv →
           ∃ kv0, operation = JObj kv0).
Proof.
  unfold Patch.normalizeResponseCodes. destruct (negb _).
  - split; [done | by eexists].
  - split.
    + intros k Hk. by apply js_get_set_ne.
    + intros kv. apply js_set_object.
Qed.

(** Whenever [patchOperation] hands back an operation object under one of
    the five methods, that operation has a non-empty identifier. *)
Lemma patchOperation_identified (operation : value) (path method : string)
    (kv : list (string * value)) :
  method ∈ Patch.METHODS →
  Patch.patchOperation operation path method = Return (JObj kv) →
  truthy (js_get (JObj kv) "operationId") = true.
Proof.
  intros Hmethod. unfold Patch.patchOperation.
  destruct (Patch.removeInternalHeaders operation) as [op1|] eqn:E1; [|done].
  cbn [bind]. set (op2 := Patch.normalizeResponseCodes op1).
  assert (H3 : ∀ op3,
    (if negb (truthy (js_get op2 "operationId"))
     then js_assign op2 "operationId"
            (JStr (Patch.generatedOperationId path method))
     else Return op2) = Return op3 →
    (∀ kv3, op3 = JObj kv3 → truthy (js_get op3 "operationId") = true)).
  { intros op3. destruct (truthy (js_get op2 "operationId")) eqn:Eid; cbn [negb].
    - by intros [= <-].
    - unfold js_assign. destruct op2; try done; intros [= <-] kv3; [done|].
      intros _. cbn [js_set js_get]. rewrite obj_get_set_eq. cbn [default].
      by apply methodPrefix_nonempty. }
  destruct (if negb (truthy (js_get op2 "operationId")) then _ else _)
    as [op3|]; [|done].
  specialize (H3 op3 eq_refl). cbn [bind].
  destruct (truthy (js_get op3 "requestBody") && _).
  - destruct (js_assign (js_get op3 "requestBody") "required" (JBool true))
      as [body|]; [|done].
    cbn [bind]. intros [= Hset].
    destruct (js_set_object _ _ _ _ Hset) as [kv3 ->].
    rewrite <- Hset, (js_get_set_ne (JObj kv3)) by done. by eapply H3.
  - intros [= ->]. by eapply H3.
Qed.

Lemma js_field_method (item operation : value) (method : string) :
  method ∈ Patch.METHODS → js_field item method = Return operation →
  truthy operation = true → ∃ kv, item = JObj kv.
Proof.
  unfold Patch.METHODS. rewrite !elem_of_cons, elem_of_nil.
  intros [->|[->|[->|[->|[->|[]]]]]];
    destruct item; try done; try (by eexists); by intros [= <-].
Qed.

(** After the loop over a path item, every operation object under one of
    the five methods has a non-empty identifier. *)
Lemma patchPathItem_identified (path : string) (pathItem patched : value) :
  Patch.patchPathItem path pathItem = Return patched →
  ∀ method kv,
    method ∈ Patch.METHODS → js_get patched method = JObj kv →
    truthy (js_get (JObj kv) "operationId") = true.
Proof.
  unfold Patch.patchPathItem.
  assert (Hloop : ∀ (todo done : list string) item,
    (∀ m, m ∈ todo → m ∈ Patch.METHODS) →
    (∀ m, m ∈ todo → m ∉ done) → NoDup todo →
    (∀ m kv, m ∈ done → js_get item m = JObj kv →
             truthy (js_get (JObj kv) "operationId") = true) →
    forEachM (λ method item,
      let* operation := js_field item method in
      if truthy operation then
        let* operation' := Patch.patchOperation operation path method in
        Return (js_set item method operation')
      else Return item) todo item = Return patched →
    ∀ m kv, m ∈ done ++ todo → js_get patched m = JObj kv →
            truthy (js_get (JObj kv) "operationId") = true).
  { induction todo as [|m0 todo IH]; intros done item Hmeth Hfresh Hnodup Hdone.
    - cbn. intros [= <-] m kv. rewrite app_nil_r. apply Hdone.
    - cbn [forEachM]. apply NoDup_cons in Hnodup as [Hm0 Hnodup].
      destruct (js_field item m0) as [operation|] eqn:Eop; [|done]. cbn [bind].
      assert (Hstep : ∀ item',
        (if truthy operation then
           let* operation' := Patch.patchOperation operation path m0 in
           Return (js_set item m0 operation')
         else Return item) = Return item' →
        ∀ m kv, m ∈ done ++ [m0] → js_get item' m = JObj kv →
                truthy (js_get (JObj kv) "operationId") = true).
      { intros item' Hitem' m kv [Hm|Hm%list_elem_of_singleton]%elem_of_app.
        - assert (m0 ≠ m) by (intros ->; by apply (Hfresh m); [left|]).
          destruct (truthy operation).
          + destruct (Patch.patchOperation operation path m0); [|done].
            injection Hitem' as <-. rewrite js_get_set_ne by done. by apply Hdone.
          + injection Hitem' as <-. by apply Hdone.
        - subst m. destruct (truthy operation) eqn:Etruthy.
          + destruct (Patch.patchOperation operation path m0) as [op'|] eqn:Epatch;
              [|done].
            injection Hitem' as <-.
            destruct (js_field_method item operation m0) as [ikv ->];
              [apply Hmeth; by left | done | done |].
            cbn [js_set js_get]. rewrite obj_get_set_eq.
            intros Hop. cbn in Hop. subst op'.
            eapply patchOperation_identified; [|exact Epatch].
            apply Hmeth. by left.
          + injection Hitem' as <-. intros Hget.
            assert (operation = JObj kv) as ->.
            { destruct item; try done; cbn in Eop; by injection Eop as <-. }
            done. }
      destruct (if truthy operation then _ else _) as [item'|]; [|done].
      cbn [bind]. intros Hrest m kv Hm.
      apply (IH (done ++ [m0]) item'); try done.
      + intros m' Hm'. apply Hmeth. by right.
      + intros m' Hm' [?|Hs%list_elem_of_singleton]%elem_of_app;
          [|by subst m'].
        by apply (Hfresh m'); [right|].
      + by apply Hstep.
      + by rewrite <- app_assoc. }
  intros Hrun method kv Hmethod.
  apply (Hloop Patch.METHODS [] pathItem); try done.
  - by intros m _ ?%elem_of_nil.
  - unfold Patch.METHODS.
    repeat (apply NoDup_cons; split;
            [rewrite ?elem_of_cons, elem_of_nil; intros H;
             repeat (destruct H as [H|H]; [discriminate H|]); exact H|]).
    apply NoDup_nil_2.
  - by intros m kv' ?%elem_of_nil.
Qed.

(** ** Worked examples *)

(** Required-field enforcement on the specification's own example. *)
Example required_field_missing :
  HealthCheck.validateValueAgainstSchema 3 (JObj [])
    (JObj [("type", JStr "object");
           ("properties", JObj [("name", JObj [("type", JStr "string")])]);
           ("required", JArr [JStr "name"])])
    (JObj []) "body" [] []
  = Return (["body: missing required field 'name'"], []).
Proof. reflexivity. Qed.

Example required_field_present :
  HealthCheck.validateValueAgainstSchema 3 (JObj [("name", JStr "x")])
    (JObj [("type", JStr "object");
           ("properties", JObj [("name", JObj [("type", JStr "string")])]);
           ("required", JArr [JStr "name"])])
    (JObj []) "body" [] []
  = Return ([], []).
Proof. reflexivity. Qed.

(** [integer] and [number] are one kind for a numeric value; an undeclared
    key is a warning. *)
Example integer_accepts_number_and_unknown_key_warns :
  HealthCheck.validateValueAgainstSchema 3
    (JObj [("id", JNum 7); ("extra", JBool true)])
    (JObj [("type", JStr "object");
           ("properties", JObj [("id", JObj [("type", JStr "integer")])])])
    (JObj []) "body" [] []
  = Return ([], ["body.extra: field not defined in schema (may be undocumented)"]).
Proof. reflexivity. Qed.

(** A new canonical key takes its place among the status codes; of two
    composite keys with the same target the first one wins. *)
Example normalize_orders_and_first_wins :
  Patch.normalizeResponseCodes
    (JObj [("responses",
             JObj [("200", JStr "ok"); ("500", JStr "down");
                   ("401/403", JStr "auth");
                   ("4xx", JStr "client"); ("5xx", JStr "server")])])
  = JObj [("responses",
            JObj [("200", JStr "ok"); ("401", JStr "auth"); ("500", JStr "down");
                  ("default", JStr "client")])].
Proof. reflexivity. Qed.

Example kebab_case_of_operation_ids :
  Generate.toKebabCase (JStr "getAppTables") = Return "get-app-tables"
  ∧ Generate.toKebabCase (JStr "getHTTPResponse") = Return "get-http-response".
Proof. split; reflexivity. Qed.

Example safe_name_of_example_titles :
  Generate.safeName "Simple Application!" = "simple-application"
  ∧ Generate.parseInt "200" = Some 200%Z
  ∧ Generate.parseInt "default" = None.
Proof. repeat split; reflexivity. Qed.

(** * Further properties of the tools *)

(** ** The validator and its collectors *)

Lemma accumulating_return : accumulating Return.
Proof. intros [es ws]. cbn. by rewrite !app_nil_r. Qed.

Lemma accumulating_id : accumulating (λ c, Return (c.1, c.2)).
Proof. intros [es ws]. cbn. by rewrite !app_nil_r. Qed.

Lemma accumulating_pair f : accumulating f → accumulating (λ c, f (c.1, c.2)).
Proof. intros Hf [es ws]. exact (Hf (es, ws)). Qed.

Lemma accumulating_throw e : accumulating (λ _, Throw e).
Proof. by intros c. Qed.

Lemma accumulating_error (msg : string) :
  accumulating (λ c, Return (c.1 ++ [msg], c.2)).
Proof. intros [es ws]. cbn. by rewrite app_nil_r. Qed.

Lemma accumulating_warning (msg : string) :
  accumulating (λ c, Return (c.1, c.2 ++ [msg])).
Proof. intros [es ws]. cbn. by rewrite app_nil_r. Qed.

Lemma accumulating_bind f g :
  accumulating f → accumulating g → accumulating (λ c, let* c' := f c in g c').
Proof.
  intros Hf Hg c. rewrite (Hf c). destruct (f ([], [])) as [[e1 w1]|]; [|done].
  cbn [bind fst snd]. rewrite (Hg (c.1 ++ e1, c.2 ++ w1)), (Hg (e1, w1)).
  destruct (g ([], [])) as [[e2 w2]|]; [|done]. cbn. by rewrite !app_assoc.
Qed.

Lemma accumulating_forEachM {A} (body : A → HealthCheck.collectors
                                       → outcome HealthCheck.collectors) xs :
  (∀ x, accumulating (body x)) → accumulating (forEachM body xs).
Proof.
  intros Hbody. induction xs as [|x xs IH]; cbn [forEachM].
  - apply accumulating_return.
  - by apply (accumulating_bind (body x) (forEachM body xs)).
Qed.

Lemma accumulating_if (b : bool) f g :
  accumulating f → accumulating g → accumulating (λ c, if b then f c else g c).
Proof. by destruct b. Qed.

Lemma accumulating_let {A} (o : outcome A) f :
  (∀ a, accumulating (f a)) → accumulating (λ c, let* a := o in f a c).
Proof. intros Hf. destruct o as [a|e]; [apply Hf | apply accumulating_throw]. Qed.

Lemma validateBody_accumulating (recurse : HealthCheck.validator) :
  (∀ value schema spec path,
     accumulating (λ c, recurse value schema spec path c.1 c.2)) →
  ∀ value schema spec path,
    accumulating (λ c, HealthCheck.validateBody recurse value schema spec path
                         c.1 c.2).
Proof.
  intros Hrec value schema spec path. unfold HealthCheck.validateBody.
  apply accumulating_let. intros ref.
  apply accumulating_if.
  { apply accumulating_let. intros resolved.
    apply accumulating_if; [apply Hrec | apply accumulating_id]. }
  apply accumulating_if.
  { destruct (js_or _ _); try apply accumulating_throw.
    apply accumulating_let. intros matches.
    apply accumulating_if; [apply accumulating_warning | apply accumulating_id]. }
  apply accumulating_if.
  { apply accumulating_let. intros subs.
    apply (accumulating_pair
             (forEachM (λ s c, recurse value s spec path c.1 c.2) subs)).
    apply accumulating_forEachM.
    intros s. apply Hrec. }
  apply accumulating_if.
  { apply accumulating_if; [apply accumulating_error | apply accumulating_id]. }
  apply (accumulating_bind
    (λ c, match value with
          | JArr elems =>
              if is_str "array" (js_get schema "type") && truthy (js_get schema "items")
              then forEachM (λ '(index, item) (c : HealthCheck.collectors),
                     recurse item (js_get schema "items") spec
                       (path +:+ "[" +:+ index +:+ "]") c.1 c.2)
                     (indexed 0 elems) (c.1, c.2)
              else Return (c.1, c.2)
          | _ => Return (c.1, c.2)
          end)).
  { destruct value; try apply accumulating_id.
    apply accumulating_if; [|apply accumulating_id].
    apply (accumulating_pair (forEachM _ _)).
    apply accumulating_forEachM. intros [index item]. apply Hrec. }
  apply accumulating_if; [|apply accumulating_return].
  apply (accumulating_bind
    (λ c1, if truthy (js_get schema "required") then
             let* reqs := js_iter (js_get schema "required") in
             forEachM (λ req (c : HealthCheck.collectors),
               if negb (js_has value (js_to_string req))
               then Return (c.1 ++ [path +:+ ": missing required field '"
                                      +:+ js_to_string req +:+ "'"], c.2)
               else Return c) reqs c1
           else Return c1)).
  { apply accumulating_if; [|apply accumulating_return].
    apply accumulating_let. intros reqs.
    apply accumulating_forEachM. intros req.
    apply accumulating_if; [apply accumulating_error | apply accumulating_return]. }
  apply (accumulating_bind
    (forEachM (λ '(key, propSchema) (c : HealthCheck.collectors),
       if js_has value key
       then recurse (js_get value key) propSchema spec
              (path +:+ "." +:+ key) c.1 c.2
       else Return c) (js_entries (js_get schema "properties")))).
  { apply accumulating_forEachM. intros [key propSchema].
    apply accumulating_if; [apply Hrec | apply accumulating_return]. }
  apply accumulating_if; [|apply accumulating_return].
  apply accumulating_forEachM. intros key.
  apply accumulating_let. intros declared.
  apply accumulating_if; [apply accumulating_warning | apply accumulating_return].
Qed.

(** X1: the validator only appends to its collectors, and what it appends does
    not depend on what they already hold: a call with collectors [errors]
    and [warnings] gives [errors ++ e] and [warnings ++ w], where [e] and
    [w] are what the same call gives from empty collectors (and it throws
    exactly when that call throws). *)
Theorem validator_appends_independently
    (stack : nat) (value schema spec : value) (path : string)
    (errors warnings : list string) :
  HealthCheck.validateValueAgainstSchema stack value schema spec path
    errors warnings
  = let* found := HealthCheck.validateValueAgainstSchema stack value schema
                    spec path [] [] in
    Return (errors ++ found.1, warnings ++ found.2).
Proof.
  revert value schema spec path errors warnings.
  induction stack as [|stack IH]; intros value schema spec path errors warnings;
    [done|].
  cbn [HealthCheck.validateValueAgainstSchema].
  apply (validateBody_accumulating
           (HealthCheck.validateValueAgainstSchema stack)
           (λ v s sp p c, IH v s sp p c.1 c.2)
           value schema spec path (errors, warnings)).
Qed.

(** ** More stack never changes an answer *)

Lemma returnsAtLeast_refl {A} (o : outcome A) : returnsAtLeast o o.
Proof. by intros a. Qed.

Lemma returnsAtLeast_bind {A B} (o o' : outcome A) (k k' : A → outcome B) :
  returnsAtLeast o o' → (∀ a, returnsAtLeast (k a) (k' a)) →
  returnsAtLeast (let* a := o in k a) (let* a := o' in k' a).
Proof.
  intros Ho Hk b. destruct o as [a|e]; [|done]. rewrite (Ho a eq_refl).
  apply Hk.
Qed.

Lemma returnsAtLeast_forEachM {A S} (f g : A → S → outcome S) xs st :
  (∀ x st, returnsAtLeast (f x st) (g x st)) →
  returnsAtLeast (forEachM f xs st) (forEachM g xs st).
Proof.
  intros Hfg. revert st. induction xs as [|x xs IH]; intros st;
    cbn [forEachM]; [apply returnsAtLeast_refl|].
  apply returnsAtLeast_bind; [apply Hfg | apply IH].
Qed.

Lemma returnsAtLeast_someM {A} (f g : A → outcome bool) xs :
  (∀ x, returnsAtLeast (f x) (g x)) →
  returnsAtLeast (someM f xs) (someM g xs).
Proof.
  intros Hfg. induction xs as [|x xs IH]; cbn [someM];
    [apply returnsAtLeast_refl|].
  apply returnsAtLeast_bind; [apply Hfg|]. intros [|];
    [apply returnsAtLeast_refl | apply IH].
Qed.

Lemma validateBody_returnsAtLeast (r r' : HealthCheck.validator) :
  (∀ value schema spec path errors warnings,
     returnsAtLeast (r value schema spec path errors warnings)
                    (r' value schema spec path errors warnings)) →
  ∀ value schema spec path errors warnings,
    returnsAtLeast
      (HealthCheck.validateBody r value schema spec path errors warnings)
      (HealthCheck.validateBody r' value schema spec path errors warnings).
Proof.
  intros Hr value schema spec path errors warnings.
  unfold HealthCheck.validateBody.
  repeat first
    [ apply Hr
    | apply returnsAtLeast_refl
    | apply returnsAtLeast_bind; [|intros ?]
    | apply returnsAtLeast_forEachM; intros ? ?
    | apply returnsAtLeast_someM; intros ?
    | match goal with
      | |- returnsAtLeast (let '(_, _) := ?p in _) _ => destruct p
      | |- returnsAtLeast (if ?b then _ else _) _ => destruct b
      | |- returnsAtLeast (match ?v with _ => _ end) _ => destruct v
      | x : prod string _ |- _ => destruct x; cbn beta iota
      end ].
Qed.

(** X2: a call that returns with [stack] activations returns the same
    collectors with any larger stack: the depth of the engine's stack
    decides only whether the validator answers, never what it answers. *)
Theorem validator_stack_monotone
    (stack stack' : nat) (value schema spec : value) (path : string)
    (errors warnings : list string) (found : HealthCheck.collectors) :
  HealthCheck.validateValueAgainstSchema stack value schema spec path
    errors warnings = Return found →
  stack ≤ stack' →
  HealthCheck.validateValueAgainstSchema stack' value schema spec path
    errors warnings = Return found.
Proof.
  intros Hret Hle. revert Hret.
  assert (∀ n k v s sp p es ws,
            returnsAtLeast
              (HealthCheck.validateValueAgainstSchema n v s sp p es ws)
              (HealthCheck.validateValueAgainstSchema (n + k) v s sp p es ws))
    as Hmono.
  { intros n k. induction n as [|n IH]; intros v s sp p es ws; [done|].
    cbn [HealthCheck.validateValueAgainstSchema Nat.add].
    by apply validateBody_returnsAtLeast. }
  replace stack' with (stack + (stack' - stack)) by lia. apply Hmono.
Qed.

Lemma validator_stack_monotone_witness :
  HealthCheck.validateValueAgainstSchema 5 (JStr "bck7gp3q2") pointerSchema
    pointerSpec "$" [] [] = Return ([], []).
Proof.
  apply (validator_stack_monotone 2 5); [reflexivity | lia].
Defined.

Lemma validateBody_reads_keywords recurse value
    (kv kv' : list (string * JS.value)) spec path errors warnings :
  (∀ k, k ∈ readKeywords → js_get (JObj kv) k = js_get (JObj kv') k) →
  HealthCheck.validateBody recurse value (JObj kv) spec path errors warnings
  = HealthCheck.validateBody recurse value (JObj kv') spec path errors warnings.
Proof.
  intros Hget. unfold HealthCheck.validateBody. cbn [js_field].
  assert (Hin : ∀ k, bool_decide (k ∈ readKeywords) = true →
                     js_get (JObj kv) k = js_get (JObj kv') k).
  { intros k Hk. apply Hget. by apply bool_decide_eq_true in Hk. }
  rewrite (Hin "$ref"), (Hin "oneOf"), (Hin "anyOf"), (Hin "allOf"),
    (Hin "type"), (Hin "items"), (Hin "properties"), (Hin "required"),
    (Hin "additionalProperties") by reflexivity.
  reflexivity.
Qed.

(** X3: a keyword the validator does not read ([enum], [format], [minimum],
    [pattern], ...) has no effect on a node: setting it to anything leaves
    the outcome of validating any value against the node as it was. *)
Theorem validator_ignores_other_keywords
    (stack : nat) (value : value) (kv : list (string * JS.value))
    (spec : JS.value) (path : string) (errors warnings : list string)
    (keyword : string) (x : JS.value) :
  keyword ∉ readKeywords →
  HealthCheck.validateValueAgainstSchema stack value
    (js_set (JObj kv) keyword x) spec path errors warnings
  = HealthCheck.validateValueAgainstSchema stack value (JObj kv) spec path
      errors warnings.
Proof.
  intros Hk. destruct stack as [|stack]; [done|].
  cbn [HealthCheck.validateValueAgainstSchema js_set].
  apply validateBody_reads_keywords.
  intros k Hin. cbn [js_get]. rewrite obj_get_set_ne; [done|].
  by intros ->.
Qed.

Lemma validator_ignores_other_keywords_witness :
  HealthCheck.validateValueAgainstSchema 1 (JStr "red")
    (js_set (JObj [("type", JStr "string")]) "enum"
       (JArr [JStr "green"; JStr "blue"])) (JObj []) "$" [] []
  = Return ([], []).
Proof.
  rewrite (validator_ignores_other_keywords 1 (JStr "red")
             [("type", JStr "string")] (JObj []) "$" [] [] "enum").
  - reflexivity.
  - unfold readKeywords. rewrite !elem_of_cons, elem_of_nil.
    intros [?|[?|[?|[?|[?|[?|[?|[?|[?|?]]]]]]]]]; done.
Defined.

Lemma schema_pointer_parts (name : string) :
  slashFree name = true →
  str_split "/" (str_replace "#/" "" (schemaPointer name))
  = ["components"; "schemas"; name].
Proof.
  intros Hname. unfold schemaPointer.
  change ("#/components/schemas/" +:+ name)
    with ("#/" +:+ ("components/schemas/" +:+ name)).
  rewrite (str_replace_prefix "#/" _ _ ("components/schemas/" +:+ name))
    by apply strip_own_prefix.
  change ("" +:+ ("components/schemas/" +:+ name))
    with ("components" +:+ String "/" ("schemas" +:+ String "/" name)).
  rewrite str_split_app by done. rewrite str_split_app by done.
  by rewrite str_split_slashFree.
Qed.

(** Resolving the pointer to a schema component whose name has no
    separator is a look-up of the name in [components.schemas]: the entry
    when it is there, the absence signal when it is not. *)
Lemma resolveRef_schema_pointer
    (skv ckv sch : list (string * value)) (name : string) :
  js_get (JObj skv) "components" = JObj ckv →
  js_get (JObj ckv) "schemas" = JObj sch →
  slashFree name = true →
  HealthCheck.resolveRef (JStr (schemaPointer name)) (JObj skv)
  = Return (default JNull (obj_get name sch)).
Proof.
  intros Hc Hs Hname. unfold HealthCheck.resolveRef.
  rewrite schema_pointer_parts by done.
  cbn [HealthCheck.resolveRef_walk truthy js_typeof andb String.eqb js_has].
  assert (Hhas : ∀ k (kv kv' : list (string * value)),
            js_get (JObj kv) k = JObj kv' → obj_has k kv = true).
  { intros k kv kv'. cbn [js_get]. unfold obj_has.
    by destruct (obj_get k kv). }
  change (String.eqb "object" "object") with true. cbn [andb].
  rewrite (Hhas _ _ _ Hc), Hc.
  cbn [truthy js_typeof andb js_has]. change (String.eqb "object" "object") with true.
  cbn [andb]. rewrite (Hhas _ _ _ Hs), Hs.
  cbn [truthy js_typeof andb js_has js_get].
  change (String.eqb "object" "object") with true. cbn [andb].
  unfold obj_has. by destruct (obj_get name sch).
Qed.

(** X4: the two tools agree on schema pointers: when [validateRefs] leaves the
    document valid, every pointer reachable from [paths] or [components]
    that names a schema component (by a name without the separator) is one
    [resolveRef] follows to a node the fixture validator then descends
    into. *)
Theorem validated_schema_pointers_resolve
    (skv ckv sch : list (string * value))
    (result result' : Validate.ValidationResult) (name : string) :
  js_get (JObj skv) "components" = JObj ckv →
  js_get (JObj ckv) "schemas" = JObj sch →
  Validate.validateRefs (JObj skv) result = Return result' →
  Validate.valid result' = true →
  reachableRef (js_get (JObj skv) "paths") (schemaPointer name)
  ∨ reachableRef (js_get (JObj skv) "components") (schemaPointer name) →
  slashFree name = true →
  ∃ node,
    HealthCheck.resolveRef (JStr (schemaPointer name)) (JObj skv) = Return node
    ∧ truthy node = true.
Proof.
  intros Hc Hs Hrun Hvalid Hreach Hname.
  rewrite (resolveRef_schema_pointer skv ckv sch) by done.
  eexists. split; [reflexivity|].
  unfold Validate.validateRefs, js_field in Hrun. cbn [bind] in Hrun.
  injection Hrun as <-.
  match type of Hvalid with
  | Validate.valid (foldl (Validate.checkRef ?s ?p) ?r ?refs) = _ =>
      destruct (checkRefs_errors s p refs r) as [_ Hv];
      rewrite Hv in Hvalid;
      assert (Hin : schemaPointer name ∈ refs)
  end.
  { rewrite !collectRefs_reachable. rewrite elem_of_nil. tauto. }
  apply andb_true_iff in Hvalid as [_ Hall].
  rewrite forallb_forall in Hall.
  specialize (Hall _ (proj1 (list_elem_of_In _ _) Hin)).
  apply negb_true_iff in Hall. unfold componentPointerMissing in Hall.
  unfold schemaPointer in Hall. rewrite strip_own_prefix in Hall.
  apply negb_false_iff in Hall.
  change (default JUndef (obj_get "components" skv))
    with (js_get (JObj skv) "components") in Hall.
  rewrite Hc in Hall. cbn [js_opt] in Hall.
  rewrite Hs in Hall. cbn [js_or truthy js_get] in Hall.
  by destruct (obj_get name sch).
Qed.

Lemma validated_schema_pointers_resolve_witness :
  ∃ node,
    HealthCheck.resolveRef (JStr (schemaPointer "A"))
      (JObj [("paths", JObj [("/apps", JObj [("get", pointerSchema)])]);
             ("components", JObj [("schemas", JObj [("A", stringSchema)])])])
    = Return node
    ∧ truthy node = true.
Proof.
  eapply (validated_schema_pointers_resolve _ _ _ emptyResult).
  - reflexivity.
  - reflexivity.
  - reflexivity.
  - reflexivity.
  - left. cbn. eapply reach_field; [by left|].
    eapply reach_field; [by left|]. by apply reach_here.
  - reflexivity.
Defined.

(** ** The passes over one operation (tools/patch.ts) *)
Section OperationPasses.
Import Patch.

Lemma filterParameters_public (ps : list value) :
  Forall (λ p, ∃ kv, p = JObj kv) ps →
  filterParameters ps = Return (publicParameters ps).
Proof.
  induction 1 as [|p ps [kv ->] _ IH]; [done|].
  cbn [filterParameters js_field bind]. rewrite IH. cbn [bind].
  unfold publicParameters, internalHeader. cbn [List.filter].
  rewrite negb_andb. by destruct (negb _ || negb _).
Qed.

Lemma publicParameters_objects (ps : list value) :
  Forall (λ p, ∃ kv, p = JObj kv) ps →
  Forall (λ p, ∃ kv, p = JObj kv) (publicParameters ps).
Proof.
  intros H. apply Forall_forall. intros p Hp.
  apply list_elem_of_In, filter_In in Hp as [Hp _].
  rewrite Forall_forall in H. by apply H, list_elem_of_In.
Qed.

Lemma publicParameters_idemp (ps : list value) :
  publicParameters (publicParameters ps) = publicParameters ps.
Proof.
  unfold publicParameters. induction ps as [|p ps IH]; [done|].
  cbn [List.filter]. destruct (negb (internalHeader p)) eqn:E; [|done].
  cbn [List.filter]. by rewrite E, IH.
Qed.

Lemma js_get_some (kv : list (string * value)) (k : string) (v : value) :
  js_get (JObj kv) k = v → v ≠ JUndef → obj_get k kv = Some v.
Proof. cbn. destruct (obj_get k kv); cbn; congruence. Qed.

(** Writing to a property the value it holds changes nothing. *)
Lemma js_set_same (kv : list (string * value)) (k : string) (v : value) :
  js_get (JObj kv) k = v → v ≠ JUndef → js_set (JObj kv) k v = JObj kv.
Proof.
  intros Hget Hv. apply js_get_some in Hget; [|done]. cbn [js_set].
  unfold obj_set, obj_has. rewrite Hget. by rewrite obj_replace_same.
Qed.

Lemma truthy_defined (v : value) : truthy v = true → v ≠ JUndef.
Proof. by intros H ->. Qed.

(** [patchOperation], field by field. *)
Lemma patchOperation_result (okv : list (string * value)) (path method : string) :
  operationShape (JObj okv) →
  ∃ pkv,
    patchOperation (JObj okv) path method = Return (JObj pkv)
    ∧ js_get (JObj pkv) "parameters"
      = publicField (js_get (JObj okv) "parameters")
    ∧ js_get (JObj pkv) "responses"
      = js_get (normalizeResponseCodes (JObj okv)) "responses"
    ∧ js_get (JObj pkv) "operationId"
      = patchedOperationId (JObj okv) path method
    ∧ js_get (JObj pkv) "requestBody"
      = patchedRequestBody (JObj okv) path method
    ∧ ∀ k, k ∉ ["parameters"; "responses"; "operationId"; "requestBody"] →
           js_get (JObj pkv) k = js_get (JObj okv) k.
Proof.
  intros Hshape. unfold patchOperation.
  assert (H1 : ∃ okv1,
    removeInternalHeaders (JObj okv) = Return (JObj okv1)
    ∧ js_get (JObj okv1) "parameters"
      = publicField (js_get (JObj okv) "parameters")
    ∧ ∀ k, k ≠ "parameters" → js_get (JObj okv1) k = js_get (JObj okv) k).
  { destruct Hshape as [Hparams _]. unfold removeInternalHeaders.
    destruct (truthy (js_get (JObj okv) "parameters")) eqn:E.
    - destruct Hparams as (ps & Hps & Hobjs); [done|]. rewrite Hps.
      rewrite filterParameters_public by done. cbn [bind js_assign].
      eexists. split; [done|]. split.
      + cbn. by rewrite obj_get_set_eq.
      + intros k Hk.
        exact (js_get_set_ne (JObj okv) "parameters" k _ (not_eq_sym Hk)).
    - exists okv. split; [done|]. split; [|done].
      by destruct (js_get (JObj okv) "parameters"). }
  destruct H1 as (okv1 & -> & Hp1 & H1). cbn [bind].
  assert (H2 : ∃ okv2,
    normalizeResponseCodes (JObj okv1) = JObj okv2
    ∧ js_get (JObj okv2) "responses"
      = js_get (normalizeResponseCodes (JObj okv)) "responses"
    ∧ ∀ k, k ≠ "responses" → js_get (JObj okv2) k = js_get (JObj okv1) k).
  { destruct (normalizeResponseCodes_fields okv1) as (okv2 & E & H2).
    exists okv2. split; [done|]. split; [|done].
    rewrite <- E, !normalized_responses. by rewrite (H1 "responses"). }
  destruct H2 as (okv2 & -> & Hr2 & H2).
  assert (Hid2 : js_get (JObj okv2) "operationId" = js_get (JObj okv) "operationId")
    by (by rewrite H2, H1).
  assert (H3 : ∃ okv3,
    (if negb (truthy (js_get (JObj okv2) "operationId"))
     then js_assign (JObj okv2) "operationId"
            (JStr (generatedOperationId path method))
     else Return (JObj okv2)) = Return (JObj okv3)
    ∧ js_get (JObj okv3) "operationId"
      = patchedOperationId (JObj okv) path method
    ∧ ∀ k, k ≠ "operationId" → js_get (JObj okv3) k = js_get (JObj okv2) k).
  { rewrite Hid2. unfold patchedOperationId.
    destruct (truthy (js_get (JObj okv) "operationId")); cbn [negb].
    - by exists okv2.
    - eexists. split; [done|]. split.
      + cbn. by rewrite obj_get_set_eq.
      + intros k Hk.
        exact (js_get_set_ne (JObj okv2) "operationId" k _ (not_eq_sym Hk)). }
  destruct H3 as (okv3 & -> & Hid3 & H3). cbn [bind].
  assert (Hbody3 : js_get (JObj okv3) "requestBody"
                   = js_get (JObj okv) "requestBody")
    by (by rewrite H3, H2, H1).
  unfold patchedRequestBody. rewrite Hbody3, Hid3.
  destruct (truthy (js_get (JObj okv) "requestBody") && _) eqn:Ebody.
  - apply andb_prop in Ebody as [Ebody _].
    destruct Hshape as [_ Hrb]. destruct (Hrb Ebody) as [bkv Hb]. rewrite Hb.
    cbn [js_assign bind].
    set (body' := js_set (JObj bkv) "required" (JBool true)).
    exists (obj_set "requestBody" body' okv3). split; [done|].
    change (JObj (obj_set "requestBody" body' okv3))
      with (js_set (JObj okv3) "requestBody" body').
    rewrite !(js_get_set_ne (JObj okv3)) by done.
    split; [by rewrite H3, H2|]. split; [by rewrite H3|]. split; [done|].
    split; [cbn; by rewrite obj_get_set_eq|].
    intros k Hk. rewrite !elem_of_cons, elem_of_nil in Hk.
    rewrite (js_get_set_ne (JObj okv3)) by (intros <-; tauto).
    rewrite H3, H2, H1; [done|..]; intros ->; tauto.
  - exists okv3. split; [done|].
    split; [by rewrite H3, H2|]. split; [by rewrite H3|]. split; [done|].
    split; [done|].
    intros k Hk. rewrite !elem_of_cons, elem_of_nil in Hk.
    rewrite H3, H2, H1; [done|..]; intros ->; tauto.
Qed.

(** An operation the passes have nothing to do on comes back as it is. *)
Lemma patchOperation_settled (pkv : list (string * value)) (path method : string) :
  (truthy (js_get (JObj pkv) "parameters") = true →
   ∃ ps, js_get (JObj pkv) "parameters" = JArr ps
         ∧ Forall (λ p, ∃ kv, p = JObj kv) ps
         ∧ publicParameters ps = ps) →
  (∀ code, code ∈ compositeCodes →
           js_has (js_get (JObj pkv) "responses") code = false) →
  (truthy (js_get (JObj pkv) "operationId") = false →
   js_get (JObj pkv) "operationId" = JStr (generatedOperationId path method)) →
  (truthy (js_get (JObj pkv) "requestBody")
   && str_includes REQUIRED_BODY_OPERATIONS (js_get (JObj pkv) "operationId")
   = true →
   ∃ bkv, js_get (JObj pkv) "requestBody" = JObj bkv
          ∧ js_get (JObj bkv) "required" = JBool true) →
  patchOperation (JObj pkv) path method = Return (JObj pkv).
Proof.
  intros Hparams Hcodes Hid Hbody. unfold patchOperation.
  assert (removeInternalHeaders (JObj pkv) = Return (JObj pkv)) as ->.
  { unfold removeInternalHeaders.
    destruct (truthy (js_get (JObj pkv) "parameters")) eqn:E; [|done].
    destruct Hparams as (ps & Hps & Hobjs & Hfix); [done|]. rewrite Hps.
    rewrite filterParameters_public, Hfix by done. cbn [bind js_assign].
    by rewrite js_set_same. }
  cbn [bind]. rewrite normalize_noop by done.
  assert ((if negb (truthy (js_get (JObj pkv) "operationId"))
           then js_assign (JObj pkv) "operationId"
                  (JStr (generatedOperationId path method))
           else Return (JObj pkv)) = Return (JObj pkv)) as ->.
  { destruct (truthy (js_get (JObj pkv) "operationId")) eqn:E; [done|].
    cbn [negb js_assign]. by rewrite js_set_same by auto. }
  cbn [bind].
  destruct (truthy (js_get (JObj pkv) "requestBody") && _) eqn:E; [|done].
  destruct Hbody as (bkv & Hb & Hreq); [done|]. rewrite Hb.
  cbn [js_assign bind]. rewrite (js_set_same bkv) by done.
  by rewrite js_set_same.
Qed.
End OperationPasses.

(** X5: [removeInternalHeaders] drops exactly the header parameters named in
    [INTERNAL_HEADERS] (compared as written, so another spelling of a
    header name is kept), keeps the other parameters in their order, and
    touches no other field of the operation. *)
Theorem removeInternalHeaders_keeps_public_parameters
    (okv : list (string * value)) (ps : list value) :
  js_get (JObj okv) "parameters" = JArr ps →
  Forall (λ p, ∃ kv, p = JObj kv) ps →
  ∃ patched,
    Patch.removeInternalHeaders (JObj okv) = Return patched
    ∧ js_get patched "parameters" = JArr (publicParameters ps)
    ∧ ∀ k, k ≠ "parameters" → js_get patched k = js_get (JObj okv) k.
Proof.
  intros Hps Hobjs. unfold Patch.removeInternalHeaders. rewrite Hps.
  cbn [truthy]. rewrite filterParameters_public by done.
  cbn [bind js_assign]. eexists. split; [done|]. split.
  - cbn. by rewrite obj_get_set_eq.
  - intros k Hk.
    exact (js_get_set_ne (JObj okv) "parameters" k _ (not_eq_sym Hk)).
Qed.

Lemma removeInternalHeaders_keeps_public_parameters_witness :
  ∃ patched,
    Patch.removeInternalHeaders
      (JObj [("operationId", JStr "getApp");
             ("parameters",
               JArr [JObj [("name", JStr "Authorization"); ("in", JStr "header")];
                     JObj [("name", JStr "appId"); ("in", JStr "path")];
                     JObj [("name", JStr "authorization"); ("in", JStr "header")];
                     JObj [("name", JStr "User-Agent"); ("in", JStr "query")]])])
    = Return patched
    ∧ js_get patched "parameters"
      = JArr [JObj [("name", JStr "appId"); ("in", JStr "path")];
              JObj [("name", JStr "authorization"); ("in", JStr "header")];
              JObj [("name", JStr "User-Agent"); ("in", JStr "query")]]
    ∧ ∀ k, k ≠ "parameters" →
           js_get patched k
           = js_get
               (JObj [("operationId", JStr "getApp");
                      ("parameters",
                        JArr [JObj [("name", JStr "Authorization"); ("in", JStr "header")];
                              JObj [("name", JStr "appId"); ("in", JStr "path")];
                              JObj [("name", JStr "authorization"); ("in", JStr "header")];
                              JObj [("name", JStr "User-Agent"); ("in", JStr "query")]])])
               k.
Proof.
  refine (removeInternalHeaders_keeps_public_parameters _
            [JObj [("name", JStr "Authorization"); ("in", JStr "header")];
             JObj [("name", JStr "appId"); ("in", JStr "path")];
             JObj [("name", JStr "authorization"); ("in", JStr "header")];
             JObj [("name", JStr "User-Agent"); ("in", JStr "query")]] _ _).
  - reflexivity.
  - repeat constructor; by eexists.
Defined.

(** X6: running [patchOperation] again on an operation it has patched changes
    nothing: the result of the first run is returned as it is. *)
Theorem patchOperation_idempotent
    (okv : list (string * value)) (path method : string) (patched : value) :
  operationShape (JObj okv) →
  Patch.patchOperation (JObj okv) path method = Return patched →
  Patch.patchOperation patched path method = Return patched.
Proof.
  intros Hshape Hrun.
  destruct (patchOperation_result okv path method Hshape)
    as (pkv & Hpkv & Hparams & Hresp & Hid & Hbody & _).
  rewrite Hpkv in Hrun. injection Hrun as <-.
  apply patchOperation_settled.
  - rewrite Hparams. intros Htruthy. destruct Hshape as [Hps _].
    destruct Hps as (ps & Hps & Hobjs).
    { by destruct (js_get (JObj okv) "parameters"). }
    rewrite Hps. exists (publicParameters ps). split; [done|].
    split; [by apply publicParameters_objects|].
    apply publicParameters_idemp.
  - intros code Hcode. rewrite Hresp. by apply normalized_has_no_composite.
  - rewrite Hid. unfold patchedOperationId.
    by destruct (truthy (js_get (JObj okv) "operationId")) eqn:E; [rewrite E|].
  - rewrite Hid, Hbody. unfold patchedRequestBody.
    destruct (truthy (js_get (JObj okv) "requestBody")) eqn:Eb.
    + destruct Hshape as [_ Hrb]. destruct (Hrb Eb) as [bkv Hb]. rewrite Hb.
      destruct (str_includes _ _); cbn [andb truthy]; [|done].
      intros _. eexists. split; [done|]. cbn. by rewrite obj_get_set_eq.
    + cbn [andb]. by rewrite Eb.
Qed.

Lemma patchOperation_idempotent_witness :
  ∃ patched,
    Patch.patchOperation
      (JObj [("parameters",
               JArr [JObj [("name", JStr "Authorization"); ("in", JStr "header")]]);
             ("requestBody", JObj [("content", JObj [])]);
             ("responses", JObj [("401/403", JObj []); ("200", JObj [])])])
      "/records" "delete" = Return patched
    ∧ Patch.patchOperation patched "/records" "delete" = Return patched.
Proof.
  eexists. split; [reflexivity|].
  apply (patchOperation_idempotent
           [("parameters",
              JArr [JObj [("name", JStr "Authorization"); ("in", JStr "header")]]);
            ("requestBody", JObj [("content", JObj [])]);
            ("responses", JObj [("401/403", JObj []); ("200", JObj [])])]).
  - split; intros _; eexists; [split; [reflexivity|]|reflexivity].
    repeat constructor; by eexists.
  - reflexivity.
Defined.



(** ** The validation pipeline (tools/validate.ts) *)
Section Pipeline.
Import Validate ValidateDocument Collections.

Lemma forEachM_invariant {A S} (P : S → Prop) (body : A → S → outcome S) xs st st' :
  (∀ x s s', x ∈ xs → P s → body x s = Return s' → P s') →
  P st → forEachM body xs st = Return st' → P st'.
Proof.
  revert st. induction xs as [|x xs IH]; intros st Hbody Hst; cbn [forEachM].
  - by intros [= <-].
  - destruct (body x st) as [s1|] eqn:E; [|done]. cbn [bind].
    apply IH.
    + intros y s s' Hy. apply Hbody. by right.
    + eapply Hbody; [by left|done..].
Qed.

Lemma pushError_reflects msg r : validityReflectsErrors (pushError msg r).
Proof.
  unfold validityReflectsErrors, pushError. cbn. split; [done|].
  by intros [_ [=]]%app_eq_nil.
Qed.

Lemma pushWarning_reflects msg r :
  validityReflectsErrors r → validityReflectsErrors (pushWarning msg r).
Proof. done. Qed.

Lemma validateStructure_reflects spec r :
  validateStructure spec = Return r → validityReflectsErrors r.
Proof.
  unfold validateStructure.
  destruct (js_field spec "openapi") as [openapi|]; [|done]. cbn [bind].
  set (r0 := mkResult true [] [] (mkStats 0 0 0 0)).
  assert (H0 : validityReflectsErrors r0) by done.
  assert (H1 : ∀ r1,
    (if negb (truthy openapi)
     then Return (pushError "Missing required field: openapi" r0)
     else match openapi with
          | JStr version =>
              if negb (startsWith "3." version)
              then Return (pushError ("Expected OpenAPI 3.x, got: " +:+ version) r0)
              else Return r0
          | _ => Throw TypeError
          end) = Return r1 → validityReflectsErrors r1).
  { intros r1. destruct (negb (truthy openapi)).
    - intros [= <-]. apply pushError_reflects.
    - destruct openapi; try done. destruct (negb _); intros [= <-]; [|done].
      apply pushError_reflects. }
  destruct (if negb (truthy openapi) then _ else _) as [r1|]; [|done].
  specialize (H1 r1 eq_refl). cbn [bind]. intros [= <-].
  repeat match goal with
  | |- validityReflectsErrors (if ?b then _ else _) => destruct b
  | |- validityReflectsErrors (pushError _ _) => apply pushError_reflects
  end; done.
Qed.

Lemma checkOperation_reflects path pathItem method st st' :
  validityReflectsErrors st.1 →
  checkOperation path pathItem method st = Return st' →
  validityReflectsErrors st'.1.
Proof.
  intros Hst. unfold checkOperation.
  destruct (js_field pathItem method) as [operation|]; [|done]. cbn [bind].
  destruct (negb (truthy operation)); [by intros [= <-]|].
  intros [= <-]. cbn [fst].
  destruct (negb (truthy (js_get operation "operationId"))); cbn [fst].
  - destruct (_ || _); [apply pushWarning_reflects|]; done.
  - destruct (set_has _ _).
    + destruct (_ || _); [apply pushWarning_reflects|];
        apply pushError_reflects.
    + destruct (_ || _); [apply pushWarning_reflects|]; done.
Qed.

Lemma validatePaths_reflects spec r r' :
  validityReflectsErrors r →
  validatePaths spec r = Return r' → validityReflectsErrors r'.
Proof.
  intros Hr. unfold validatePaths.
  destruct (js_field spec "paths") as [paths|]; [|done]. cbn [bind].
  destruct (forEachM checkPath _ _) as [st|] eqn:E; [|done]. cbn [bind].
  intros [= <-].
  refine (forEachM_invariant (λ st, validityReflectsErrors st.1) _ _ (r, [])
            st _ Hr E).
  intros [path pathItem] s s' _ Hs. unfold checkPath.
  apply (forEachM_invariant (λ st, validityReflectsErrors st.1)).
  - intros method s0 s0' _. apply checkOperation_reflects.
  - cbn [fst]. destruct (negb _); [apply pushError_reflects | done].
Qed.

Lemma filter_nil_forallb {A} (p : A → bool) (l : list A) :
  forallb (λ x, negb (p x)) l = true ↔ List.filter p l = [].
Proof.
  induction l as [|x l IH]; cbn; [done|].
  destruct (p x); cbn; [split; done | done].
Qed.

Lemma validateRefs_reflects spec r r' :
  validityReflectsErrors r →
  validateRefs spec r = Return r' → validityReflectsErrors r'.
Proof.
  intros Hr. unfold validateRefs.
  destruct (js_field spec "components") as [components|]; [|done]. cbn [bind].
  intros [= <-].
  match goal with
  | |- validityReflectsErrors (foldl (checkRef ?s ?p) ?r0 ?refs) =>
      destruct (checkRefs_errors s p refs r0) as [He Hv];
      set (missing := componentPointerMissing s p) in *
  end.
  unfold validityReflectsErrors in *. rewrite He, Hv. cbn [valid errors].
  rewrite andb_true_iff, Hr, filter_nil_forallb. split.
  - by intros [-> ->].
  - intros [-> Hmap]%app_eq_nil. split; [done|].
    by apply fmap_nil_inv in Hmap.
Qed.
End Pipeline.

(** X8: the pipeline of [validate] (structure, paths, pointers) hands back a
    result that says "valid" exactly when its error list is empty:
    warnings never invalidate a document, and no error goes unflagged. *)
Theorem validate_valid_iff_no_errors
    (spec : value) (result : Validate.ValidationResult) :
  ValidateDocument.validate spec = Return result →
  Validate.valid result = true ↔ Validate.errors result = [].
Proof.
  unfold ValidateDocument.validate.
  destruct (ValidateDocument.validateStructure spec) as [r0|] eqn:E0; [|done].
  cbn [bind].
  destruct (ValidateDocument.validatePaths spec r0) as [r1|] eqn:E1; [|done].
  cbn [bind]. intros E2.
  eapply validateRefs_reflects; [|exact E2].
  eapply validatePaths_reflects; [|exact E1].
  by eapply validateStructure_reflects.
Qed.

Lemma validate_valid_iff_no_errors_witness :
  ∃ result,
    ValidateDocument.validate danglingRefSpec = Return result
    ∧ (Validate.valid result = true ↔ Validate.errors result = []).
Proof.
  eexists. split; [vm_compute; reflexivity|].
  apply (validate_valid_iff_no_errors danglingRefSpec).
  vm_compute. reflexivity.
Defined.

Section Duplicates.
Import Validate ValidateDocument Collections.

Lemma sameValueZero_string (s : string) (v : value) :
  sameValueZero (JStr s) v = true ↔ v = JStr s.
Proof.
  destruct v; cbn; try (split; [discriminate | done]).
  rewrite String.eqb_eq. split; [by intros -> | by intros [= ->]].
Qed.

Lemma set_has_string (ids : list value) (s : string) :
  set_has ids (JStr s) = true ↔ JStr s ∈ ids.
Proof.
  unfold set_has. rewrite existsb_exists. split.
  - intros (v & Hv & ->%sameValueZero_string). by apply list_elem_of_In.
  - intros H. exists (JStr s). split; [by apply list_elem_of_In|].
    by apply sameValueZero_string.
Qed.

Lemma checkOperation_checked errors0 seen Q path pathItem method st st' :
  pathsChecked errors0 seen Q st →
  Forall isString (identifiersIn pathItem) →
  method ∈ Patch.METHODS →
  checkOperation path pathItem method st = Return st' →
  pathsChecked errors0
    (seen ++ List.filter truthy
               ((λ operation, js_get operation "operationId")
                  <$> List.filter truthy [js_get pathItem method])) Q st'.
Proof.
  intros (Hids & added & Herr & Hadded) Hstr Hm. unfold checkOperation.
  destruct (js_field pathItem method) as [operation|] eqn:Eop; [|done].
  assert (operation = js_get pathItem method) as ->.
  { destruct pathItem; try done; cbn in Eop; by injection Eop as <-. }
  cbn [bind List.filter]. destruct (truthy (js_get pathItem method)) eqn:Et;
    cbn [negb fmap list_fmap List.filter].
  2:{ intros [= <-]. rewrite app_nil_r. split; [done|]. by exists added. }
  set (operationId := js_get (js_get pathItem method) "operationId").
  destruct (truthy operationId) eqn:Eid; cbn [negb].
  2:{ intros [= <-]. rewrite app_nil_r. split; [done|]. exists added.
      split; [|done]. by destruct (_ || _). }
  assert (Hs : isString operationId).
  { rewrite Forall_forall in Hstr. apply Hstr.
    unfold identifiersIn, operationsOf.
    apply list_elem_of_In, filter_In. split; [|done].
    apply in_map_iff. exists (js_get pathItem method). split; [done|].
    apply filter_In. split; [|done].
    apply in_map_iff. exists method. split; [done|]. by apply list_elem_of_In. }
  destruct Hs as [s Hs]. rewrite Hs in *.
  intros [= <-]. unfold set_add.
  destruct (set_has st.2 (JStr s)) eqn:Ehas; (split; [intros v; cbn [snd]|cbn [fst]]).
  - apply set_has_string in Ehas.
    rewrite elem_of_app, list_elem_of_singleton, Hids.
    split; [by left|]. intros [H | ->]; [done|]. by apply Hids.
  - exists (added ++ ["Duplicate operationId: " +:+ s]). split.
    + destruct (_ || _); cbn; by rewrite Herr, app_assoc.
    + split; [by intros [_ [=]]%app_eq_nil|].
      intros [_ Hnd]. apply NoDup_app in Hnd as (_ & Hnd & _).
      apply set_has_string, Hids in Ehas.
      destruct (Hnd _ Ehas). by left.
  - by rewrite !elem_of_app, Hids.
  - exists added. split; [by destruct (_ || _)|].
    rewrite Hadded. rewrite NoDup_app.
    assert (JStr s ∉ seen).
    { intros Hin%Hids%set_has_string. by rewrite Hin in Ehas. }
    split.
    + intros [HQ Hnd]. split; [done|]. split; [done|]. split.
      * intros x Hx ->%list_elem_of_singleton. done.
      * apply NoDup_singleton.
    + intros [HQ [Hnd _]]. done.
Qed.

Lemma methods_checked errors0 Q path pathItem (methods : list string) :
  Forall isString (identifiersIn pathItem) →
  (∀ m, m ∈ methods → m ∈ Patch.METHODS) →
  ∀ seen st st',
    pathsChecked errors0 seen Q st →
    forEachM (checkOperation path pathItem) methods st = Return st' →
    pathsChecked errors0
      (seen ++ List.filter truthy
                 ((λ operation, js_get operation "operationId")
                    <$> List.filter truthy
                          ((λ method, js_get pathItem method) <$> methods)))
      Q st'.
Proof.
  intros Hstr. induction methods as [|m methods IH]; intros Hms seen st st' Hst.
  - cbn. intros [= <-]. by rewrite app_nil_r.
  - cbn [forEachM].
    destruct (checkOperation path pathItem m st) as [st1|] eqn:E; [|done].
    cbn [bind]. intros Hrest.
    eapply checkOperation_checked in E; [|done|done|apply Hms; by left].
    eapply IH in Hrest; [| |exact E].
    2:{ intros m' Hm'. apply Hms. by right. }
    cbn [fmap list_fmap List.filter] in *.
    destruct (truthy (js_get pathItem m)); cbn [fmap list_fmap List.filter] in *.
    + destruct (truthy (js_get (js_get pathItem m) "operationId"));
        cbn [app] in *; rewrite <- ?app_assoc in Hrest; exact Hrest.
    + rewrite app_nil_r in Hrest. exact Hrest.
Qed.

Lemma paths_checked errors0 (entries : list (string * value)) :
  Forall (λ item, Forall isString (identifiersIn item)) entries.*2 →
  ∀ (done : list string) seen st st',
    pathsChecked errors0 seen
      (Forall (λ p, startsWith "/" p = true) done) st →
    forEachM checkPath entries st = Return st' →
    pathsChecked errors0 (seen ++ concat (identifiersIn <$> entries.*2))
      (Forall (λ p, startsWith "/" p = true) (done ++ entries.*1)) st'.
Proof.
  induction entries as [|[path item] entries IH]; intros Hstr done seen st st' Hst.
  - cbn. intros [= <-]. by rewrite !app_nil_r.
  - cbn [forEachM]. destruct (checkPath (path, item) st) as [st1|] eqn:E; [|done].
    cbn [bind]. intros Hrest. rewrite fmap_cons in Hstr.
    apply Forall_cons in Hstr as [Hitem Hstr]. cbn [snd] in Hitem.
    unfold checkPath in E.
    assert (H1 : pathsChecked errors0 seen
                   (Forall (λ p, startsWith "/" p = true) (done ++ [path]))
                   (if negb (startsWith "/" path)
                    then pushError ("Invalid path (must start with /): " +:+ path)
                           (mkResult (valid st.1) (errors st.1) (warnings st.1)
                              (mkStats (S (stat_paths (stats st.1)))
                                 (stat_operations (stats st.1))
                                 (stat_schemas (stats st.1))
                                 (stat_parameters (stats st.1))))
                    else mkResult (valid st.1) (errors st.1) (warnings st.1)
                           (mkStats (S (stat_paths (stats st.1)))
                              (stat_operations (stats st.1))
                              (stat_schemas (stats st.1))
                              (stat_parameters (stats st.1))),
                    st.2)).
    { destruct Hst as (Hids & added & Herr & Hadded). split; [done|].
      cbn [fst]. destruct (startsWith "/" path) eqn:Epath; cbn [negb].
      * exists added. split; [done|].
        rewrite Forall_app, Forall_singleton, Hadded, Epath. tauto.
      * exists (added ++ ["Invalid path (must start with /): " +:+ path]).
        split; [unfold pushError; cbn [errors]; by rewrite Herr, <- app_assoc|].
        rewrite Forall_app, Forall_singleton, Epath.
        split; [by intros [_ [=]]%app_eq_nil|]. by intros [[_ ?] _]. }
    pose proof (methods_checked errors0 _ path item Patch.METHODS Hitem
                  (λ m H, H) seen _ st1 H1 E) as H2.
    pose proof (IH Hstr (done ++ [path]) _ st1 st' H2 Hrest) as H3.
    rewrite !fmap_cons. cbn [fst snd concat]. rewrite (app_assoc seen).
    replace (done ++ path :: entries.*1) with ((done ++ [path]) ++ entries.*1)
      by (by rewrite <- app_assoc).
    exact H3.
Qed.
End Duplicates.

(** X9: [validatePaths] adds an error exactly when some path does not start
    with a slash or two operations carry the same identifier: on a
    document whose identifiers are strings, the error list comes back as
    it went in if and only if every path is well formed and the
    identifiers are pairwise different. *)
Theorem validatePaths_flags_bad_paths_and_duplicates
    (spec : value) (result result' : Validate.ValidationResult) :
  let paths := js_or (js_get spec "paths") (JObj []) in
  Forall isString (identifiersOf paths) →
  ValidateDocument.validatePaths spec result = Return result' →
  Validate.errors result' = Validate.errors result
  ↔ Forall (λ p, startsWith "/" p = true) (js_keys paths)
    ∧ NoDup (identifiersOf paths).
Proof.
  intros paths Hstr. unfold ValidateDocument.validatePaths.
  destruct (js_field spec "paths") as [paths0|] eqn:Ep; [|done].
  assert (paths0 = js_get spec "paths") as ->.
  { destruct spec; try done; cbn in Ep; by injection Ep as <-. }
  cbn [bind]. fold paths.
  destruct (forEachM _ _ _) as [st|] eqn:E; [|done]. cbn [bind].
  intros [= <-].
  apply (paths_checked (Validate.errors result) (js_entries paths)) with
    (done := []) (seen := []) in E.
  - destruct E as (_ & added & -> & Hadded). cbn [app] in Hadded.
    rewrite <- Hadded. split.
    + intros H. by apply (app_inv_head (Validate.errors result)); rewrite app_nil_r.
    + intros ->. by rewrite app_nil_r.
  - unfold identifiersOf, js_values in Hstr. clear -Hstr.
    induction ((js_entries paths).*2) as [|item items IH]; [done|].
    rewrite fmap_cons in Hstr. cbn [concat] in Hstr.
    apply Forall_app in Hstr as [H1 H2]. constructor; auto.
  - split; [done|]. exists []. split; [by rewrite app_nil_r|].
    split; [|done]. intros _. split; [done | apply NoDup_nil_2].
Qed.

Lemma validatePaths_flags_bad_paths_and_duplicates_witness :
  ∃ result',
    ValidateDocument.validatePaths duplicateIdSpec emptyResult = Return result'
    ∧ Validate.errors result' = ["Duplicate operationId: getApp"]
    ∧ (Validate.errors result' = Validate.errors emptyResult
       ↔ Forall (λ p, startsWith "/" p = true)
           (js_keys (js_or (js_get duplicateIdSpec "paths") (JObj [])))
         ∧ NoDup (identifiersOf
                    (js_or (js_get duplicateIdSpec "paths") (JObj [])))).
Proof.
  eexists. split; [vm_compute; reflexivity|]. split; [reflexivity|].
  apply (validatePaths_flags_bad_paths_and_duplicates duplicateIdSpec emptyResult).
  - vm_compute. repeat constructor; by eexists.
  - vm_compute. reflexivity.
Defined.

(** ** Overrides and injected schemas (tools/patch.ts) *)
Section Spread.

Lemma obj_keys_absent {A} (k : string) (kv : list (string * A)) :
  k ∉ obj_keys kv → obj_get k kv = None.
Proof.
  intros Hk. destruct (obj_get k kv) eqn:E; [|done].
  destruct Hk. apply obj_has_keys. unfold obj_has. by rewrite E.
Qed.

(** Spreading a record over an object: the record's properties win. *)
Lemma obj_get_spread_over (k : string) (kv acc : list (string * value)) :
  NoDup (obj_keys kv) →
  obj_get k (foldl (λ acc '(k, x), obj_set k x acc) acc kv)
  = match obj_get k kv with
    | Some v => Some v
    | None => obj_get k acc
    end.
Proof.
  revert acc. induction kv as [|[k0 v0] kv IH]; intros acc Hnd; [done|].
  cbn in Hnd. apply NoDup_cons in Hnd as [Hk0 Hnd].
  cbn [foldl obj_get]. rewrite IH by done.
  destruct (String.eqb_spec k0 k) as [->|Hne].
  - rewrite (obj_keys_absent k kv) by done. by rewrite obj_get_set_eq.
  - by rewrite obj_get_set_ne.
Qed.

Lemma js_get_set_eq (kv : list (string * value)) (k : string) (v : value) :
  js_get (js_set (JObj kv) k v) k = v.
Proof. cbn. by rewrite obj_get_set_eq. Qed.

Lemma recordValue_spread (v : value) (k : string) :
  recordValue v → default JUndef (obj_get k (js_spread v)) = js_get v k.
Proof.
  destruct v as [| | | | | |kv]; try done. intros Hnd.
  unfold js_spread. cbn [js_entries js_get].
  rewrite obj_get_spread_over by done. by destruct (obj_get k kv).
Qed.

Lemma spreadBoth_get (current section : value) (k : string) :
  recordValue current → recordValue section →
  js_get (JObj (PatchSchemas.spreadBoth current section)) k
  = if js_has section k then js_get section k else js_get current k.
Proof.
  intros Hc Hs. unfold PatchSchemas.spreadBoth. cbn [js_get].
  destruct section as [| | | | | |kv]; try done.
  - cbn. by apply recordValue_spread.
  - cbn [js_entries js_has js_get]. rewrite obj_get_spread_over by done.
    unfold obj_has. destruct (obj_get k kv); [done|].
    by apply recordValue_spread.
Qed.
End Spread.

(** X10: [mergeOverrides]: after the merge, a schema named in the overrides is
    the override, whatever the document held under that name, and every
    other schema is the document's own. *)
Theorem mergeOverrides_override_wins
    (skv ckv okv : list (string * value)) (name : string) :
  let spec := JObj skv in
  let overrides := JObj okv in
  js_get spec "components" = JObj ckv →
  recordValue (schemasOf spec) →
  recordValue (js_get overrides "schemas") →
  ∃ spec',
    PatchSchemas.mergeOverrides spec overrides = Return spec'
    ∧ js_get (schemasOf spec') name
      = if js_has (js_get overrides "schemas") name
        then js_get (js_get overrides "schemas") name
        else js_get (schemasOf spec) name.
Proof.
  intros spec overrides Hc Hcur Hov. subst spec overrides.
  unfold schemasOf in *. rewrite Hc in *.
  unfold PatchSchemas.mergeOverrides.
  set (section := js_get (JObj okv) "schemas") in *.
  set (current := js_get (JObj ckv) "schemas") in *.
  assert (H1 : ∃ skv1 ckv1,
    PatchSchemas.mergeSection "schemas" (JObj okv) (JObj skv) = Return (JObj skv1)
    ∧ js_get (JObj skv1) "components" = JObj ckv1
    ∧ js_get (js_get (JObj ckv1) "schemas") name
      = if js_has section name then js_get section name
        else js_get current name).
  { unfold PatchSchemas.mergeSection. cbn [js_field bind]. fold section.
    destruct (truthy section) eqn:Et.
    - rewrite Hc. cbn [js_field bind js_assign]. fold current.
      exists (obj_set "components"
                (JObj (obj_set "schemas"
                         (JObj (PatchSchemas.spreadBoth current section)) ckv))
                skv),
             (obj_set "schemas"
                (JObj (PatchSchemas.spreadBoth current section)) ckv).
      split; [reflexivity|]. split.
      + cbn [js_get]. by rewrite obj_get_set_eq.
      + cbn [js_get]. rewrite obj_get_set_eq. cbn [default].
        by apply (spreadBoth_get current section name).
    - exists skv, ckv. split; [done|]. split; [done|]. fold current.
      assert (js_has section name = false) as ->; [|done].
      by destruct section as [| | | | | |[|]]. }
  destruct H1 as (skv1 & ckv1 & -> & Hc1 & Hname). cbn [bind].
  unfold PatchSchemas.mergeSection. cbn [js_field bind].
  destruct (truthy (js_get (JObj okv) "parameters")).
  - rewrite Hc1. cbn [js_field bind js_assign]. eexists. split; [reflexivity|].
    rewrite <- Hname, js_get_set_eq. by rewrite (js_get_set_ne (JObj ckv1)).
  - eexists. split; [reflexivity|]. by rewrite Hc1.
Qed.

Lemma mergeOverrides_override_wins_witness :
  ∃ spec',
    PatchSchemas.mergeOverrides
      (JObj [("components",
               JObj [("schemas",
                       JObj [("App", JObj [("type", JStr "object")]);
                             ("Field", JObj [("type", JStr "string")])])])])
      (JObj [("schemas", JObj [("Field", JObj [("type", JStr "integer")])])])
    = Return spec'
    ∧ js_get (schemasOf spec') "Field" = JObj [("type", JStr "integer")].
Proof.
  apply (mergeOverrides_override_wins
           [("components",
              JObj [("schemas",
                      JObj [("App", JObj [("type", JStr "object")]);
                            ("Field", JObj [("type", JStr "string")])])])]
           [("schemas",
              JObj [("App", JObj [("type", JStr "object")]);
                    ("Field", JObj [("type", JStr "string")])])]
           [("schemas", JObj [("Field", JObj [("type", JStr "integer")])])]
           "Field").
  - reflexivity.
  - vm_compute. repeat constructor; rewrite ?elem_of_cons, ?elem_of_nil;
      intros H; repeat (destruct H as [H|H]; [discriminate H|]); exact H.
  - vm_compute. repeat constructor. by intros ?%elem_of_nil.
Defined.

(** ** Type names (tools/patch.ts) *)
Section InvalidTypes.
Import PatchSchemas.

Lemma vdepth_elem (x : value) (l : list value) :
  x ∈ l → vdepth x < vdepth (JArr l).
Proof.
  induction l as [|y l IH]; [by intros ?%elem_of_nil|].
  intros [->|H]%elem_of_cons; cbn in *; [lia|].
  apply IH in H. lia.
Qed.

Lemma vdepth_member (k : string) (x : value) (kv : list (string * value)) :
  (k, x) ∈ kv → vdepth x < vdepth (JObj kv).
Proof.
  induction kv as [|[k0 v0] kv IH]; [by intros ?%elem_of_nil|].
  intros [[= <- <-]|H]%elem_of_cons; cbn in *; [lia|].
  apply IH in H. lia.
Qed.

Lemma mapM_returns {A B} (R : A → B → Prop) (f : A → outcome B) (xs : list A) :
  (∀ x, x ∈ xs → ∃ y, f x = Return y ∧ R x y) →
  ∃ ys, mapM f xs = Return ys ∧ Forall2 R xs ys.
Proof.
  induction xs as [|x xs IH]; intros Hf; cbn [mapM].
  - by exists [].
  - destruct (Hf x) as (y & -> & Hy); [by left|]. cbn [bind].
    destruct IH as (ys & -> & Hys).
    + intros x' Hx'. apply Hf. by right.
    + cbn [bind]. exists (y :: ys). split; [done | by constructor].
Qed.

Lemma obj_replace_elem {A} (k0 k : string) (x v : A) (kv : list (string * A)) :
  (k, v) ∈ obj_replace k0 x kv → (k, v) = (k0, x) ∨ (k, v) ∈ kv.
Proof.
  induction kv as [|[k1 v1] kv IH]; cbn; [by intros ?%elem_of_nil|].
  destruct (String.eqb_spec k1 k0) as [->|Hne].
  - intros [->|H]%elem_of_cons; [by left | right; by right].
  - intros [->|H]%elem_of_cons; [right; by left|].
    destruct (IH H) as [?|?]; [by left | right; by right].
Qed.

Lemma scalar_intFree (v : value) : isObject v = false → intFree v v.
Proof. by destruct v. Qed.

Lemma entries_intFree (kv kv' : list (string * value)) :
  Forall2 (λ p p', p.1 = p'.1 ∧ intFree p.2 p'.2) kv kv' →
  existsb (λ p, declaresInt p.2) kv' = false
  ∧ is_str "int" (default JUndef (obj_get "type" kv'))
    = is_str "int" (default JUndef (obj_get "type" kv)).
Proof.
  induction 1 as [|[k v] [k' v'] kv kv' (Hk & Hd & Hs) _ [IH1 IH2]]; [done|].
  cbn in Hk, Hd, Hs. subst k'. cbn. rewrite Hd, IH1. split; [done|].
  by destruct (String.eqb k "type").
Qed.

Lemma fixInvalidTypes_intFree (stack : nat) (obj : value) :
  vdepth obj < stack →
  ∃ r, fixInvalidTypes stack obj = Return r ∧ intFree obj r.
Proof.
  revert obj. induction stack as [|stack IH]; intros obj Hdepth; [lia|].
  cbn [fixInvalidTypes]. unfold fixInvalidTypesBody.
  assert (Hvisit : ∀ v, vdepth v < stack →
    ∃ v', (if isObject v then fixInvalidTypes stack v else Return v) = Return v'
          ∧ intFree v v').
  { intros v Hv. destruct (isObject v) eqn:E; [by apply IH|].
    exists v. split; [done | by apply scalar_intFree]. }
  destruct (isObject obj) eqn:Eobj.
  2:{ exists obj. split; [|by apply scalar_intFree].
      rewrite <- negb_andb. fold (isObject obj). by rewrite Eobj. }
  destruct obj as [| |b|n|s|l|kv];
    try (apply andb_prop in Eobj as [Etruthy Eobj];
         first [discriminate Eobj | discriminate Etruthy]).
  - change (negb (truthy (JArr l))
            || negb (String.eqb (js_typeof (JArr l)) "object")) with false.
    change (is_str "int" (js_get (JArr l) "type")) with false. cbn beta iota.
    destruct (mapM_returns intFree
                (λ v, if isObject v then fixInvalidTypes stack v else Return v) l)
      as (l' & -> & Hl').
    { intros v Hv. apply Hvisit. apply vdepth_elem in Hv. lia. }
    cbn [bind]. exists (JArr l'). split; [done|]. split; [|done].
    cbn. clear -Hl'. induction Hl' as [|v v' l l' [Hd _] _ IHl]; [done|].
    cbn. by rewrite Hd.
  - change (negb (truthy (JObj kv))
            || negb (String.eqb (js_typeof (JObj kv)) "object")) with false.
    cbn beta iota.
    set (kv1 := if is_str "int" (js_get (JObj kv) "type")
                then obj_set "type" (JStr "integer") kv else kv).
    assert (Hrecord :
      (if is_str "int" (js_get (JObj kv) "type")
       then js_set (JObj kv) "type" (JStr "integer") else JObj kv) = JObj kv1).
    { unfold kv1. by destruct (is_str _ _). }
    rewrite Hrecord.
    assert (Hmem : ∀ k v, (k, v) ∈ kv1 → vdepth v < stack).
    { intros k v. unfold kv1. destruct (is_str _ _) eqn:Eint.
      - unfold obj_set, obj_has. cbn [js_get] in Eint.
        destruct (obj_get "type" kv); [|done].
        intros [[= -> ->]|H]%obj_replace_elem; [cbn in Hdepth |- *; lia|].
        apply vdepth_member in H. lia.
      - intros H%vdepth_member. lia. }
    assert (Htype : is_str "int" (default JUndef (obj_get "type" kv1)) = false).
    { unfold kv1. destruct (is_str _ _) eqn:Eint; [|done].
      by rewrite obj_get_set_eq. }
    destruct (mapM_returns (λ p p', p.1 = p'.1 ∧ intFree p.2 p'.2)
                (λ '(key, v),
                   let* v' := (if isObject v then fixInvalidTypes stack v
                               else Return v) in
                   Return (key, v')) kv1)
      as (kv' & -> & Hkv').
    { intros [k v] Hkv. destruct (Hvisit v) as (v' & -> & Hv'); [by eapply Hmem|].
      cbn [bind]. by exists (k, v'). }
    cbn [bind]. exists (JObj kv'). split; [done|]. split; [|done].
    apply entries_intFree in Hkv' as [Hex Hty]. cbn [declaresInt].
    by rewrite Hex, Hty, Htype.
Qed.
End InvalidTypes.

(** X11: [fixInvalidTypes] answers whenever the stack is deeper than the value
    nests, and in what it hands back no object, at any depth, declares the
    type ["int"]. *)
Theorem fixInvalidTypes_leaves_no_int (stack : nat) (obj : value) :
  vdepth obj < stack →
  ∃ fixed,
    PatchSchemas.fixInvalidTypes stack obj = Return fixed
    ∧ declaresInt fixed = false.
Proof.
  intros Hdepth.
  destruct (fixInvalidTypes_intFree stack obj Hdepth) as (r & Hr & Hfree & _).
  by exists r.
Qed.

Lemma fixInvalidTypes_leaves_no_int_witness :
  ∃ fixed,
    PatchSchemas.fixInvalidTypes 5
      (JObj [("type", JStr "object");
             ("properties",
               JObj [("id", JObj [("type", JStr "int")]);
                     ("tags", JObj [("type", JStr "array");
                                    ("items", JObj [("type", JStr "int")])])])])
    = Return fixed
    ∧ declaresInt fixed = false.
Proof.
  apply (fixInvalidTypes_leaves_no_int 5). vm_compute. lia.
Defined.

(** ** The schemas the patch adds (tools/patch.ts) *)
Section Injected.
Import PatchSchemas.

Lemma ensureSchemas_result (skv ckv : list (string * value)) :
  js_get (JObj skv) "components" = JObj ckv →
  recordValue (js_get (JObj ckv) "schemas") →
  ∃ skv1 ckv1 sch1,
    ensureSchemas (JObj skv) = Return (JObj skv1)
    ∧ js_get (JObj skv1) "components" = JObj ckv1
    ∧ js_get (JObj ckv1) "schemas" = JObj sch1
    ∧ ∀ name, js_get (JObj sch1) name
              = js_get (js_get (JObj ckv) "schemas") name.
Proof.
  intros Hc Hs. unfold ensureSchemas. cbn [js_field bind]. rewrite Hc.
  cbn [js_field bind].
  destruct (js_get (JObj ckv) "schemas") as [| | | | | |sch] eqn:E; try done.
  - cbn [truthy negb js_assign bind].
    exists (obj_set "components" (JObj (obj_set "schemas" (JObj []) ckv)) skv),
           (obj_set "schemas" (JObj []) ckv), [].
    split; [reflexivity|]. split; [cbn; by rewrite obj_get_set_eq|].
    split; [cbn; by rewrite obj_get_set_eq|]. done.
  - exists skv, ckv, sch. by rewrite Hc, E.
Qed.

Lemma ensureSchemas_present (skv ckv sch : list (string * value)) :
  js_get (JObj skv) "components" = JObj ckv →
  js_get (JObj ckv) "schemas" = JObj sch →
  ensureSchemas (JObj skv) = Return (JObj skv).
Proof.
  intros Hc Hs. unfold ensureSchemas. cbn [js_field bind]. rewrite Hc.
  cbn [js_field bind]. by rewrite Hs.
Qed.

Lemma setSchema_result (skv ckv sch : list (string * value))
    (name : string) (schema : value) :
  js_get (JObj skv) "components" = JObj ckv →
  js_get (JObj ckv) "schemas" = JObj sch →
  ∃ skv1 ckv1,
    setSchema name schema (JObj skv) = Return (JObj skv1)
    ∧ js_get (JObj skv1) "components" = JObj ckv1
    ∧ js_get (JObj ckv1) "schemas" = JObj (obj_set name schema sch).
Proof.
  intros Hc Hs. unfold setSchema. cbn [js_field bind]. rewrite Hc.
  cbn [js_field bind]. rewrite Hs. cbn [js_assign bind js_set].
  eexists _, _. split; [reflexivity|].
  split; cbn; by rewrite obj_get_set_eq.
Qed.

Lemma injected_pointers (name : string) (schema : value) (ref : string) :
  (name, schema) ∈ injectedSchemas → reachableRef schema ref →
  ∃ target, ref = schemaPointer target ∧ slashFree target = true
            ∧ target ∈ injectedSchemas.*1.
Proof.
  intros Hin Hreach.
  assert (Href : ref ∈ Validate.collectRefs schema [])
    by (apply collectRefs_reachable; by right).
  unfold injectedSchemas in Hin.
  rewrite !elem_of_cons, elem_of_nil in Hin.
  destruct Hin as [[= -> ->]|[[= -> ->]|[[= -> ->]|[[= -> ->]|[]]]]];
    match type of Href with
    | _ ∈ ?refs =>
        let l := eval vm_compute in refs in
        replace refs with l in Href by (vm_compute; reflexivity)
    end;
    rewrite ?elem_of_cons, ?elem_of_nil in Href.
  - done.
  - destruct Href as [->|[]]. exists "FieldValue". split; [done|].
    split; [done|]. cbn. rewrite !elem_of_cons. tauto.
  - done.
  - destruct Href as [->|[]]. exists "SortField". split; [done|].
    split; [done|]. cbn. rewrite !elem_of_cons. tauto.
Qed.
End Injected.

(** X12: after [addRecordSchemas] and [addSortFieldSchema] the four schemas of
    the patch are in [components.schemas], every other schema is as it
    was, and every pointer inside the four resolves to a node of the
    document. *)
Theorem injected_schemas_are_in_place_and_closed
    (skv ckv : list (string * value)) :
  let spec := JObj skv in
  js_get spec "components" = JObj ckv →
  recordValue (schemasOf spec) →
  ∃ spec',
    (let* spec1 := PatchSchemas.addRecordSchemas spec in
     PatchSchemas.addSortFieldSchema spec1) = Return spec'
    ∧ (∀ name schema, (name, schema) ∈ injectedSchemas →
         js_get (schemasOf spec') name = schema)
    ∧ (∀ name, name ∉ injectedSchemas.*1 →
         js_get (schemasOf spec') name = js_get (schemasOf spec) name)
    ∧ (∀ name schema ref,
         (name, schema) ∈ injectedSchemas → reachableRef schema ref →
         ∃ node, HealthCheck.resolveRef (JStr ref) spec' = Return node
                 ∧ truthy node = true).
Proof.
  intros spec Hc Hs. subst spec. unfold schemasOf in *. rewrite Hc in *.
  unfold PatchSchemas.addRecordSchemas, PatchSchemas.addSortFieldSchema.
  destruct (ensureSchemas_result skv ckv Hc Hs)
    as (skv1 & ckv1 & sch1 & -> & Hc1 & Hs1 & Hold).
  cbn [bind].
  destruct (setSchema_result skv1 ckv1 sch1 "FieldValue"
              PatchSchemas.FieldValue Hc1 Hs1) as (skv2 & ckv2 & -> & Hc2 & Hs2).
  cbn [bind].
  destruct (setSchema_result skv2 ckv2 _ "QuickbaseRecord"
              PatchSchemas.QuickbaseRecord Hc2 Hs2) as (skv3 & ckv3 & -> & Hc3 & Hs3).
  cbn [bind].
  rewrite (ensureSchemas_present skv3 ckv3 _ Hc3 Hs3). cbn [bind].
  destruct (setSchema_result skv3 ckv3 _ "SortField"
              PatchSchemas.SortField Hc3 Hs3) as (skv5 & ckv5 & -> & Hc5 & Hs5).
  cbn [bind].
  destruct (setSchema_result skv5 ckv5 _ "SortByUnion"
              PatchSchemas.SortByUnion Hc5 Hs5) as (skv6 & ckv6 & -> & Hc6 & Hs6).
  exists (JObj skv6). split; [done|]. rewrite Hc6, Hs6.
  set (final := obj_set "SortByUnion" _ _) in *.
  assert (Hget : ∀ name,
    js_get (JObj final) name
    = match obj_get name injectedSchemas with
      | Some schema => schema
      | None => js_get (js_get (JObj ckv) "schemas") name
      end).
  { intros name. rewrite <- Hold. unfold final, injectedSchemas.
    cbn [js_get obj_get].
    destruct (String.eqb_spec "FieldValue" name) as [<-|H1].
    { by rewrite !obj_get_set_ne, obj_get_set_eq by done. }
    destruct (String.eqb_spec "QuickbaseRecord" name) as [<-|H2].
    { by rewrite !obj_get_set_ne, obj_get_set_eq by done. }
    destruct (String.eqb_spec "SortField" name) as [<-|H3].
    { by rewrite !obj_get_set_ne, obj_get_set_eq by done. }
    destruct (String.eqb_spec "SortByUnion" name) as [<-|H4].
    { by rewrite obj_get_set_eq. }
    by rewrite !obj_get_set_ne by done. }
  assert (Hin : ∀ name schema,
    (name, schema) ∈ injectedSchemas → obj_get name injectedSchemas = Some schema).
  { intros name schema. unfold injectedSchemas.
    rewrite !elem_of_cons, elem_of_nil.
    intros [[= -> ->]|[[= -> ->]|[[= -> ->]|[[= -> ->]|[]]]]]; reflexivity. }
  split; [|split].
  - intros name schema Hns. by rewrite Hget, (Hin _ _ Hns).
  - intros name Hname. rewrite Hget.
    rewrite (obj_keys_absent name injectedSchemas); [done|].
    exact Hname.
  - intros name schema ref Hns Hreach.
    destruct (injected_pointers name schema ref Hns Hreach)
      as (target & -> & Hslash & Htarget).
    rewrite (resolveRef_schema_pointer skv6 ckv6 final) by done.
    eexists. split; [reflexivity|].
    apply list_elem_of_fmap in Htarget as ([t schema'] & -> & Hts).
    specialize (Hget t). rewrite (Hin _ _ Hts) in Hget. cbn [js_get] in Hget.
    cbn [fst]. destruct (obj_get t final) as [node|]; cbn in Hget |- *.
    + subst node. clear -Hts. unfold injectedSchemas in Hts.
      rewrite !elem_of_cons, elem_of_nil in Hts.
      destruct Hts as [[= -> ->]|[[= -> ->]|[[= -> ->]|[[= -> ->]|[]]]]];
        reflexivity.
    + subst schema'. clear -Hts. unfold injectedSchemas in Hts.
      rewrite !elem_of_cons, elem_of_nil in Hts.
      destruct Hts as [[= ? ?]|[[= ? ?]|[[= ? ?]|[[= ? ?]|[]]]]].
Qed.

Lemma injected_schemas_are_in_place_and_closed_witness :
  ∃ spec',
    (let* spec1 := PatchSchemas.addRecordSchemas pointerSpec in
     PatchSchemas.addSortFieldSchema spec1) = Return spec'
    ∧ (∀ name schema, (name, schema) ∈ injectedSchemas →
         js_get (schemasOf spec') name = schema)
    ∧ (∀ name, name ∉ injectedSchemas.*1 →
         js_get (schemasOf spec') name = js_get (schemasOf pointerSpec) name)
    ∧ (∀ name schema ref,
         (name, schema) ∈ injectedSchemas → reachableRef schema ref →
         ∃ node, HealthCheck.resolveRef (JStr ref) spec' = Return node
                 ∧ truthy node = true).
Proof.
  apply (injected_schemas_are_in_place_and_closed
           [("components", JObj [("schemas", JObj [("A", stringSchema)])])]
           [("schemas", JObj [("A", stringSchema)])]).
  - reflexivity.
  - vm_compute. repeat constructor. by intros ?%elem_of_nil.
Defined.

Section Descriptions.
Import PatchSchemas.

Lemma mapM_Forall2 {A B} (f : A → outcome B) (xs : list A) (ys : list B) :
  mapM f xs = Return ys → Forall2 (λ x y, f x = Return y) xs ys.
Proof.
  revert ys. induction xs as [|x xs IH]; intros ys; cbn [mapM].
  - intros [= <-]. constructor.
  - destruct (f x) as [y|] eqn:E; [|done]. cbn [bind].
    destruct (mapM f xs) as [ys'|]; [|done]. cbn [bind].
    intros [= <-]. constructor; [done | by apply IH].
Qed.

Lemma describeSchema_described (name name' : string) (schema schema' : value) :
  describeSchema (name, schema) = Return (name', schema') →
  name' = name
  ∧ js_get schema' "type" = js_get schema "type"
  ∧ (is_str "object" (js_get schema' "type") = true →
     truthy (js_get schema' "description") = true)
  ∧ (truthy (js_get schema "description") = true → schema' = schema).
Proof.
  unfold describeSchema.
  destruct (js_field schema "additionalProperties"); [|done]. cbn [bind].
  destruct (truthy (js_get schema "description")) eqn:Ed; cbn [negb andb].
  - by intros [= <- <-].
  - destruct (is_str "object" (js_get schema "type")) eqn:Et.
    + destruct schema as [| | | | | |kv]; try done.
      cbn [js_assign bind]. intros [= <- <-]. split; [done|].
      cbn [js_set js_get]. rewrite obj_get_set_ne by done.
      split; [done|]. split; [|done].
      intros _. rewrite obj_get_set_eq. cbn. by destruct name.
    + intros [= <- <-]. by rewrite Et.
Qed.
End Descriptions.

(** X13: after [patchSchemas] every component schema of type ["object"] has a
    description; the schemas keep their names, their order and their
    types, and one that had a description is as it was. *)
Theorem patchSchemas_describes_object_schemas
    (skv ckv sch : list (string * value)) (spec' : value) :
  let spec := JObj skv in
  js_get spec "components" = JObj ckv →
  schemasOf spec = JObj sch →
  PatchSchemas.patchSchemas spec = Return spec' →
  ∃ sch',
    schemasOf spec' = JObj sch'
    ∧ Forall2 (λ old new,
        new.1 = old.1
        ∧ js_get new.2 "type" = js_get old.2 "type"
        ∧ (is_str "object" (js_get new.2 "type") = true →
           truthy (js_get new.2 "description") = true)
        ∧ (truthy (js_get old.2 "description") = true → new.2 = old.2))
        sch sch'.
Proof.
  intros spec Hc Hs. subst spec. unfold schemasOf in *. rewrite Hc in Hs.
  unfold PatchSchemas.patchSchemas. cbn [js_field bind]. rewrite Hc.
  cbn [js_field bind]. rewrite Hs. cbn [js_or truthy js_entries].
  destruct (mapM PatchSchemas.describeSchema sch) as [entries|] eqn:E; [|done].
  cbn [bind]. intros [= <-]. exists entries.
  cbn [js_set js_get]. rewrite obj_get_set_eq. cbn [default id js_get].
  rewrite obj_get_set_eq. split; [done|].
  apply mapM_Forall2 in E. eapply Forall2_impl; [exact E|].
  intros [name schema] [name' schema']. apply describeSchema_described.
Qed.

Lemma patchSchemas_describes_object_schemas_witness :
  ∃ spec' sch',
    PatchSchemas.patchSchemas
      (JObj [("components",
               JObj [("schemas",
                       JObj [("App", JObj [("type", JStr "object")]);
                             ("Id", JObj [("type", JStr "string")])])])])
    = Return spec'
    ∧ schemasOf spec' = JObj sch'
    ∧ js_get (js_get (JObj sch') "App") "description" = JStr "App object"
    ∧ js_get (js_get (JObj sch') "Id") "description" = JUndef.
Proof.
  eexists.
  destruct (patchSchemas_describes_object_schemas
              [("components",
                 JObj [("schemas",
                         JObj [("App", JObj [("type", JStr "object")]);
                               ("Id", JObj [("type", JStr "string")])])])]
              [("schemas",
                 JObj [("App", JObj [("type", JStr "object")]);
                       ("Id", JObj [("type", JStr "string")])])]
              [("App", JObj [("type", JStr "object")]);
               ("Id", JObj [("type", JStr "string")])]
              _ eq_refl eq_refl eq_refl) as (sch' & Hs & _).
  exists sch'. split; [reflexivity|]. split; [exact Hs|].
  vm_compute in Hs. injection Hs as <-. split; reflexivity.
Defined.

(** ** Fixtures matched to operations (tools/health-check.ts) *)
Section Matching.
Import Coverage Collections.

Lemma findM_some {A} (p : A → outcome bool) (xs : list A) (x : A) :
  findM p xs = Return (Some x) →
  ∃ before after,
    xs = before ++ x :: after ∧ p x = Return true
    ∧ Forall (λ y, p y = Return false) before.
Proof.
  induction xs as [|y xs IH]; cbn [findM]; [done|].
  destruct (p y) as [[|]|] eqn:E; cbn [bind]; [| |done].
  - intros [= <-]. by exists [], xs.
  - intros (before & after & -> & Hx & Hb)%IH.
    exists (y :: before), after. split; [done|]. split; [done|].
    by constructor.
Qed.

Lemma findM_none {A} (p : A → outcome bool) (xs : list A) :
  findM p xs = Return None → Forall (λ y, p y = Return false) xs.
Proof.
  induction xs as [|y xs IH]; cbn [findM]; [done|].
  destruct (p y) as [[|]|] eqn:E; cbn [bind]; [done| |done].
  intros H. constructor; [done | by apply IH].
Qed.

Lemma byFolder_true (folder : string) (entry : value * (value * value)) :
  (let '(opId, (opTag, operation)) := entry in
   let* expectedFolder := Generate.toKebabCase opId in
   Return (String.eqb expectedFolder folder)) = Return true
  ↔ inFolder folder entry.
Proof.
  destruct entry as [opId [opTag operation]]. unfold inFolder. cbn [fst].
  destruct (Generate.toKebabCase opId) as [f|]; cbn [bind]; [|done].
  split.
  - by intros [= ->%String.eqb_eq].
  - intros [= ->]. by rewrite String.eqb_refl.
Qed.

Lemma byTag_true (tag folder : string) (entry : value * (value * value)) :
  (let '(opId, (opTag, operation)) := entry in
   let* expectedFolder := Generate.toKebabCase opId in
   let* opTagLower := lowerCaseOf opTag in
   Return (String.eqb opTagLower (toLowerCase tag)
           && String.eqb expectedFolder folder)) = Return true
  ↔ underTag tag entry ∧ inFolder folder entry.
Proof.
  destruct entry as [opId [opTag operation]]. unfold inFolder, underTag.
  cbn [fst snd].
  destruct (Generate.toKebabCase opId) as [f|]; cbn [bind]; [|by split; [|intros []]].
  destruct (lowerCaseOf opTag) as [t|]; cbn [bind]; [|by split; [|intros []]].
  split.
  - intros [= [->%String.eqb_eq ->%String.eqb_eq]%andb_prop]. done.
  - intros [[= ->] [= ->]]. by rewrite !String.eqb_refl.
Qed.
End Matching.

(** X14: [findOperation] is sound and complete for the folder, and prefers the
    tag: what it returns is an entry of the map whose identifier, in
    kebab case, is the folder; it returns nothing only when no entry is
    in that folder; and whenever some entry is in the folder under the
    fixture's tag, the entry returned is under that tag too. *)
Theorem findOperation_matches_folder_and_prefers_tag
    (tag folder : string) (map : Coverage.operationMap)
    (found : option (value * value)) :
  Coverage.findOperation tag folder map = Return found →
  match found with
  | Some (opId, operation) =>
      ∃ opTag,
        (opId, (opTag, operation)) ∈ map
        ∧ inFolder folder (opId, (opTag, operation))
        ∧ ((∃ entry, entry ∈ map ∧ underTag tag entry ∧ inFolder folder entry) →
           underTag tag (opId, (opTag, operation)))
  | None => ∀ entry, entry ∈ map → ¬ inFolder folder entry
  end.
Proof.
  unfold Coverage.findOperation.
  destruct (Coverage.findM _ map) as [[[opId [opTag operation]]|]|] eqn:E1;
    cbn [bind]; [| |done].
  - intros [= <-].
    apply findM_some in E1 as (before & after & -> & Hp & _).
    apply (byTag_true tag folder (opId, (opTag, operation))) in Hp as [Ht Hf].
    exists opTag. split; [|done].
    rewrite elem_of_app, elem_of_cons. by right; left.
  - apply findM_none in E1. rewrite Forall_forall in E1.
    destruct (Coverage.findM _ map) as [[[opId [opTag operation]]|]|] eqn:E2;
      cbn [bind]; [| |done].
    + intros [= <-].
      apply findM_some in E2 as (before & after & -> & Hf & _).
      apply (byFolder_true folder (opId, (opTag, operation))) in Hf.
      exists opTag. split; [rewrite elem_of_app, elem_of_cons; by right; left|].
      split; [done|].
      intros (entry & Hin & Ht & Hfe).
      specialize (E1 entry Hin).
      assert (Htrue := proj2 (byTag_true tag folder entry) (conj Ht Hfe)).
      rewrite Htrue in E1. discriminate E1.
    + intros [= <-]. apply findM_none in E2. rewrite Forall_forall in E2.
      intros entry Hin Hf%byFolder_true. rewrite (E2 entry Hin) in Hf.
      discriminate Hf.
Qed.

Lemma findOperation_matches_folder_and_prefers_tag_witness :
  ∃ opTag,
    (JStr "getApp", (opTag, JObj [("operationId", JStr "getApp")]))
    ∈ [(JStr "GetApp", (JStr "Misc", JObj [("operationId", JStr "GetApp")]));
       (JStr "getApp", (JStr "Apps", JObj [("operationId", JStr "getApp")]))]
    ∧ inFolder "get-app"
        (JStr "getApp", (opTag, JObj [("operationId", JStr "getApp")]))
    ∧ ((∃ entry,
          entry ∈ [(JStr "GetApp", (JStr "Misc", JObj [("operationId", JStr "GetApp")]));
                   (JStr "getApp", (JStr "Apps", JObj [("operationId", JStr "getApp")]))]
          ∧ underTag "apps" entry ∧ inFolder "get-app" entry) →
       underTag "apps"
         (JStr "getApp", (opTag, JObj [("operationId", JStr "getApp")]))).
Proof.
  apply (findOperation_matches_folder_and_prefers_tag "apps" "get-app"
           [(JStr "GetApp", (JStr "Misc", JObj [("operationId", JStr "GetApp")]));
            (JStr "getApp", (JStr "Apps", JObj [("operationId", JStr "getApp")]))]
           (Some (JStr "getApp", JObj [("operationId", JStr "getApp")]))).
  vm_compute. reflexivity.
Defined.

(** ** Coverage (tools/health-check.ts) *)
Section CoverageCount.
Import Coverage Collections.

Lemma sameValueZero_eq (v : value) (s : string) :
  sameValueZero v (JStr s) = true ↔ v = JStr s.
Proof.
  destruct v; cbn; try (split; [discriminate | done]).
  rewrite String.eqb_eq. split; [by intros -> | by intros [= ->]].
Qed.

Lemma map_set_keys {A} (k : value) (x : A) (m : list (value * A)) :
  (map_set k x m).*1
  = if existsb (λ k', sameValueZero k' k) m.*1 then m.*1 else m.*1 ++ [k].
Proof.
  induction m as [|[k' x'] m IH]; [done|]. cbn [map_set].
  rewrite fmap_cons. cbn [fst existsb].
  destruct (sameValueZero k' k); cbn [orb]; [done|].
  rewrite fmap_cons, IH. cbn [fst]. by destruct (existsb _ _).
Qed.

Lemma map_set_distinct (k : value) (x : value * value) (m : operationMap) :
  distinctKeys m → distinctKeys (map_set k x m).
Proof.
  unfold distinctKeys. rewrite map_set_keys.
  destruct (existsb _ _) eqn:E; [done|]. intros Hnd.
  rewrite List.filter_app. cbn [List.filter].
  destruct (isStr k) eqn:Ek; [|by rewrite app_nil_r].
  apply NoDup_app. split; [done|]. split; [|apply NoDup_singleton].
  intros v Hv ->%list_elem_of_singleton.
  apply list_elem_of_In, filter_In in Hv as [Hv _].
  destruct k as [| | | |s| |]; try done.
  assert (existsb (λ k', sameValueZero k' (JStr s)) m.*1 = true); [|congruence].
  apply existsb_exists. exists (JStr s). split; [done|].
  by apply sameValueZero_eq.
Qed.

Lemma buildOperationMap_distinct (spec : value) (map : operationMap) :
  buildOperationMap spec = Return map → distinctKeys map.
Proof.
  unfold buildOperationMap.
  destruct (js_field spec "paths") as [paths|]; [|done]. cbn [bind].
  assert (Hloop :
    forEachM (λ methods map,
      match methods with
      | JUndef | JNull => Throw TypeError
      | _ => Return (foldl addOperation map (js_entries methods))
      end) (js_values paths) [] = Return map → distinctKeys map).
  { apply (forEachM_invariant distinctKeys); [|apply NoDup_nil_2].
    intros methods m m' _ Hm Hstep.
    assert (Hfold : ∀ entries m0,
      distinctKeys m0 → distinctKeys (foldl addOperation m0 entries)).
    { induction entries as [|[method operation] entries IH]; intros m0 Hm0;
        [done|].
      cbn [foldl]. apply IH. unfold addOperation.
      destruct (String.eqb method "parameters"); [done|].
      destruct (truthy _); [|done]. by apply map_set_distinct. }
    destruct methods; try done; injection Hstep as <-;
      first [exact Hm | by apply Hfold]. }
  destruct paths; try done; exact Hloop.
Qed.

Lemma set_has_strings (cov : list value) (v : value) :
  Forall (λ x, isStr x = true) cov → set_has cov v = true ↔ v ∈ cov.
Proof.
  intros Hcov. unfold set_has. rewrite existsb_exists. split.
  - intros (x & Hx & Hsame). apply list_elem_of_In in Hx.
    rewrite Forall_forall in Hcov. specialize (Hcov x Hx).
    destruct x as [| | | |s| |]; try done.
    assert (v = JStr s) as ->; [|done].
    destruct v; cbn in Hsame; try done. by apply String.eqb_eq in Hsame as ->.
  - intros Hv. exists v. split; [by apply list_elem_of_In|].
    rewrite Forall_forall in Hcov. specialize (Hcov v Hv).
    destruct v; try done. cbn. apply String.eqb_refl.
Qed.

Lemma findOperation_key (tag folder : string) (map : operationMap)
    (opId operation : value) :
  findOperation tag folder map = Return (Some (opId, operation)) →
  isStr opId = true ∧ opId ∈ map.*1.
Proof.
  unfold findOperation.
  assert (Hkey : ∀ (p : value * (value * value) → outcome bool) entry,
    (∀ e, p e = Return true → ∃ f, Generate.toKebabCase e.1 = Return f) →
    findM p map = Return (Some entry) →
    isStr entry.1 = true ∧ entry.1 ∈ map.*1).
  { intros p entry Hp (before & after & -> & Hx & _)%findM_some.
    destruct (Hp _ Hx) as [f Hf]. split.
    - by destruct entry.1.
    - rewrite fmap_app, fmap_cons, elem_of_app, elem_of_cons. by right; left. }
  destruct (findM _ map) as [[[id [t op]]|]|] eqn:E1; cbn [bind]; [| |done].
  - intros [= <- <-]. eapply (Hkey _ (id, (t, op))); [|exact E1].
    intros [id' [t' op']]. cbn [fst].
    destruct (Generate.toKebabCase id'); [by eexists | done].
  - clear E1.
    destruct (findM _ map) as [[[id [t op]]|]|] eqn:E2; cbn [bind]; [| |done].
    + intros [= <- <-]. eapply (Hkey _ (id, (t, op))); [|exact E2].
      intros [id' [t' op']]. cbn [fst].
      destruct (Generate.toKebabCase id'); [by eexists | done].
    + done.
Qed.

Lemma checkFixture_covered stack spec map file st st' :
  coveredWithin map st →
  checkFixture stack spec map file st = Return st' →
  coveredWithin map st'.
Proof.
  intros Hst. unfold checkFixture. destruct file as [rel fixture].
  destruct (parseFixturePath rel) as [info|]; [|by intros [= <-]].
  destruct (_ && _); [by intros [= <-]|].
  destruct (findOperation _ _ map) as [[[operationId operation]|]|] eqn:Ef;
    cbn [bind]; [| |done].
  - destruct (validateFixture _ _ _ _ _ _ _ _ _) as [checked|]; [|done].
    cbn [bind]. intros [= <-].
    apply findOperation_key in Ef as [Hstr Hin].
    destruct Hst as (Hall & Hnd & Hsub). unfold coveredWithin. cbn [pr_covered].
    unfold set_add. destruct (set_has (pr_covered st) operationId) eqn:Ehas;
      [done|].
    split; [|split].
    + apply Forall_app. split; [done|]. by constructor.
    + apply NoDup_app. split; [done|]. split; [|apply NoDup_singleton].
      intros v Hv ->%list_elem_of_singleton.
      apply (set_has_strings _ _ Hall) in Hv. congruence.
    + intros v [Hv | ->%list_elem_of_singleton]%elem_of_app; auto.
  - by intros [= <-].
Qed.

Lemma missing_count (map : operationMap) (cov : list value)
    (acc missing : list string) :
  forEachM (λ '(opId, (tag, _)) missing,
    if negb (set_has cov opId) then
      let* tagLower := lowerCaseOf tag in
      let* folder := Generate.toKebabCase opId in
      Return (missing ++ [js_to_string opId +:+ " (expected at "
                            +:+ tagLower +:+ "/" +:+ folder
                            +:+ "/response.200.json)"])
    else Return missing) map acc = Return missing →
  length missing
  = length acc + length (List.filter (λ k, negb (set_has cov k)) map.*1).
Proof.
  revert acc. induction map as [|[opId [tag operation]] map IH]; intros acc.
  - cbn. intros [= <-]. lia.
  - cbn [forEachM]. rewrite fmap_cons. cbn [fst List.filter].
    destruct (negb (set_has cov opId)).
    + destruct (lowerCaseOf tag); [|done]. cbn [bind].
      destruct (Generate.toKebabCase opId); [|done]. cbn [bind].
      intros ->%IH. rewrite length_app. cbn. lia.
    + cbn [bind]. by intros ->%IH.
Qed.

Lemma covered_count (keys cov : list value) :
  NoDup (List.filter isStr keys) →
  Forall (λ v, isStr v = true) cov → NoDup cov →
  (∀ v, v ∈ cov → v ∈ keys) →
  length (List.filter (set_has cov) keys) = length cov.
Proof.
  intros Hkeys Hall Hnd Hsub. apply Permutation_length, NoDup_Permutation.
  - assert (List.filter (set_has cov) keys
            = List.filter (set_has cov) (List.filter isStr keys)) as ->.
    { clear -Hall. induction keys as [|k keys IH]; [done|]. cbn [List.filter].
      destruct (set_has cov k) eqn:E.
      - apply (set_has_strings _ _ Hall) in E as Hin.
        rewrite Forall_forall in Hall. rewrite (Hall _ Hin).
        cbn [List.filter]. by rewrite E, IH.
      - destruct (isStr k); cbn [List.filter]; by rewrite ?E, IH. }
    apply NoDup_ListNoDup, (List.NoDup_filter (set_has cov)), NoDup_ListNoDup.
    exact Hkeys.
  - done.
  - intros v. rewrite <- (set_has_strings cov v Hall).
    rewrite list_elem_of_In, filter_In, <- list_elem_of_In.
    split; [by intros [_ ?]|]. intros Hv. split; [|done].
    by apply Hsub, set_has_strings.
Qed.

Lemma filter_split_length {A} (p : A → bool) (l : list A) :
  length (List.filter p l) + length (List.filter (λ x, negb (p x)) l)
  = length l.
Proof.
  induction l as [|x l IH]; [done|]. cbn [List.filter].
  destruct (p x); cbn; lia.
Qed.
End CoverageCount.

(** X15: the coverage report of [healthCheck] adds up: the operations counted
    as covered and the ones listed as missing are, together, all the
    operations of the map, each one counted once. *)
Theorem healthCheck_coverage_adds_up
    (stack : nat) (spec : value) (files : list (string * value))
    (report : Coverage.HealthResult) :
  Coverage.healthCheck stack spec files = Return report →
  Coverage.covered (Coverage.coverage report)
  + length (Coverage.missing (Coverage.coverage report))
  = Coverage.total (Coverage.coverage report).
Proof.
  unfold Coverage.healthCheck.
  destruct (Coverage.buildOperationMap spec) as [map|] eqn:Emap; [|done].
  cbn [bind].
  destruct (forEachM _ files _) as [st|] eqn:Eloop; [|done]. cbn [bind].
  destruct (Coverage.checkCoverage map (Coverage.pr_covered st))
    as [coverage|] eqn:Ecov; [|done].
  cbn [bind]. intros [= <-]. cbn [Coverage.coverage].
  assert (Hst : coveredWithin map st).
  { refine (forEachM_invariant (coveredWithin map) _ files _ st _ _ Eloop).
    - intros file s s' _. apply checkFixture_covered.
    - split; [constructor|]. split; [apply NoDup_nil_2|].
      by intros v ?%elem_of_nil. }
  destruct Hst as (Hall & Hnd & Hsub).
  unfold Coverage.checkCoverage in Ecov.
  destruct (forEachM _ map []) as [missing|] eqn:Emissing; [|done].
  cbn [bind] in Ecov. injection Ecov as <-.
  cbn [Coverage.covered Coverage.missing Coverage.total].
  apply missing_count in Emissing. rewrite Emissing. cbn [length Nat.add].
  rewrite <- (covered_count map.*1 (Coverage.pr_covered st));
    [|by eapply buildOperationMap_distinct|done..].
  rewrite filter_split_length. by rewrite length_fmap.
Qed.

Lemma healthCheck_coverage_adds_up_witness :
  ∃ report,
    Coverage.healthCheck 8 sampleSpec
      [("apps/get-app/response.200.json",
         JObj [("_meta", JObj [("status", JNum 200)]);
               ("body", JObj [("id", JStr "bck7gp3q2")])])]
    = Return report
    ∧ Coverage.covered (Coverage.coverage report)
      + length (Coverage.missing (Coverage.coverage report))
      = Coverage.total (Coverage.coverage report).
Proof.
  eexists. split; [vm_compute; reflexivity|].
  apply (healthCheck_coverage_adds_up 8 sampleSpec
           [("apps/get-app/response.200.json",
              JObj [("_meta", JObj [("status", JNum 200)]);
                    ("body", JObj [("id", JStr "bck7gp3q2")])])]).
  vm_compute. reflexivity.
Defined.

(** ** Names of fixture files (tools/generate.ts) *)
Section SafeNames.
Import Generate.

Lemma dashRuns_safe (inRun : bool) (s : string) :
  str_forall safeChar (dashRuns inRun s) = true
  ∧ singleDashes (dashRuns inRun s) = true
  ∧ (inRun = true → firstChar (dashRuns inRun s) ≠ Some "-"%char).
Proof.
  revert inRun. induction s as [|c s IH]; intros inRun; [done|].
  cbn [dashRuns]. destruct (is_alnum_lower c) eqn:Ec.
  - destruct (IH false) as (Hs & Hd & _). cbn [str_forall firstChar].
    unfold safeChar at 1. rewrite Ec, Hs. split; [done|]. split.
    + cbn [singleDashes]. destruct (dashRuns false s) as [|b r] eqn:Er; [done|].
      rewrite Hd. assert (Ascii.eqb c "-" = false) as ->; [|done].
      apply Ascii.eqb_neq. intros ->. done.
    + intros _ [= ->]. done.
  - destruct inRun.
    + destruct (IH true) as (Hs & Hd & Hf). done.
    + destruct (IH true) as (Hs & Hd & Hf). cbn [str_forall].
      rewrite Hs. split; [done|]. split; [|done].
      cbn [singleDashes]. destruct (dashRuns true s) as [|b r] eqn:Er; [done|].
      rewrite Hd. cbn [firstChar] in Hf.
      assert (Ascii.eqb b "-" = false) as ->; [|done].
      apply Ascii.eqb_neq. intros ->. by apply Hf.
Qed.

Lemma dropTrailingDash_safe (s : string) :
  str_forall safeChar s = true → singleDashes s = true →
  str_forall safeChar (dropTrailingDash s) = true
  ∧ lastChar (dropTrailingDash s) ≠ Some "-"%char
  ∧ (firstChar s ≠ Some "-"%char →
     firstChar (dropTrailingDash s) ≠ Some "-"%char).
Proof.
  induction s as [|c s IH]; [done|]. cbn [dropTrailingDash].
  destruct s as [|b r].
  - destruct (Ascii.eqb_spec c "-") as [->|Hc]; [done|].
    intros Hs _. split; [done|]. split; [by intros [= ->]|done].
  - cbn [str_forall singleDashes]. intros [Hc Hs]%andb_prop [Hcb Hd]%andb_prop.
    destruct IH as (IH1 & IH2 & IH3); [done..|].
    cbn [str_forall firstChar]. rewrite Hc, IH1. split; [done|]. split; [|done].
    cbn [dropTrailingDash] in IH2, IH3 |- *.
    destruct r as [|a r'].
    + destruct (Ascii.eqb_spec b "-") as [->|Hb].
      * cbn [lastChar]. intros [= ->]. done.
      * cbn [lastChar]. by intros [= ->].
    + cbn [lastChar] in IH2 |- *. exact IH2.
Qed.
End SafeNames.

(** X16: [safeName] yields file-safe names: only lower-case letters, digits
    and dashes, with no dash at either end, so that a name can hold
    neither a path separator nor a dot. *)
Theorem safeName_is_file_safe (name : string) :
  str_forall safeChar (Generate.safeName name) = true
  ∧ firstChar (Generate.safeName name) ≠ Some "-"%char
  ∧ lastChar (Generate.safeName name) ≠ Some "-"%char.
Proof.
  unfold Generate.safeName, Generate.trimDashes.
  destruct (dashRuns_safe false (toLowerCase name)) as (Hs & Hd & _).
  destruct (Generate.dashRuns false (toLowerCase name)) as [|c r] eqn:Er;
    [done|].
  destruct (Ascii.eqb_spec c "-") as [->|Hc].
  - assert (Hr : str_forall safeChar r = true ∧ singleDashes r = true
                 ∧ firstChar r ≠ Some "-"%char).
    { cbn [str_forall singleDashes] in Hs, Hd.
      apply andb_prop in Hs as [_ Hs]. destruct r as [|b r']; [done|].
      apply andb_prop in Hd as [Hb Hd]. split; [done|]. split; [done|].
      cbn. intros [= ->]. done. }
    destruct Hr as (Hs' & Hd' & Hf').
    destruct (dropTrailingDash_safe r Hs' Hd') as (H1 & H2 & H3).
    change (match String "-" r with String "-" s' => s' | _ => String "-" r end)
      with r.
    split; [done|]. split; [by apply H3 | done].
  - assert ((match String c r with
             | String "-" s' => s'
             | _ => String c r
             end) = String c r) as ->.
    { destruct c as [[] [] [] [] [] [] [] []]; try done. }
    destruct (dropTrailingDash_safe (String c r) Hs Hd) as (H1 & H2 & H3).
    split; [done|]. split; [|done]. apply H3. cbn. by intros [= ->].
Qed.

(** ** Every example is written or skipped (tools/generate.ts) *)

Lemma keepNew_countOld (existing : gset string) (cs : list Generate.FixtureFile) :
  length (keepNew existing cs) + countOld existing cs = length cs.
Proof.
  unfold keepNew, countOld. induction cs as [|f cs IH]; [done|].
  cbn [List.filter]. destruct (bool_decide _); cbn; lia.
Qed.

(** X17: what [generateOperationFixtures] hands back accounts for every example
    of the operation, whatever files exist: the fixtures to write and the
    count of skipped ones add up to the same number for any set of
    existing files, no fixture to write has the name of an existing file,
    and with no existing file nothing is skipped. *)
Theorem generateOperationFixtures_writes_or_skips
    (fixturesRoot : string) (operation tag : value)
    (existing existing' : gset string)
    (fixtures : list Generate.FixtureFile) (skipped : nat) :
  Generate.generateOperationFixtures fixturesRoot operation tag existing
  = Return (fixtures, skipped) →
  ∃ fixtures' skipped',
    Generate.generateOperationFixtures fixturesRoot operation tag existing'
    = Return (fixtures', skipped')
    ∧ length fixtures' + skipped' = length fixtures + skipped
    ∧ Forall (λ f, Generate.fx_file f ∉ existing') fixtures'
    ∧ (existing' = ∅ → skipped' = 0).
Proof.
  destruct (generateOperationFixtures_candidates fixturesRoot operation tag)
    as (oc & _ & Hgen).
  rewrite (Hgen existing), (Hgen existing').
  destruct oc as [cs|]; [|done]. cbn [bind]. intros [= <- <-].
  eexists _, _. split; [done|]. split; [by rewrite !keepNew_countOld|].
  split.
  - apply Forall_forall. by intros f [_ ?]%keepNew_elem.
  - intros ->. unfold countOld. clear. induction cs as [|f cs IH]; [done|].
    cbn [List.filter]. rewrite bool_decide_eq_false_2; [done|].
    apply not_elem_of_empty.
Qed.

Lemma generateOperationFixtures_writes_or_skips_witness :
  ∃ fixtures' skipped',
    Generate.generateOperationFixtures "fixtures" sampleOperation (JStr "Apps")
      {["response.200.json"]}
    = Return (fixtures', skipped')
    ∧ length fixtures' + skipped' = 1
    ∧ Forall (λ f, Generate.fx_file f ∉ ({["response.200.json"]} : gset string))
        fixtures'
    ∧ (({["response.200.json"]} : gset string) = ∅ → skipped' = 0).
Proof.
  eapply (generateOperationFixtures_writes_or_skips "fixtures" sampleOperation
            (JStr "Apps") ∅ {["response.200.json"]} [_] 0).
  vm_compute. reflexivity.
Defined.

(** ** The generator and the health check agree on file names *)
Section Digits.
Import Generate.

Lemma pretty_N_char_digit (d : N) :
  (d < 10)%N →
  is_digit (pretty_N_char d) = true
  ∧ (N.of_nat (nat_of_ascii (pretty_N_char d)) - 48 = d)%N.
Proof.
  intros Hd. destruct d as [|p]; [done|].
  do 4 (destruct p as [p|p|]; try done); lia.
Qed.

(** Reading back the digits [pretty] has written. *)
Lemma leading_digits_pretty_go (x : N) :
  (0 < x)%N →
  ∀ s, ∃ k, ∀ acc,
    leading_digits acc (pretty_N_go x s)
    = leading_digits (Some (default 0 acc * k + x))%N s.
Proof.
  induction (N.lt_wf_0 x) as [x _ IH]. intros Hx s.
  rewrite pretty_N_go_step by done.
  assert (Hlt : (x `mod` 10 < 10)%N) by (apply N.mod_lt; lia).
  destruct (pretty_N_char_digit _ Hlt) as [Hdig Hval].
  assert (Hdiv : (x = x `div` 10 * 10 + x `mod` 10)%N)
    by (rewrite N.mul_comm; apply N.div_mod; lia).
  destruct (decide (x `div` 10 = 0)%N) as [H0|H0].
  - rewrite H0, pretty_N_go_0. exists 10%N. intros acc.
    cbn [leading_digits]. rewrite Hdig, Hval. do 2 f_equal. lia.
  - destruct (IH (x `div` 10)%N) with (s := String (pretty_N_char (x `mod` 10)) s)
      as [k Hk]; [apply N.div_lt; lia | lia|].
    exists (k * 10)%N. intros acc. rewrite Hk.
    cbn [leading_digits default]. rewrite Hdig, Hval. do 2 f_equal. unfold id. lia.
Qed.

Lemma pretty_N_go_app (x : N) (s rest : string) :
  pretty_N_go x s +:+ rest = pretty_N_go x (s +:+ rest).
Proof.
  revert s. induction (N.lt_wf_0 x) as [x _ IH]. intros s.
  destruct (decide (x = 0)%N) as [->|Hx]; [by rewrite !pretty_N_go_0|].
  rewrite (pretty_N_go_step x s), (pretty_N_go_step x (s +:+ rest)) by lia.
  rewrite IH by (apply N.div_lt; lia). reflexivity.
Qed.

Lemma leading_digits_stop (n : N) (c : ascii) (rest : string) :
  is_digit c = false → leading_digits (Some n) (String c rest) = Some n.
Proof. intros Hc. cbn. by rewrite Hc. Qed.

Lemma leading_digits_pretty_N (x : N) (c : ascii) (rest : string) :
  is_digit c = false →
  leading_digits None (pretty x +:+ String c rest) = Some x.
Proof.
  intros Hc. unfold pretty, pretty_N. case_decide as Hx.
  - subst x. change ("0" +:+ String c rest) with (String "0" (String c rest)).
    cbn [leading_digits]. by rewrite Hc.
  - rewrite pretty_N_go_app. change ("" +:+ String c rest) with (String c rest).
    destruct (leading_digits_pretty_go x) with (s := String c rest) as [k Hk];
      [lia|].
    rewrite Hk. cbn [default]. by rewrite leading_digits_stop by done.
Qed.

Lemma leading_digits_pretty_Z (status : Z) (c : ascii) (rest : string) :
  is_digit c = false → (0 ≤ status)%Z →
  Z.of_N <$> leading_digits None (pretty status +:+ String c rest)
  = Some status.
Proof.
  intros Hc Hs. destruct status as [|p|p]; [| |lia].
  - change (pretty 0%Z) with "0".
    change ("0" +:+ String c rest) with (String "0" (String c rest)).
    cbn [leading_digits]. by rewrite Hc.
  - change (pretty (Z.pos p)) with (pretty (N.pos p)).
    by rewrite leading_digits_pretty_N.
Qed.
End Digits.

Section Naming.
Import Generate.

Lemma candidatesWith_none P (step : gset string → pending → outcome pending) :
  (∀ existing acc, step existing acc = Return acc) → candidatesWith P step.
Proof.
  intros H. exists (Return []). split; [by intros ? [= <-]|].
  intros existing acc. cbn. by rewrite addCandidates_nil.
Qed.

Lemma candidatesWith_throw P e
    (step : gset string → pending → outcome pending) :
  (∀ existing acc, step existing acc = Throw e) → candidatesWith P step.
Proof. intros H. exists (Throw e). split; [done|]. intros. by rewrite H. Qed.

Lemma responseFixtures_named operationId baseDir entry :
  candidatesWith responseNamed
    (λ existing, responseFixtures operationId existing baseDir entry).
Proof.
  destruct entry as [statusCode response]. unfold responseFixtures.
  destruct (parseInt statusCode) as [status|]; [|by apply candidatesWith_none].
  destruct (js_field response "content") as [content|e]; cbn [bind];
    [|by apply (candidatesWith_throw _ e)].
  destruct (negb (truthy _)); [by apply candidatesWith_none|].
  destruct (truthy (js_get _ "x-amf-examples")).
  - set (multi := λ existing acc,
      Return (foldl (λ acc '(name, example),
                emit existing baseDir
                  ("response." +:+ pretty status +:+ "."
                     +:+ safeName name +:+ ".json")
                  (responseFixture (JStr name) status
                     (extractExampleValue example)) acc)
                acc (js_entries (js_get
                       (js_opt (js_opt content "application/json") "schema")
                       "x-amf-examples")))).
    assert (Hmulti : candidatesWith responseNamed multi).
    { eexists (Return _). split; [intros cs [= <-]|].
      2:{ intros existing acc. unfold multi. cbn [bind]. f_equal.
          apply (emit_each_candidate existing baseDir
            (λ n, "response." +:+ pretty status +:+ "."
                    +:+ safeName n +:+ ".json")
            (λ n ex, responseFixture (JStr n) status (extractExampleValue ex))). }
      apply Forall_fmap, Forall_forall. intros [n ex] _.
      exists status, ("." +:+ safeName n +:+ ".json").
      split; [done|]. split; [right; by exists n | done]. }
    destruct (js_entries _) as [|[name example] [|second rest]] eqn:E;
      try exact Hmulti.
    eexists (Return [_]). split; cycle 1.
    + intros existing acc. cbn [bind]. by rewrite emit_candidate.
    + intros cs [= <-]. repeat constructor. exists status, ".json".
      split; [done|]. split; [by left | done].
  - destruct (truthy (js_get _ "example")); [|by apply candidatesWith_none].
    eexists (Return [_]). split; cycle 1.
    + intros existing acc. cbn [bind]. by rewrite emit_candidate.
    + intros cs [= <-]. repeat constructor. exists status, ".json".
      split; [done|]. split; [by left | done].
Qed.

Lemma forEachM_candidatesWith {A} P
    (step : A → gset string → pending → outcome pending) (xs : list A) :
  (∀ x, candidatesWith P (step x)) →
  candidatesWith P (λ existing, forEachM (λ x, step x existing) xs).
Proof.
  intros Hstep. induction xs as [|x xs (ocs & Hdirs & IH)].
  - by apply candidatesWith_none.
  - destruct (Hstep x) as (oc & Hdir & Hx).
    exists (let* cs1 := oc in let* cs2 := ocs in Return (cs1 ++ cs2)).
    split.
    + intros cs. destruct oc as [cs1|]; [|done]. destruct ocs as [cs2|]; [|done].
      intros [= <-]. apply Forall_app. split; auto.
    + intros existing acc. cbn [forEachM]. rewrite Hx.
      destruct oc as [cs1|]; [|done]. cbn [bind]. rewrite IH.
      destruct ocs as [cs2|]; [|done]. cbn [bind].
      by rewrite addCandidates_app.
Qed.

(** The fixtures of an operation have one of the two kinds of name. *)
Lemma generateOperationFixtures_named fixturesRoot operation tag existing
    fixtures skipped :
  generateOperationFixtures fixturesRoot operation tag existing
  = Return (fixtures, skipped) →
  Forall wellNamed fixtures.
Proof.
  unfold generateOperationFixtures.
  destruct (toKebabCase (js_get operation "operationId")) as [operationDir|];
    [|done].
  cbn [bind]. destruct tag as [| | | |t| |]; try done. cbn [bind].
  set (baseDir := path_join (path_join fixturesRoot (toLowerCase t)) operationDir).
  set (example := js_opt _ "example").
  set (request := JObj (("_meta", _) :: _)).
  assert (Hreq : ∃ cs0, Forall wellNamed cs0 ∧
    (if truthy example
     then emit existing baseDir "request.json" request ([], 0)
     else ([], 0)) = addCandidates existing ([], 0) cs0).
  { destruct (truthy example).
    - exists [mkFixture baseDir "request.json" request].
      split; [repeat constructor; by left|]. by rewrite emit_candidate.
    - exists []. split; [done|]. by rewrite addCandidates_nil. }
  destruct Hreq as (cs0 & Hnamed0 & ->).
  assert (Hkeep : ∀ cs, Forall wellNamed cs → Forall wellNamed (keepNew existing cs)).
  { intros cs Hcs. apply Forall_forall. intros f [Hf _]%keepNew_elem.
    rewrite Forall_forall in Hcs. by apply Hcs. }
  destruct (truthy (js_get operation "responses")).
  - destruct (forEachM_candidatesWith responseNamed
      (λ entry existing,
         responseFixtures (js_get operation "operationId") existing baseDir entry)
      (js_entries (js_get operation "responses")))
      as (oc & Hnamed & Hloop).
    { intros entry. apply responseFixtures_named. }
    rewrite Hloop. destruct oc as [cs1|]; [|done]. cbn [bind].
    rewrite addCandidates_app. intros [= <- _]. cbn [fst app].
    apply Hkeep, Forall_app. split; [done|].
    eapply Forall_impl; [by apply Hnamed|]. intros f Hf. by right.
  - intros [= <- _]. cbn [fst app]. by apply Hkeep.
Qed.

Lemma slashFree_app (a b : string) :
  slashFree (a +:+ b) = slashFree a && slashFree b.
Proof.
  induction a as [|c a IH]; [done|].
  change (String c a +:+ b) with (String c (a +:+ b)). cbn [slashFree].
  by rewrite IH, andb_assoc.
Qed.

Lemma slashFree_digits (s : string) : all_digits s = true → slashFree s = true.
Proof.
  induction s as [|c s IH]; [done|]. cbn [all_digits slashFree].
  intros [Hc Hs]%andb_prop. rewrite IH by done.
  destruct (Ascii.eqb_spec c "/") as [->|]; done.
Qed.

Lemma slashFree_pretty_Z (status : Z) : slashFree (pretty status) = true.
Proof.
  destruct status as [|p|p]; [done|..].
  - apply slashFree_digits, (pretty_N_digits (N.pos p)).
  - change (pretty (Z.neg p)) with ("-" +:+ pretty (N.pos p)).
    rewrite slashFree_app. cbn [andb].
    change (slashFree "-") with true.
    apply slashFree_digits, (pretty_N_digits (N.pos p)).
Qed.

Lemma slashFree_safe (s : string) : str_forall safeChar s = true → slashFree s = true.
Proof.
  induction s as [|c s IH]; [done|]. cbn [str_forall slashFree].
  intros [Hc Hs]%andb_prop. rewrite IH by done.
  destruct (Ascii.eqb_spec c "/") as [->|]; done.
Qed.

Lemma wellNamed_slashFree (f : FixtureFile) :
  wellNamed f → slashFree (fx_file f) = true.
Proof.
  intros [->|(status & rest & -> & Hrest & _)]; [done|].
  rewrite !slashFree_app, slashFree_pretty_Z.
  change (slashFree "response.") with true. cbn [andb].
  destruct Hrest as [->|[name ->]]; [done|].
  rewrite !slashFree_app.
  assert (Hsafe : str_forall safeChar (safeName name) = true).
  { unfold safeName, trimDashes.
    destruct (dashRuns_safe false (toLowerCase name)) as (Hs & Hd & _).
    destruct (dashRuns false (toLowerCase name)) as [|c r] eqn:Er; [done|].
    assert (Hall : ∀ s, str_forall safeChar s = true →
                        str_forall safeChar (dropTrailingDash s) = true).
    { clear. induction s as [|c s IH]; [done|]. cbn [dropTrailingDash].
      destruct s as [|b r]; [by destruct (Ascii.eqb c "-")|].
      intros [Hc Hs]%andb_prop. cbn [str_forall]. rewrite Hc. by apply IH. }
    apply Hall. cbn [str_forall] in Hs. apply andb_prop in Hs as [Hc Hr].
    destruct c as [[] [] [] [] [] [] [] []]; try done;
      cbn [str_forall]; by rewrite ?Hc, Hr. }
  by rewrite (slashFree_safe _ Hsafe).
Qed.

Lemma string_app_assoc (a b c : string) : (a +:+ b) +:+ c = a +:+ (b +:+ c).
Proof.
  induction a as [|x a IH]; [done|].
  change (String x a +:+ b) with (String x (a +:+ b)).
  change (String x (a +:+ b) +:+ c) with (String x ((a +:+ b) +:+ c)).
  by rewrite IH.
Qed.

(** The parts the health check splits a generated path into. *)
Lemma generated_path_parts (tag folder file : string) :
  slashFree tag = true → slashFree folder = true → slashFree file = true →
  str_split "/" (path_join (path_join tag folder) file) = [tag; folder; file].
Proof.
  intros Ht Hf Hfile. unfold path_join.
  rewrite string_app_assoc.
  change ("/" +:+ folder) with (String "/" folder).
  change (String "/" folder +:+ "/" +:+ file)
    with (String "/" (folder +:+ String "/" file)).
  rewrite str_split_app by done. rewrite str_split_app by done.
  by rewrite str_split_slashFree.
Qed.
End Naming.

(** X18: the generator and the health check agree on where a fixture lives.
    Take an operation whose tag and identifier are written in ASCII and
    give plain path segments (not empty, neither [.] nor [..], no
    separator), the tag not being [_manual].  Then every fixture the
    generator hands back lies, relative to the fixtures directory, at a
    path the health check parses as a fixture of that tag and folder, of
    the right kind, and with the status its [_meta] records (for a status
    from 0 to below 2^53). *)
Theorem generated_fixtures_parse_back
    (fixturesRoot : string) (operation : value) (tag folder : string)
    (existing : gset string)
    (fixtures : list Generate.FixtureFile) (skipped : nat) :
  Generate.generateOperationFixtures fixturesRoot operation (JStr tag) existing
  = Return (fixtures, skipped) →
  Generate.toKebabCase (js_get operation "operationId") = Return folder →
  asciiOnly tag = true →
  (∀ operationId, js_get operation "operationId" = JStr operationId →
                  asciiOnly operationId = true) →
  plainSegment (toLowerCase tag) = true →
  plainSegment folder = true →
  toLowerCase tag ≠ "_manual" →
  Forall (parsesBack fixturesRoot (toLowerCase tag) folder) fixtures.
Proof.
  intros Hgen Hfolder _ _ Htag Hplain Hmanual.
  assert (Hslash : ∀ s, plainSegment s = true → slashFree s = true).
  { intros s H. unfold plainSegment in H.
    by apply andb_prop in H as [[[H _]%andb_prop _]%andb_prop _]. }
  apply Hslash in Htag, Hplain.
  pose proof (generateOperationFixtures_named _ _ _ _ _ _ Hgen) as Hnamed.
  destruct (generateOperationFixtures_candidates fixturesRoot operation (JStr tag))
    as (oc & Hdirs & Hcs).
  rewrite Hcs in Hgen. destruct oc as [cs|]; [|done].
  cbn [bind] in Hgen. injection Hgen as <- <-.
  specialize (Hdirs cs tag folder eq_refl eq_refl Hfolder).
  rewrite Forall_forall in Hdirs.
  apply Forall_forall. intros f Hin.
  rewrite Forall_forall in Hnamed. pose proof (Hnamed f Hin) as Hf.
  apply keepNew_elem in Hin as [Hin _]. pose proof (Hdirs f Hin) as Hdir.
  pose proof (wellNamed_slashFree f Hf) as Hfile.
  exists (Generate.path_join (Generate.path_join (toLowerCase tag) folder)
            (Generate.fx_file f)).
  split.
  { unfold relativeTo. rewrite Hdir. unfold Generate.path_join.
    rewrite !string_app_assoc. rewrite <- (string_app_assoc fixturesRoot "/").
    apply strip_own_prefix. }
  unfold Coverage.parseFixturePath.
  rewrite generated_path_parts by done.
  cbn [length Nat.ltb Nat.leb nth].
  assert (String.eqb (toLowerCase tag) "_manual" = false) as ->
    by (by apply String.eqb_neq).
  cbn [length Nat.ltb Nat.leb nth Nat.add].
  destruct Hf as [Hreq|(status & rest & Hname & Hrest & Hmeta)].
  - rewrite Hreq. eexists. split; [reflexivity|]. cbn. repeat split. by left.
  - rewrite Hname.
    change (startsWith "request" ("response." +:+ pretty status +:+ rest))
      with false.
    rewrite strip_own_prefix. eexists. split; [reflexivity|]. cbn.
    repeat split. right. split; [done|]. exists status. split; [done|].
    intros [Hpos _]. destruct Hrest as [->|[name ->]].
    + by apply (leading_digits_pretty_Z status "." "json").
    + by apply (leading_digits_pretty_Z status "."
                  (Generate.safeName name +:+ ".json")).
Qed.

Lemma generated_fixtures_parse_back_witness :
  ∃ fixtures skipped,
    Generate.generateOperationFixtures "fixtures" sampleOperation (JStr "Apps") ∅
    = Return (fixtures, skipped)
    ∧ length fixtures = 1
    ∧ Forall (parsesBack "fixtures" "apps" "get-app") fixtures.
Proof.
  eexists _, _. split; [vm_compute; reflexivity|]. split; [reflexivity|].
  apply (generated_fixtures_parse_back "fixtures" sampleOperation "Apps"
           "get-app" ∅ _ 0).
  - vm_compute. reflexivity.
  - reflexivity.
  - reflexivity.
  - intros operationId [= <-]. reflexivity.
  - reflexivity.
  - reflexivity.
  - intros H. vm_compute in H. discriminate H.
Defined.

(** ** The schema converter (tools/convert.ts) *)
Section Converter.
Import Convert.

Lemma noOverflow_bind {A B} (o : outcome A) (k : A → outcome B) :
  noOverflow o → (∀ a, o = Return a → noOverflow (k a)) →
  noOverflow (let* a := o in k a).
Proof.
  intros Ho Hk. destruct o as [a|e]; cbn [bind]; [by apply Hk|].
  intros [= ->]. by apply Ho.
Qed.

Lemma noOverflow_forEachM {A S} (body : A → S → outcome S) xs st :
  (∀ x st, x ∈ xs → noOverflow (body x st)) →
  noOverflow (forEachM body xs st).
Proof.
  revert st. induction xs as [|x xs IH]; intros st Hbody; cbn [forEachM];
    [done|].
  apply noOverflow_bind; [apply Hbody; by left|]. intros st' _.
  apply IH. intros y st'' Hy. apply Hbody. by right.
Qed.

Lemma noOverflow_mapM {A B} (f : A → outcome B) xs :
  (∀ x, x ∈ xs → noOverflow (f x)) → noOverflow (mapM f xs).
Proof.
  induction xs as [|x xs IH]; intros Hf; cbn [mapM]; [done|].
  apply noOverflow_bind; [apply Hf; by left|]. intros y _.
  apply noOverflow_bind; [|done]. apply IH. intros z Hz. apply Hf. by right.
Qed.

Lemma vdepth_get (kv : list (string * value)) (k : string) :
  vdepth (js_get (JObj kv) k) < vdepth (JObj kv).
Proof.
  cbn [js_get]. destruct (obj_get k kv) as [x|] eqn:E; [|cbn; lia].
  apply obj_get_elem in E. cbn [default]. by eapply vdepth_member.
Qed.

Lemma vdepth_entry (v : value) (k : string) (x : value) :
  (k, x) ∈ js_entries v → vdepth x < vdepth v ∨ vdepth x = 0.
Proof.
  destruct v as [| | | |s|l|kv]; cbn [js_entries];
    try (by intros ?%elem_of_nil).
  - intros H. right. apply indexed_values in H. cbn [snd] in H.
    apply list_elem_of_fmap in H as (c & -> & _). done.
  - intros H. left. apply indexed_values in H. by apply vdepth_elem.
  - intros H. left. by eapply vdepth_member.
Qed.

Lemma convertSchemaRef_noOverflow (stack : nat) (schema : value) :
  vdepth schema < stack → noOverflow (convertSchemaRef stack schema).
Proof.
  revert schema. induction stack as [|stack IH]; intros schema Hdepth; [lia|].
  cbn [convertSchemaRef]. unfold convertSchemaRefBody.
  destruct schema as [| |b|n|s|l|kv]; try done.
  cbn [js_field bind].
  assert (Hsub : ∀ k, noOverflow (convertSchemaRef stack (js_get (JObj kv) k))).
  { intros k. apply IH. pose proof (vdepth_get kv k). lia. }
  assert (Hmap : ∀ k subs, js_get (JObj kv) k = JArr subs →
                           noOverflow (mapM (convertSchemaRef stack) subs)).
  { intros k subs Hk. apply noOverflow_mapM. intros x Hx. apply IH.
    apply vdepth_elem in Hx. pose proof (vdepth_get kv k) as Hlt.
    rewrite Hk in Hlt. lia. }
  assert (Hprops : noOverflow
    (forEachM (λ '(key, v) (props : list (string * value)),
       let* v' := convertSchemaRef stack v in
       Return (obj_set key v' props))
       (js_entries (js_get (JObj kv) "properties")) [])).
  { apply noOverflow_forEachM.
    intros [key v] props Hin. apply noOverflow_bind; [|done]. apply IH.
    pose proof (vdepth_get kv "properties") as Hlt.
    destruct (vdepth_entry _ _ _ Hin); lia. }
  match goal with
  | |- noOverflow (match _ with JUndef => ?rest | _ => _ end) =>
      assert (Hrest : noOverflow rest)
  end.
  { destruct (_ && _); [apply noOverflow_bind; [apply Hsub | done]|].
    destruct (truthy (js_get (JObj kv) "properties"));
      [apply noOverflow_bind; [exact Hprops | done]|].
    destruct (js_get (JObj kv) "allOf") eqn:E1;
      try (apply noOverflow_bind; [by eapply Hmap | done]);
    destruct (js_get (JObj kv) "oneOf") eqn:E2;
      try (apply noOverflow_bind; [by eapply Hmap | done]);
    destruct (js_get (JObj kv) "anyOf") eqn:E3;
      try (apply noOverflow_bind; [by eapply Hmap | done]); done. }
  by destruct (js_get (JObj kv) "$ref") as [| | | |[|c r]| |].
Qed.
End Converter.

(** X19: the converter's recursion is bounded by the nesting of the schema:
    with a stack deeper than the schema nests, [convertSchemaRef] never
    stops for lack of stack. *)
Theorem convertSchemaRef_stack_suffices (stack : nat) (schema : value) :
  vdepth schema < stack →
  Convert.convertSchemaRef stack schema ≠ Throw RangeError.
Proof. apply convertSchemaRef_noOverflow. Qed.

Lemma convertSchemaRef_stack_suffices_witness :
  Convert.convertSchemaRef 3
    (JObj [("type", JStr "array");
           ("items", JObj [("$ref", JStr "#/definitions/App")])])
  ≠ Throw RangeError.
Proof.
  apply (convertSchemaRef_stack_suffices 3). vm_compute. lia.
Defined.

(** X20: [convertSchemaRef] looks for nested schemas under [items],
    [properties], [allOf], [oneOf] and [anyOf] only: on a node that is
    not a pointer, every other keyword ([additionalProperties] among
    them) is copied as it is, so a pointer to [#/definitions/...] under
    it is not rewritten. *)
Theorem convertSchemaRef_copies_other_keywords
    (stack : nat) (kv : list (string * value)) (converted : value)
    (keyword : string) :
  NoDup (obj_keys kv) →
  truthy (js_get (JObj kv) "$ref") = false →
  Convert.convertSchemaRef stack (JObj kv) = Return converted →
  keyword ∉ visitedKeywords →
  js_get converted keyword = js_get (JObj kv) keyword.
Proof.
  intros Hnd Href Hrun Hk. destruct stack as [|stack]; [done|].
  cbn [Convert.convertSchemaRef] in Hrun.
  unfold Convert.convertSchemaRefBody in Hrun. cbn [js_field bind] in Hrun.
  assert (Hcopy : ∀ key x,
    key ∈ visitedKeywords →
    js_get (JObj (obj_set key x (js_spread (JObj kv)))) keyword
    = js_get (JObj kv) keyword).
  { intros key x Hkey. cbn [js_get]. rewrite obj_get_set_ne by (by intros ->).
    by apply (recordValue_spread (JObj kv)). }
  assert (Hin : ∀ key, bool_decide (key ∈ visitedKeywords) = true →
                       key ∈ visitedKeywords)
    by (intros key; apply bool_decide_eq_true).
  revert Hrun.
  match goal with
  | |- match _ with JUndef => ?rest | _ => _ end = _ → _ =>
      assert (Hrest : rest = Return converted →
                      js_get converted keyword = js_get (JObj kv) keyword)
  end.
  { destruct (_ && _).
    { destruct (Convert.convertSchemaRef stack _); [|done]. cbn [bind].
      intros [= <-]. by apply Hcopy, Hin. }
    destruct (truthy (js_get (JObj kv) "properties")).
    { destruct (forEachM _ _ _); [|done]. cbn [bind].
      intros [= <-]. by apply Hcopy, Hin. }
    destruct (js_get (JObj kv) "allOf") eqn:E1;
      try (destruct (mapM _ _); [|done]; cbn [bind]; intros [= <-];
           by apply Hcopy, Hin);
    destruct (js_get (JObj kv) "oneOf") eqn:E2;
      try (destruct (mapM _ _); [|done]; cbn [bind]; intros [= <-];
           by apply Hcopy, Hin);
    destruct (js_get (JObj kv) "anyOf") eqn:E3;
      try (destruct (mapM _ _); [|done]; cbn [bind]; intros [= <-];
           by apply Hcopy, Hin);
    by intros [= <-]. }
  by destruct (js_get (JObj kv) "$ref") as [| | | |[|c r]| |].
Qed.

Lemma convertSchemaRef_copies_other_keywords_witness :
  ∃ converted,
    Convert.convertSchemaRef 2
      (JObj [("type", JStr "object");
             ("properties", JObj [("id", JObj [("$ref", JStr "#/definitions/Id")])]);
             ("additionalProperties",
               JObj [("$ref", JStr "#/definitions/FieldValue")])])
    = Return converted
    ∧ js_get converted "additionalProperties"
      = JObj [("$ref", JStr "#/definitions/FieldValue")]
    ∧ js_get converted "properties"
      = JObj [("id", JObj [("$ref", JStr "#/components/schemas/Id")])].
Proof.
  eexists. split; [vm_compute; reflexivity|]. split; [|reflexivity].
  apply (convertSchemaRef_copies_other_keywords 2
           [("type", JStr "object");
            ("properties", JObj [("id", JObj [("$ref", JStr "#/definitions/Id")])]);
            ("additionalProperties",
              JObj [("$ref", JStr "#/definitions/FieldValue")])]
           _ "additionalProperties").
  - vm_compute. repeat constructor; rewrite ?elem_of_cons, ?elem_of_nil;
      intros H; repeat (destruct H as [H|H]; [discriminate H|]); exact H.
  - reflexivity.
  - vm_compute. reflexivity.
  - unfold visitedKeywords. rewrite !elem_of_cons, elem_of_nil.
    intros H; repeat (destruct H as [H|H]; [discriminate H|]); exact H.
Defined.

(** ** Operations and path items (tools/convert.ts) *)
Section Operations.
Import Convert.

Lemma nonBodyParams_not_body (ps nonBody : list value) :
  nonBodyParams ps = Return nonBody →
  Forall (λ p, is_str "body" (js_get p "in") = false) nonBody.
Proof.
  revert nonBody. induction ps as [|p ps IH]; intros nonBody; cbn [nonBodyParams].
  - by intros [= <-].
  - destruct (js_field p "in") as [loc|] eqn:E; [|done]. cbn [bind].
    destruct (nonBodyParams ps) as [rest|]; [|done]. cbn [bind].
    assert (loc = js_get p "in") as ->
      by (destruct p; try done; cbn in E; by injection E as <-).
    destruct (is_str "body" (js_get p "in")) eqn:Eb; intros [= <-].
    + by apply IH.
    + constructor; [done | by apply IH].
Qed.

Lemma convertParameter_in (stack : nat) (param converted : value) :
  convertParameter stack param = Return converted →
  js_get converted "in" = js_get param "in".
Proof.
  unfold convertParameter.
  destruct (js_field param "in") as [loc|] eqn:E; [|done]. cbn [bind].
  assert (loc = js_get param "in") as ->
    by (destruct param; try done; cbn in E; by injection E as <-).
  destruct (is_str "body" (js_get param "in")); [by intros [= <-]|].
  match goal with
  | |- (if _ then bind _ (λ schema, Return (JObj (obj_set _ _ ?c1)))
        else _) = _ → _ =>
      assert (Hc1 : obj_get "in" c1 = Some (js_get param "in"))
  end.
  { destruct (truthy (js_get param "type")); [|done].
    by rewrite obj_get_set_ne. }
  destruct (truthy (js_get param "schema")).
  - destruct (convertSchemaRef stack _); [|done]. cbn [bind]. intros [= <-].
    cbn [js_get]. by rewrite obj_get_set_ne, Hc1.
  - intros [= <-]. cbn [js_get]. by rewrite Hc1.
Qed.
End Operations.

(** X21: a converted operation lists no body parameter: whatever it has under
    [parameters] is located elsewhere (the body parameter has become the
    request body). *)
Theorem convertOperation_parameters_exclude_body
    (stack : nat) (operation converted : value) (path method : string)
    (parameters : list value) :
  Convert.convertOperation stack operation path method = Return converted →
  js_get converted "parameters" = JArr parameters →
  Forall (λ p, is_str "body" (js_get p "in") = false) parameters.
Proof.
  unfold Convert.convertOperation.
  set (base := [("operationId", _); ("summary", _); ("description", _);
                ("tags", _)]).
  assert (Hparams : ∀ converted1,
    (if truthy (js_get operation "parameters") then
       match js_get operation "parameters" with
       | JArr parameters =>
           let* nonBody := Convert.nonBodyParams parameters in
           let* body := Convert.bodyParam parameters in
           let* c1 :=
             if (0 <? length nonBody)%nat then
               let* ps := mapM (Convert.convertParameter stack) nonBody in
               Return (obj_set "parameters" (JArr ps) base)
             else Return base in
           if truthy body then
             let* schema := Convert.convertSchemaRef stack (js_get body "schema") in
             Return (obj_set "requestBody"
               (JObj [("description", js_get body "description");
                      ("required", js_nullish (js_get body "required") (JBool false));
                      ("content",
                        JObj [("application/json", JObj [("schema", schema)])])])
               c1)
           else Return c1
       | _ => Throw TypeError
       end
     else Return base) = Return converted1 →
    ∀ ps, obj_get "parameters" converted1 = Some (JArr ps) →
          Forall (λ p, is_str "body" (js_get p "in") = false) ps).
  { intros converted1. destruct (truthy (js_get operation "parameters"));
      [|by intros [= <-]].
    destruct (js_get operation "parameters") as [| | | | |params|]; try done.
    destruct (Convert.nonBodyParams params) as [nonBody|] eqn:Enb; [|done].
    cbn [bind]. destruct (Convert.bodyParam params) as [body|]; [|done].
    cbn [bind]. apply nonBodyParams_not_body in Enb.
    assert (Hc1 : ∀ c1,
      (if (0 <? length nonBody)%nat then
         let* ps := mapM (Convert.convertParameter stack) nonBody in
         Return (obj_set "parameters" (JArr ps) base)
       else Return base) = Return c1 →
      ∀ ps, obj_get "parameters" c1 = Some (JArr ps) →
            Forall (λ p, is_str "body" (js_get p "in") = false) ps).
    { intros c1. destruct (0 <? length nonBody)%nat; [|by intros [= <-]].
      destruct (mapM _ nonBody) as [ps'|] eqn:Emap; [|done]. cbn [bind].
      intros [= <-] ps. rewrite obj_get_set_eq. intros [= <-].
      apply mapM_Forall2 in Emap. clear -Emap Enb.
      induction Emap as [|p p' l l' Hp _ IH]; [done|].
      apply Forall_cons in Enb as [Hb Hl]. constructor; [|by apply IH].
      apply convertParameter_in in Hp. by rewrite Hp. }
    destruct (if (0 <? length nonBody)%nat then _ else _) as [c1|]; [|done].
    specialize (Hc1 c1 eq_refl). cbn [bind]. destruct (truthy body).
    - destruct (Convert.convertSchemaRef stack _); [|done]. cbn [bind].
      intros [= <-] ps. rewrite obj_get_set_ne by done. apply Hc1.
    - intros [= <-]. apply Hc1. }
  destruct (if truthy (js_get operation "parameters") then _ else _)
    as [converted1|]; [|done].
  specialize (Hparams converted1 eq_refl). cbn [bind].
  assert (Hget : ∀ kv, js_get (JObj kv) "parameters" = JArr parameters →
                       obj_get "parameters" kv = Some (JArr parameters)).
  { intros kv. cbn [js_get]. by destruct (obj_get "parameters" kv) as [?|];
      cbn; [intros -> | ]. }
  destruct (truthy (js_get operation "responses")).
  - destruct (forEachM _ _ _); [|done]. cbn [bind]. intros [= <-] Hp%Hget.
    rewrite obj_get_set_ne in Hp by done. by apply Hparams.
  - intros [= <-] Hp%Hget. by apply Hparams.
Qed.

Lemma convertOperation_parameters_exclude_body_witness :
  ∃ converted parameters,
    Convert.convertOperation 3 bodyOperation "/apps" "post" = Return converted
    ∧ js_get converted "parameters" = JArr parameters
    ∧ length parameters = 1
    ∧ Forall (λ p, is_str "body" (js_get p "in") = false) parameters.
Proof.
  eexists _, _. split; [vm_compute; reflexivity|]. split; [reflexivity|].
  split; [reflexivity|].
  eapply (convertOperation_parameters_exclude_body 3 bodyOperation _
            "/apps" "post").
  - vm_compute. reflexivity.
  - reflexivity.
Defined.

(** X22: a converted path item holds operations only: each of its keys is one
    of the five methods under which the source has an operation, so
    anything else at path level (shared [parameters] among it) is
    dropped. *)
Theorem convertPathItem_keeps_only_operations
    (stack : nat) (path : string) (pathItem : value)
    (converted : list (string * value)) (key : string) :
  Convert.convertPathItem stack path pathItem = Return converted →
  obj_has key converted = true →
  key ∈ Patch.METHODS ∧ truthy (js_get pathItem key) = true.
Proof.
  unfold Convert.convertPathItem. intros Hrun.
  refine (forEachM_invariant
            (λ acc, obj_has key acc = true →
                    key ∈ Patch.METHODS ∧ truthy (js_get pathItem key) = true)
            _ _ [] converted _ _ Hrun); [|done].
  intros method acc acc' Hmethod Hacc.
  destruct (js_field pathItem method) as [operation|] eqn:E; [|done].
  cbn [bind].
  assert (operation = js_get pathItem method) as ->
    by (destruct pathItem; try done; cbn in E; by injection E as <-).
  destruct (truthy (js_get pathItem method)) eqn:Et; [|by intros [= <-]].
  destruct (Convert.convertOperation _ _ _ _); [|done]. cbn [bind].
  intros [= <-]. unfold obj_has.
  destruct (decide (method = key)) as [<-|Hne]; [done|].
  rewrite obj_get_set_ne by done. exact Hacc.
Qed.

Lemma convertPathItem_keeps_only_operations_witness :
  ("get" : string) ∈ Patch.METHODS
  ∧ truthy (js_get
              (JObj [("parameters", JArr [JObj [("name", JStr "appId")]]);
                     ("get", JObj [("operationId", JStr "getApp")])])
              "get") = true.
Proof.
  apply (convertPathItem_keeps_only_operations 3 "/apps/{appId}"
           (JObj [("parameters", JArr [JObj [("name", JStr "appId")]]);
                  ("get", JObj [("operationId", JStr "getApp")])])
           [("get", JObj [("operationId", JStr "getApp"); ("summary", JUndef);
                          ("description", JUndef); ("tags", JUndef)])]
           "get").
  - vm_compute. reflexivity.
  - reflexivity.
Defined.

(** ** The field summary follows a bounded number of pointers
       (tools/summarize.ts) *)
Section Summary.
Import Summarize.

Lemma getSchemaName_noOverflow (stack : nat) (schema : value) :
  vdepth schema < stack → noOverflow (getSchemaName stack schema).
Proof.
  revert schema. induction stack as [|stack IH]; intros schema Hdepth; [lia|].
  cbn [getSchemaName]. unfold getSchemaNameBody.
  destruct (negb (truthy schema)); [done|].
  destruct (truthy (js_get schema "$ref")).
  { by destruct (js_get schema "$ref"). }
  destruct (is_str "array" (js_get schema "type") && _) eqn:E; [|done].
  apply noOverflow_bind; [|done]. apply IH.
  destruct schema as [| | | | | |kv]; try done.
  pose proof (vdepth_get kv "items"). lia.
Qed.

Lemma vdepth_js_get (v : value) (k : string) : vdepth (js_get v k) ≤ vdepth v.
Proof.
  destruct v as [| |b|n|s|l|kv]; cbn [js_get]; try (cbn; lia).
  - destruct (String.eqb k "length"); [cbn; lia|].
    destruct (array_index k); [|cbn; lia].
    destruct (_ !! _) as [x|] eqn:E; [|cbn; lia].
    apply list_elem_of_lookup_2, list_elem_of_fmap in E as (c & -> & _).
    cbn. lia.
  - destruct (String.eqb k "length"); [cbn; lia|].
    destruct (array_index k); [|cbn; lia].
    destruct (_ !! _) as [x|] eqn:E; [|cbn; lia].
    apply list_elem_of_lookup_2, vdepth_elem in E.
    cbn [default from_option id]. lia.
  - fold (js_get (JObj kv) k). pose proof (vdepth_get kv k). lia.
Qed.

Lemma vdepth_js_opt (v : value) (k : string) : vdepth (js_opt v k) ≤ vdepth v.
Proof. destruct v; try (cbn; lia); apply vdepth_js_get. Qed.

Lemma extractFields_noOverflow (spec : value) (stack depth : nat) (schema : value) :
  (4 - depth) + (vdepth spec `max` vdepth schema) ≤ stack →
  depth ≤ 3 →
  noOverflow (extractFields stack schema spec depth).
Proof.
  revert depth schema.
  induction stack as [|stack IH]; intros depth schema Hstack Hd; [lia|].
  cbn [extractFields]. unfold extractFieldsBody.
  destruct (negb (truthy schema) || (2 <? depth)%nat) eqn:Eguard; [done|].
  apply orb_false_elim in Eguard as [_ Hdepth%Nat.ltb_ge].
  destruct (truthy (js_get schema "$ref")).
  { destruct (js_get schema "$ref"); try done.
    destruct (truthy (lastPart _)); [|done].
    apply noOverflow_bind; [by destruct spec|]. intros components Hc.
    destruct (truthy _); [|done]. apply IH; [|lia].
    assert (components = js_get spec "components") as ->
      by (destruct spec; try done; cbn in Hc; by injection Hc as <-).
    set (target := js_opt _ _).
    assert (vdepth target ≤ vdepth spec).
    { unfold target. etransitivity; [apply vdepth_js_opt|].
      etransitivity; [apply vdepth_js_opt|]. apply vdepth_js_get. }
    lia. }
  destruct (negb (truthy (js_get schema "properties"))); [done|].
  apply noOverflow_bind.
  { by destruct (js_or _ _). }
  intros required _. apply noOverflow_mapM. intros [name prop] Hin.
  apply noOverflow_bind.
  - apply getSchemaName_noOverflow.
    pose proof (vdepth_js_get schema "properties").
    destruct (vdepth_entry _ _ _ Hin); lia.
  - intros type _. apply noOverflow_bind; [by destruct prop | done].
Qed.
End Summary.

(** X23: [extractFields] follows at most three pointers, so, unlike the
    fixture validator, it cannot be driven into the ground by a cycle of
    pointers: a stack four activations deeper than the document nests is
    always enough. *)
Theorem extractFields_stack_suffices (stack : nat) (schema spec : value) :
  4 + (vdepth spec `max` vdepth schema) ≤ stack →
  Summarize.extractFields stack schema spec 0 ≠ Throw RangeError.
Proof. intros Hstack. apply extractFields_noOverflow; lia. Qed.

Lemma extractFields_stack_suffices_witness :
  Summarize.extractFields 8 selfRefSchema selfRefSpec 0 ≠ Throw RangeError.
Proof.
  apply (extractFields_stack_suffices 8 selfRefSchema selfRefSpec).
  vm_compute. lia.
Defined.

